(** * goleveldb: journal framing and bloom filter

    A shallow embedding of [leveldb/journal/journal.go] and
    [leveldb/filter/bloom.go], and the properties of the two that the
    specification states.

    Conventions.  A Go [[]byte] is a [list byte]; Go's [int] is a
    64-bit two's-complement integer held in [Z] and wrapped by [int];
    [uint8], [uint16] and [uint32] are the Go conversions.  Code that
    can panic or loop returns a [res]: the loops run on a budget of
    iterations taken from the size of their input, and [Timeout] is the
    budget running out. *)

From Stdlib Require Import ZArith List Lia Bool String HexString Permutation.
From coqutil Require Import Byte Word.LittleEndianList.
Import ListNotations.
Local Open Scope Z_scope.

(** ** Machine integers *)

Definition uint8 (z : Z) : Z := z mod 2 ^ 8.
Definition uint16 (z : Z) : Z := z mod 2 ^ 16.
Definition uint32 (z : Z) : Z := z mod 2 ^ 32.
Definition int (z : Z) : Z := (z + 2 ^ 63) mod 2 ^ 64 - 2 ^ 63.

(** ** Panics *)

Inductive res (A : Type) : Type :=
| Ok (a : A)
| Panic (msg : string)
| Timeout.
Arguments Ok {A} a.
Arguments Panic {A} msg.
Arguments Timeout {A}.

Definition bind {A B : Type} (m : res A) (f : A -> res B) : res B :=
  match m with
  | Ok a => f a
  | Panic msg => Panic msg
  | Timeout => Timeout
  end.

Notation "x <- m ;; k" := (bind m (fun x => k))
  (at level 61, m at next level, right associativity).

(** ** Slices *)

Definition len {A : Type} (s : list A) : Z := Z.of_nat (List.length s).

(** [s[lo:hi]] *)
Definition slice {A : Type} (s : list A) (lo hi : Z) : list A :=
  firstn (Z.to_nat (hi - lo)) (skipn (Z.to_nat lo) s).

(** [s[k]] *)
Definition index (s : list byte) (k : Z) : byte := nth (Z.to_nat k) s Byte.x00.

(** [copy(dst[k:], src)] for a [src] that fits. *)
Definition store {A : Type} (dst : list A) (k : Z) (src : list A) : list A :=
  firstn (Z.to_nat k) dst ++ src ++ skipn (Z.to_nat k + List.length src) dst.

Definition zeros (n : Z) : list byte := repeat Byte.x00 (Z.to_nat n).

Lemma len_nil {A : Type} : len (@nil A) = 0.
Proof. reflexivity. Qed.

Lemma len_cons {A : Type} (a : A) (s : list A) : len (a :: s) = 1 + len s.
Proof. unfold len. cbn [List.length]. lia. Qed.

Lemma len_app {A : Type} (s t : list A) : len (s ++ t) = len s + len t.
Proof. unfold len. rewrite length_app. lia. Qed.

Lemma len_nonneg {A : Type} (s : list A) : 0 <= len s.
Proof. unfold len. lia. Qed.

Lemma len_firstn {A : Type} (n : nat) (s : list A) :
  len (firstn n s) = Z.min (Z.of_nat n) (len s).
Proof. unfold len. rewrite length_firstn. lia. Qed.

Lemma len_skipn {A : Type} (n : nat) (s : list A) :
  len (skipn n s) = Z.max 0 (len s - Z.of_nat n).
Proof. unfold len. rewrite length_skipn. lia. Qed.

Lemma len_zeros (n : Z) : 0 <= n -> len (zeros n) = n.
Proof. intros H. unfold len, zeros. rewrite repeat_length. lia. Qed.

Lemma len_slice {A : Type} (s : list A) (lo hi : Z) :
  0 <= lo <= hi -> hi <= len s -> len (slice s lo hi) = hi - lo.
Proof.
  intros H1 H2. unfold slice. rewrite len_firstn, len_skipn. lia.
Qed.

Lemma len_store {A : Type} (dst : list A) (k : Z) (src : list A) :
  0 <= k -> k + len src <= len dst -> len (store dst k src) = len dst.
Proof.
  intros H1 H2. unfold store. rewrite !len_app, len_firstn, len_skipn.
  unfold len in *. lia.
Qed.

Lemma len_le_split (n : nat) (z : Z) : len (le_split n z) = Z.of_nat n.
Proof. unfold len. now rewrite length_le_split. Qed.

Lemma index_store_same (dst : list byte) (k : Z) (b : byte) :
  0 <= k < len dst -> index (store dst k [b]) k = b.
Proof.
  intros H. unfold index, store, len in *.
  rewrite app_nth2; rewrite length_firstn; [|lia].
  replace (Z.to_nat k - Nat.min (Z.to_nat k) (List.length dst))%nat with 0%nat by lia.
  reflexivity.
Qed.

Lemma index_store_other (dst : list byte) (k m : Z) (b : byte) :
  0 <= k < len dst -> 0 <= m -> m <> k -> index (store dst k [b]) m = index dst m.
Proof.
  intros Hk Hm Hne. unfold index, store, len in *.
  destruct (Z_lt_le_dec m k) as [Hlt|Hge].
  - rewrite app_nth1 by (rewrite length_firstn; lia).
    rewrite <- (firstn_skipn (Z.to_nat k) dst) at 2.
    rewrite app_nth1 by (rewrite length_firstn; lia). reflexivity.
  - rewrite app_nth2 by (rewrite length_firstn; lia).
    rewrite length_firstn.
    replace (Nat.min (Z.to_nat k) (List.length dst)) with (Z.to_nat k) by lia.
    destruct (Z.to_nat m - Z.to_nat k)%nat as [|d] eqn:Hd; [lia|].
    cbn [app nth List.length].
    rewrite nth_skipn. f_equal. lia.
Qed.

(** Slices and stores, element by element. *)

Lemma nth_slice {A : Type} (s : list A) (lo hi : Z) (n : nat) (d : A) :
  0 <= lo -> (n < Z.to_nat (hi - lo))%nat ->
  nth n (slice s lo hi) d = nth (Z.to_nat lo + n) s d.
Proof.
  intros Hlo Hn. unfold slice. rewrite nth_firstn.
  destruct (Nat.ltb_spec n (Z.to_nat (hi - lo))); [|lia].
  apply nth_skipn.
Qed.

Lemma nth_store {A : Type} (dst : list A) (k : Z) (src : list A) (n : nat) (d : A) :
  0 <= k -> k + len src <= len dst ->
  nth n (store dst k src) d =
    if (n <? Z.to_nat k)%nat then nth n dst d
    else if (n <? Z.to_nat k + List.length src)%nat then nth (n - Z.to_nat k) src d
    else nth n dst d.
Proof.
  intros Hk Hfit. unfold store, len in *.
  destruct (Nat.ltb_spec n (Z.to_nat k)).
  - rewrite app_nth1 by (rewrite length_firstn; lia).
    rewrite nth_firstn. destruct (Nat.ltb_spec n (Z.to_nat k)); [reflexivity|lia].
  - rewrite app_nth2 by (rewrite length_firstn; lia).
    rewrite length_firstn.
    replace (Nat.min (Z.to_nat k) (List.length dst)) with (Z.to_nat k) by lia.
    destruct (Nat.ltb_spec n (Z.to_nat k + List.length src)).
    + rewrite app_nth1 by lia. reflexivity.
    + rewrite app_nth2 by lia. rewrite nth_skipn. f_equal. lia.
Qed.

Lemma slice_nil {A : Type} (s : list A) (lo hi : Z) : hi <= lo -> slice s lo hi = [].
Proof. intros H. unfold slice. replace (Z.to_nat (hi - lo)) with 0%nat by lia. reflexivity. Qed.

Lemma slice_full {A : Type} (s : list A) : slice s 0 (len s) = s.
Proof.
  unfold slice, len. cbn [Z.to_nat skipn]. apply firstn_all2. lia.
Qed.

Lemma firstn_plus {A : Type} (a b : nat) : forall s : list A,
  firstn (a + b) s = firstn a s ++ firstn b (skipn a s).
Proof.
  induction a as [|a IH]; intros s; [reflexivity|].
  destruct s as [|x s]; cbn [Nat.add firstn skipn app].
  - now rewrite firstn_nil.
  - now rewrite IH.
Qed.

Lemma slice_split {A : Type} (s : list A) (lo mid hi : Z) :
  0 <= lo <= mid -> mid <= hi ->
  slice s lo hi = slice s lo mid ++ slice s mid hi.
Proof.
  intros H1 H2. unfold slice.
  replace (Z.to_nat (hi - lo)) with (Z.to_nat (mid - lo) + Z.to_nat (hi - mid))%nat by lia.
  rewrite firstn_plus. f_equal. rewrite skipn_skipn.
  do 2 f_equal. lia.
Qed.

Lemma slice_one (s : list byte) (k : Z) :
  0 <= k < len s -> slice s k (k + 1) = [index s k].
Proof.
  intros H. apply nth_ext with (d := Byte.x00) (d' := Byte.x00).
  - apply Nat2Z.inj. fold (len (slice s k (k + 1))). rewrite len_slice by lia.
    cbn [List.length]. lia.
  - intros n Hn.
    assert (Hl : len (slice s k (k + 1)) = 1) by (rewrite len_slice; lia).
    unfold len in Hl. destruct n; [|lia].
    rewrite nth_slice by lia. unfold index. cbn [nth]. f_equal. lia.
Qed.

Lemma slice_store_same {A : Type} (dst : list A) (k : Z) (src : list A) :
  0 <= k -> k + len src <= len dst ->
  slice (store dst k src) k (k + len src) = src.
Proof.
  intros Hk Hfit. unfold slice, store, len in *.
  rewrite skipn_app, length_firstn.
  replace (Z.to_nat k - Nat.min (Z.to_nat k) (List.length dst))%nat with 0%nat by lia.
  rewrite skipn_all2 by (rewrite length_firstn; lia).
  cbn [app skipn].
  replace (Z.to_nat (k + Z.of_nat (List.length src) - k)) with (List.length src) by lia.
  rewrite firstn_app, Nat.sub_diag, firstn_all. cbn [firstn]. apply app_nil_r.
Qed.

Lemma slice_store_to {A : Type} (dst : list A) (k hi : Z) (src : list A) :
  0 <= k -> k + len src <= len dst -> hi = k + len src ->
  slice (store dst k src) k hi = src.
Proof. intros Hk Hfit ->. now apply slice_store_same. Qed.

Lemma slice_store_other {A : Type} (dst : list A) (k : Z) (src : list A) (lo hi : Z) :
  0 <= k -> k + len src <= len dst -> 0 <= lo <= hi -> hi <= len dst ->
  hi <= k \/ k + len src <= lo ->
  slice (store dst k src) lo hi = slice dst lo hi.
Proof.
  intros Hk Hfit Hlo Hhi Hd.
  destruct (Z.eq_dec lo hi) as [->|Hne]; [now rewrite !slice_nil by lia|].
  assert (Hinh : exists d : A, True).
  { destruct dst as [|d dst]; [unfold len in *; cbn in *; lia|now exists d]. }
  destruct Hinh as [d _].
  apply nth_ext with (d := d) (d' := d).
  - apply Nat2Z.inj. fold (len (slice (store dst k src) lo hi)) (len (slice dst lo hi)).
    rewrite !len_slice; rewrite ?len_store; lia.
  - intros n Hn.
    assert (Hl : len (slice (store dst k src) lo hi) = hi - lo)
      by (rewrite len_slice; rewrite ?len_store; lia).
    unfold len in Hl.
    rewrite !nth_slice by lia. rewrite nth_store by lia.
    unfold len in *.
    destruct (Nat.ltb_spec (Z.to_nat lo + n) (Z.to_nat k)); [reflexivity|].
    destruct (Nat.ltb_spec (Z.to_nat lo + n) (Z.to_nat k + List.length src));
      [lia|reflexivity].
Qed.

Lemma slice_app_l {A : Type} (s t : list A) (lo hi : Z) :
  0 <= lo <= hi -> hi <= len s -> slice (s ++ t) lo hi = slice s lo hi.
Proof.
  intros H1 H2. unfold slice, len in *.
  rewrite skipn_app, firstn_app, length_skipn.
  replace (Z.to_nat (hi - lo) - (List.length s - Z.to_nat lo))%nat with 0%nat by lia.
  cbn [firstn]. apply app_nil_r.
Qed.

Lemma slice_app_r {A : Type} (s t : list A) (lo hi : Z) :
  len s <= lo -> slice (s ++ t) lo hi = slice t (lo - len s) (hi - len s).
Proof.
  intros H. pose proof (len_nonneg s). unfold slice, len in *.
  rewrite skipn_app, skipn_all2 by lia. cbn [app].
  f_equal; [lia|]. f_equal. lia.
Qed.

Lemma slice_slice {A : Type} (s : list A) (a b lo hi : Z) :
  0 <= a -> 0 <= lo <= hi -> a + hi <= b ->
  slice (slice s a b) lo hi = slice s (a + lo) (a + hi).
Proof.
  intros Ha Hlo Hhi. unfold slice.
  rewrite skipn_firstn_comm, firstn_firstn, skipn_skipn.
  f_equal; [lia|]. f_equal. lia.
Qed.

Lemma app_eq_len {A : Type} (a b c d : list A) :
  a ++ b = c ++ d -> len a = len c -> a = c /\ b = d.
Proof.
  intros H Hl. unfold len in Hl. apply Nat2Z.inj in Hl.
  assert (H1 : firstn (List.length a) (a ++ b) = firstn (List.length a) (c ++ d))
    by now rewrite H.
  rewrite Hl in H1 at 2.
  rewrite !firstn_app, !Nat.sub_diag, !firstn_all in H1. cbn [firstn] in H1.
  rewrite !app_nil_r in H1. subst c. split; [reflexivity|].
  now apply app_inv_head in H.
Qed.

Lemma zeros_app (m n : Z) : 0 <= m -> 0 <= n -> zeros (m + n) = zeros m ++ zeros n.
Proof.
  intros Hm Hn. unfold zeros. rewrite Z2Nat.inj_add by lia. apply repeat_app.
Qed.

Lemma slice_zeros (n lo hi : Z) :
  0 <= lo <= hi -> hi <= n -> slice (zeros n) lo hi = zeros (hi - lo).
Proof.
  intros H1 H2.
  replace n with (lo + ((hi - lo) + (n - hi))) by lia.
  rewrite zeros_app, zeros_app by lia.
  rewrite slice_app_r by (rewrite len_zeros; lia).
  rewrite len_zeros by lia.
  rewrite slice_app_l by (rewrite ?len_zeros; lia).
  replace (lo - lo) with 0 by lia.
  rewrite <- (len_zeros (hi - lo)) at 2 by lia. apply slice_full.
Qed.

Lemma slice_all {A : Type} (s : list A) (n : Z) : len s = n -> slice s 0 n = s.
Proof. intros <-. apply slice_full. Qed.

Lemma slice_app_head {A : Type} (s t : list A) (n : Z) :
  len s = n -> slice (s ++ t) 0 n = s.
Proof.
  intros H. pose proof (len_nonneg s).
  rewrite slice_app_l by lia. now apply slice_all.
Qed.

Lemma slice_app_at {A : Type} (s t : list A) (lo hi : Z) :
  len s = lo -> slice (s ++ t) lo hi = slice t 0 (hi - lo).
Proof. intros <-. rewrite slice_app_r by lia. f_equal. lia. Qed.

(** * The bloom filter ([leveldb/filter/bloom.go]) *)

Module Bloom.
Section Filter.

(** [util.Hash(data, seed)], a [uint32]; the hash function lives in
    another package and is consumed as it is. *)
Variable Hash : list byte -> Z -> Z.

(** [b.Alloc(n)] of the [Buffer] handed to [Generate]: a view of [n]
    bytes whose content is whatever the buffer held. *)
Variable Alloc : Z -> list byte.
Hypothesis Alloc_len : forall n, 0 <= n -> len (Alloc n) = n.

Definition bloomHash (key : list byte) : Z := Hash key 0xbc9f1d34.

(** [type bloomFilter int] *)
Definition bloomFilter : Type := Z.

(** [(kh >> 17) | (kh << 15)] on [uint32] *)
Definition rotate (kh : Z) : Z :=
  Z.lor (Z.shiftr kh 17) (uint32 (Z.shiftl kh 15)).

(** The loop of [Contains]: [n] iterations are left to run. *)
Fixpoint probe (n : nat) (filter : list byte) (nBits kh delta : Z) : res bool :=
  match n with
  | O => Ok true
  | S n' =>
      if nBits =? 0 then Panic "integer divide by zero" else
      let bitpos := kh mod nBits in
      if Z.land (byte.unsigned (index filter (bitpos / 8)))
                (Z.shiftl 1 (bitpos mod 8)) =? 0
      then Ok false
      else probe n' filter nBits (uint32 (kh + delta)) delta
  end.

Definition Contains (f : bloomFilter) (filter key : list byte) : res bool :=
  let nBytes := len filter - 1 in
  if nBytes <? 1 then Ok false else
  let nBits := uint32 (int (nBytes * 8)) in
  let k := byte.unsigned (index filter nBytes) in
  if k >? 30 then Ok true else
  let kh := bloomHash key in
  let delta := rotate kh in
  probe (Z.to_nat k) filter nBits kh delta.

Record bloomFilterGenerator : Type := mkGenerator {
  n : Z;
  k : Z;
  keyHashes : list Z
}.

Definition NewGenerator (f : bloomFilter) : bloomFilterGenerator :=
  let k := uint8 (Z.quot (int (f * 69)) 100) in
  let k := if k <? 1 then 1 else if k >? 30 then 30 else k in
  mkGenerator f k [].

Definition Add (g : bloomFilterGenerator) (key : list byte) : bloomFilterGenerator :=
  mkGenerator (n g) (k g) (keyHashes g ++ [bloomHash key]).

(** [dest[bitpos/8] |= (1 << (bitpos % 8))] *)
Definition setbit (dest : list byte) (bitpos : Z) : list byte :=
  store dest (bitpos / 8)
    [byte.of_Z (Z.lor (byte.unsigned (index dest (bitpos / 8)))
                      (Z.shiftl 1 (bitpos mod 8)))].

(** The inner loop of [Generate]: [n] iterations are left to run. *)
Fixpoint mark (n : nat) (dest : list byte) (nBits kh delta : Z) : res (list byte) :=
  match n with
  | O => Ok dest
  | S n' =>
      if nBits =? 0 then Panic "integer divide by zero" else
      let bitpos := kh mod nBits in
      mark n' (setbit dest bitpos) nBits (uint32 (kh + delta)) delta
  end.

(** The outer loop of [Generate], over [g.keyHashes]. *)
Fixpoint markAll (hs : list Z) (k : Z) (dest : list byte) (nBits : Z) : res (list byte) :=
  match hs with
  | [] => Ok dest
  | kh :: hs' =>
      dest' <- mark (Z.to_nat k) dest nBits kh (rotate kh) ;;
      markAll hs' k dest' nBits
  end.

(** [Generate] returns the generator with its hashes cleared and the
    bytes it wrote to the buffer. *)
Definition Generate (g : bloomFilterGenerator) : res (bloomFilterGenerator * list byte) :=
  let nBits := uint32 (int (len (keyHashes g) * n g)) in
  let nBits := if nBits <? 64 then 64 else nBits in
  let nBytes := uint32 (nBits + 7) / 8 in
  let nBits := uint32 (nBytes * 8) in
  let dest := Alloc (int (int nBytes + 1)) in
  let dest := store dest nBytes [byte.of_Z (k g)] in
  dest' <- markAll (keyHashes g) (k g) dest nBits ;;
  Ok (mkGenerator (n g) (k g) [], dest').

(** Adding the keys of a list one after the other. *)
Definition AddAll (g : bloomFilterGenerator) (keys : list (list byte)) : bloomFilterGenerator :=
  fold_left Add keys g.

(** The probe count and the serialized length as the specification
    words them: [k = clamp(round(bits_per_key * ln2), 1, 30)] with
    [ln2] taken as 0.69, and [ceil(max(64, n*b)/8) + 1]. *)
Definition clamp (x lo hi : Z) : Z := Z.max lo (Z.min hi x).
Definition round_69_100 (b : Z) : Z := (2 * (b * 69) + 100) / 200.
Definition spec_k (b : Z) : Z := clamp (round_69_100 b) 1 30.
Definition spec_len (nkeys b : Z) : Z := (Z.max 64 (nkeys * b) + 7) / 8 + 1.

(** Bit [p] of the bit array held in [d]. *)
Definition bit (d : list byte) (p : Z) : bool :=
  Z.testbit (byte.unsigned (index d (p / 8))) (p mod 8).

Definition below (d d' : list byte) : Prop :=
  forall q, 0 <= q -> bit d q = true -> bit d' q = true.

Lemma uint32_int (z : Z) : uint32 (int z) = uint32 z.
Proof.
  unfold uint32, int.
  replace (2 ^ 64) with (2 ^ 32 * 2 ^ 32) by reflexivity.
  replace ((z + 2 ^ 63) mod (2 ^ 32 * 2 ^ 32) - 2 ^ 63)
    with ((z + 2 ^ 63) mod (2 ^ 32 * 2 ^ 32) + (- 2 ^ 31) * 2 ^ 32) by lia.
  rewrite Z.mod_add by lia.
  rewrite Z.mod_mod_divide by (exists (2 ^ 32); reflexivity).
  replace (z + 2 ^ 63) with (z + 2 ^ 31 * 2 ^ 32) by lia.
  now rewrite Z.mod_add by lia.
Qed.

Lemma int_small (z : Z) : - 2 ^ 63 <= z < 2 ^ 63 -> int z = z.
Proof. intros H. unfold int. rewrite Z.mod_small; lia. Qed.

Lemma land_bit_zero (x m : Z) :
  0 <= m -> (Z.land x (Z.shiftl 1 m) =? 0) = negb (Z.testbit x m).
Proof.
  intros Hm. rewrite Z.shiftl_1_l.
  destruct (Z.testbit x m) eqn:Hb; cbn [negb].
  - apply Z.eqb_neq. intros H0.
    assert (Hc : Z.testbit (Z.land x (2 ^ m)) m = true).
    { rewrite Z.land_spec, Hb, Z.pow2_bits_true by lia. reflexivity. }
    rewrite H0, Z.bits_0 in Hc. discriminate.
  - apply Z.eqb_eq. apply Z.bits_inj'. intros i Hi.
    rewrite Z.land_spec, Z.bits_0, Z.pow2_bits_eqb by lia.
    destruct (Z.eqb_spec m i) as [->|Hne].
    + now rewrite Hb.
    + apply andb_false_r.
Qed.

Lemma len_setbit (d : list byte) (p : Z) :
  0 <= p / 8 < len d -> len (setbit d p) = len d.
Proof. intros H. unfold setbit. apply len_store; rewrite ?len_cons, ?len_nil; lia. Qed.

Lemma bit_setbit_same (d : list byte) (p : Z) :
  0 <= p / 8 < len d -> bit (setbit d p) p = true.
Proof.
  intros H. unfold bit, setbit.
  rewrite index_store_same, byte.unsigned_of_Z by lia.
  unfold byte.wrap.
  assert (Hm : 0 <= p mod 8 < 8) by (apply Z.mod_pos_bound; lia).
  rewrite Z.mod_pow2_bits_low, Z.lor_spec, Z.shiftl_1_l, Z.pow2_bits_true by lia.
  apply orb_true_r.
Qed.

Lemma bit_setbit_mono (d : list byte) (p q : Z) :
  0 <= p / 8 < len d -> 0 <= q -> bit d q = true -> bit (setbit d p) q = true.
Proof.
  intros H Hq Hb. unfold bit, setbit in *.
  assert (Hm : 0 <= q mod 8 < 8) by (apply Z.mod_pos_bound; lia).
  destruct (Z.eq_dec (q / 8) (p / 8)) as [He|Hne].
  - rewrite He in *. rewrite index_store_same, byte.unsigned_of_Z by lia.
    unfold byte.wrap.
    rewrite Z.mod_pow2_bits_low, Z.lor_spec, Hb by lia. reflexivity.
  - rewrite index_store_other; auto.
    apply Z.div_pos; lia.
Qed.

Lemma index_setbit_other (d : list byte) (p t : Z) :
  0 <= p / 8 < len d -> 0 <= t -> t <> p / 8 -> index (setbit d p) t = index d t.
Proof. intros H Ht Hne. unfold setbit. now apply index_store_other. Qed.

Lemma mark_ok (cnt : nat) : forall (d : list byte) (nBits kh delta : Z),
  0 < nBits -> nBits <= 8 * (len d - 1) ->
  exists d', mark cnt d nBits kh delta = Ok d'
    /\ len d' = len d
    /\ index d' (len d - 1) = index d (len d - 1)
    /\ below d d'
    /\ forall d'', below d' d'' -> probe cnt d'' nBits kh delta = Ok true.
Proof.
  induction cnt as [|cnt IH]; intros d nBits kh delta Hpos Hfit.
  - exists d. cbn [mark probe]. repeat split; auto. intros q _ Hq. exact Hq.
  - cbn [mark probe].
    destruct (Z.eqb_spec nBits 0) as [Hz|_]; [lia|].
    set (bitpos := kh mod nBits).
    assert (Hbp : 0 <= bitpos < nBits) by (apply Z.mod_pos_bound; lia).
    assert (Hidx : 0 <= bitpos / 8 < len d - 1).
    { split; [apply Z.div_pos; lia|]. apply Z.div_lt_upper_bound; lia. }
    destruct (IH (setbit d bitpos) nBits (uint32 (kh + delta)) delta Hpos)
      as (d' & Hrun & Hlen & Htr & Hsub & Hprobe).
    { rewrite len_setbit; lia. }
    rewrite len_setbit in * by lia.
    exists d'. split; [exact Hrun|]. split; [exact Hlen|]. split.
    { rewrite Htr. apply index_setbit_other; lia. }
    split.
    { intros q Hq Hb. apply Hsub; auto. apply bit_setbit_mono; auto; lia. }
    intros d'' Hsub'.
    assert (Hset : bit d'' bitpos = true).
    { apply Hsub'; [lia|]. apply Hsub; [lia|]. apply bit_setbit_same; lia. }
    unfold bit in Hset.
    rewrite land_bit_zero, Hset by (apply Z.mod_pos_bound; lia).
    cbn [negb]. now apply Hprobe.
Qed.

Lemma markAll_ok (hs : list Z) : forall (kk : Z) (d : list byte) (nBits : Z),
  0 < nBits -> nBits <= 8 * (len d - 1) ->
  exists d', markAll hs kk d nBits = Ok d'
    /\ len d' = len d
    /\ index d' (len d - 1) = index d (len d - 1)
    /\ below d d'
    /\ forall kh d'', In kh hs -> below d' d'' ->
         probe (Z.to_nat kk) d'' nBits kh (rotate kh) = Ok true.
Proof.
  induction hs as [|kh hs IH]; intros kk d nBits Hpos Hfit.
  - exists d. cbn [markAll]. repeat split; auto.
    + intros q _ Hq. exact Hq.
    + intros ? ? [].
  - cbn [markAll].
    destruct (mark_ok (Z.to_nat kk) d nBits kh (rotate kh) Hpos Hfit)
      as (d1 & Hrun & Hlen & Htr & Hsub & Hprobe).
    rewrite Hrun. cbn [bind].
    destruct (IH kk d1 nBits Hpos) as (d' & Hrun' & Hlen' & Htr' & Hsub' & Hprobe').
    { lia. }
    exists d'. split; [exact Hrun'|]. split; [lia|]. split.
    { rewrite <- Htr, <- Hlen. exact Htr'. }
    split.
    { intros q Hq Hb. apply Hsub'; auto. }
    intros kh' d'' [<-|Hin] Hd''.
    + apply Hprobe. intros q Hq Hb. apply Hd''; auto.
    + now apply Hprobe'.
Qed.

Lemma NewGenerator_k_range (f : bloomFilter) : 1 <= k (NewGenerator f) <= 30.
Proof.
  unfold NewGenerator. cbn [k].
  destruct (Z.ltb_spec (uint8 (Z.quot (int (f * 69)) 100)) 1); [lia|].
  destruct (uint8 (Z.quot (int (f * 69)) 100) >? 30) eqn:E; [lia|].
  rewrite Z.gtb_ltb in E. apply Z.ltb_ge in E. lia.
Qed.

Lemma AddAll_fields (keys : list (list byte)) : forall g,
  n (AddAll g keys) = n g /\ k (AddAll g keys) = k g
  /\ keyHashes (AddAll g keys) = keyHashes g ++ map bloomHash keys.
Proof.
  induction keys as [|key keys IH]; intros g; cbn [AddAll fold_left map].
  - now rewrite app_nil_r.
  - destruct (IH (Add g key)) as (Hn & Hk & Hh). fold (AddAll (Add g key) keys).
    rewrite Hn, Hk, Hh. cbn [Add n k keyHashes]. now rewrite <- app_assoc.
Qed.

(** What [Generate] computes when rounding the bit count up to whole
    bytes stays inside 32 bits. *)
Lemma Generate_ok (g : bloomFilterGenerator) :
  uint32 (len (keyHashes g) * n g) <= 2 ^ 32 - 8 ->
  0 <= k g < 256 ->
  exists filt,
    Generate g = Ok (mkGenerator (n g) (k g) [], filt)
    /\ len filt = (Z.max 64 (uint32 (len (keyHashes g) * n g)) + 7) / 8 + 1
    /\ byte.unsigned (index filt (len filt - 1)) = k g
    /\ forall kh, In kh (keyHashes g) ->
         probe (Z.to_nat (k g)) filt (8 * (len filt - 1)) kh (rotate kh) = Ok true.
Proof.
  intros Hfit Hk. unfold Generate. rewrite uint32_int.
  set (m := uint32 (len (keyHashes g) * n g)) in *.
  assert (Hm : 0 <= m < 2 ^ 32) by (apply Z.mod_pos_bound; lia).
  set (nBits := if m <? 64 then 64 else m).
  assert (HnBits : nBits = Z.max 64 m).
  { unfold nBits. destruct (Z.ltb_spec m 64); lia. }
  assert (Hu : uint32 (nBits + 7) = nBits + 7).
  { unfold uint32. apply Z.mod_small. lia. }
  rewrite Hu. set (nBytes := (nBits + 7) / 8).
  assert (HnBytes : 8 <= nBytes < 2 ^ 29).
  { unfold nBytes. split.
    - apply Z.div_le_lower_bound; lia.
    - apply Z.div_lt_upper_bound; lia. }
  assert (Hu' : uint32 (nBytes * 8) = 8 * nBytes).
  { unfold uint32. rewrite Z.mod_small; lia. }
  rewrite Hu', !int_small by (rewrite ?int_small; lia).
  pose proof (Alloc_len (nBytes + 1) ltac:(lia)) as Hal.
  set (dest := store (Alloc (nBytes + 1)) nBytes [byte.of_Z (k g)]).
  assert (Hdl : len dest = nBytes + 1).
  { unfold dest. rewrite len_store; rewrite ?len_cons, ?len_nil; lia. }
  destruct (markAll_ok (keyHashes g) (k g) dest (8 * nBytes))
    as (d' & Hrun & Hlen & Htr & _ & Hprobe); try lia.
  rewrite Hrun. cbn [bind]. exists d'. split; [reflexivity|].
  rewrite Hlen, Hdl. rewrite Hdl in Htr.
  replace (nBytes + 1 - 1) with nBytes in * by lia.
  split; [rewrite <- HnBits; reflexivity|]. split.
  - rewrite Htr. unfold dest. rewrite index_store_same by lia.
    rewrite byte.unsigned_of_Z. unfold byte.wrap. apply Z.mod_small. lia.
  - intros kh Hin. apply Hprobe; auto. intros q _ Hq. exact Hq.
Qed.

(** ** The bits of a filter *)

(** The bit positions that the loops of [Generate] and of [Contains]
    visit for one hash: [cnt] of them, each [delta] after the one
    before, modulo [2^32] and then modulo [nBits]. *)
Fixpoint positions (cnt : nat) (nBits kh delta : Z) : list Z :=
  match cnt with
  | O => []
  | S cnt' => kh mod nBits :: positions cnt' nBits (uint32 (kh + delta)) delta
  end.

(** The positions of a key in a filter of [nBits] bits probed [kk]
    times. *)
Definition probes (kk nBits : Z) (key : list byte) : list Z :=
  positions (Z.to_nat kk) nBits (bloomHash key) (rotate (bloomHash key)).

Lemma probe_positions (cnt : nat) : forall (filt : list byte) (nBits kh delta : Z),
  0 < nBits ->
  probe cnt filt nBits kh delta = Ok (forallb (bit filt) (positions cnt nBits kh delta)).
Proof.
  induction cnt as [|cnt IH]; intros filt nBits kh delta Hpos; cbn [probe positions forallb].
  - reflexivity.
  - destruct (Z.eqb_spec nBits 0) as [Hz|_]; [lia|].
    rewrite land_bit_zero by (apply Z.mod_pos_bound; lia).
    fold (bit filt (kh mod nBits)).
    destruct (bit filt (kh mod nBits)); cbn [negb andb]; [now apply IH|reflexivity].
Qed.

Lemma positions_range (cnt : nat) : forall (nBits kh delta q : Z),
  0 < nBits -> In q (positions cnt nBits kh delta) -> 0 <= q < nBits.
Proof.
  induction cnt as [|cnt IH]; intros nBits kh delta q Hpos; cbn [positions In].
  - intros [].
  - intros [<-|Hin]; [apply Z.mod_pos_bound; lia|now apply IH in Hin].
Qed.

Lemma bit_setbit (d : list byte) (p q : Z) :
  0 <= p / 8 < len d -> 0 <= q ->
  bit (setbit d p) q = bit d q || (q =? p).
Proof.
  intros H Hq. unfold bit, setbit.
  assert (Hm : 0 <= q mod 8 < 8) by (apply Z.mod_pos_bound; lia).
  pose proof (Z.div_mod p 8 ltac:(lia)) as Hp.
  pose proof (Z.div_mod q 8 ltac:(lia)) as Hq'.
  destruct (Z.eq_dec (q / 8) (p / 8)) as [He|Hne].
  - rewrite He. rewrite index_store_same, byte.unsigned_of_Z by lia.
    unfold byte.wrap.
    rewrite Z.mod_pow2_bits_low, Z.lor_spec, Z.shiftl_1_l, Z.pow2_bits_eqb by
      (try apply Z.mod_pos_bound; lia).
    f_equal.
    destruct (Z.eqb_spec (p mod 8) (q mod 8)), (Z.eqb_spec q p); try reflexivity; lia.
  - rewrite index_store_other by (try apply Z.div_pos; lia).
    destruct (Z.eqb_spec q p) as [->|_]; [contradiction|]. now rewrite orb_false_r.
Qed.

Lemma mark_bits (cnt : nat) : forall (d : list byte) (nBits kh delta : Z),
  0 < nBits -> nBits <= 8 * (len d - 1) ->
  exists d', mark cnt d nBits kh delta = Ok d'
    /\ len d' = len d
    /\ forall q, 0 <= q ->
         bit d' q = bit d q || existsb (Z.eqb q) (positions cnt nBits kh delta).
Proof.
  induction cnt as [|cnt IH]; intros d nBits kh delta Hpos Hfit.
  - exists d. cbn [mark positions existsb]. split; [reflexivity|]. split; [reflexivity|].
    intros q _. now rewrite orb_false_r.
  - cbn [mark positions existsb].
    destruct (Z.eqb_spec nBits 0) as [Hz|_]; [lia|].
    set (bitpos := kh mod nBits).
    assert (Hbp : 0 <= bitpos < nBits) by (apply Z.mod_pos_bound; lia).
    assert (Hidx : 0 <= bitpos / 8 < len d - 1).
    { split; [apply Z.div_pos; lia|]. apply Z.div_lt_upper_bound; lia. }
    destruct (IH (setbit d bitpos) nBits (uint32 (kh + delta)) delta Hpos)
      as (d' & Hrun & Hlen & Hbits).
    { rewrite len_setbit; lia. }
    rewrite len_setbit in * by lia.
    exists d'. split; [exact Hrun|]. split; [exact Hlen|].
    intros q Hq. rewrite Hbits, bit_setbit by lia. now rewrite orb_assoc.
Qed.

Lemma markAll_bits (hs : list Z) : forall (kk : Z) (d : list byte) (nBits : Z),
  0 < nBits -> nBits <= 8 * (len d - 1) ->
  exists d', markAll hs kk d nBits = Ok d'
    /\ len d' = len d
    /\ forall q, 0 <= q ->
         bit d' q
         = bit d q
           || existsb (Z.eqb q)
                (flat_map (fun kh => positions (Z.to_nat kk) nBits kh (rotate kh)) hs).
Proof.
  induction hs as [|kh hs IH]; intros kk d nBits Hpos Hfit.
  - exists d. cbn [markAll flat_map existsb]. split; [reflexivity|]. split; [reflexivity|].
    intros q _. now rewrite orb_false_r.
  - cbn [markAll flat_map].
    destruct (mark_bits (Z.to_nat kk) d nBits kh (rotate kh) Hpos Hfit)
      as (d1 & Hrun & Hlen & Hbits).
    rewrite Hrun. cbn [bind].
    destruct (IH kk d1 nBits Hpos) as (d' & Hrun' & Hlen' & Hbits'); [lia|].
    exists d'. split; [exact Hrun'|]. split; [lia|].
    intros q Hq. rewrite Hbits', Hbits, existsb_app by lia. now rewrite orb_assoc.
Qed.

(** The bits of the filter that [Generate] writes: those that the
    buffer held, and those at the positions of the hashes. *)
Lemma Generate_bits (g : bloomFilterGenerator) :
  uint32 (len (keyHashes g) * n g) <= 2 ^ 32 - 8 ->
  0 <= k g < 256 ->
  exists filt,
    Generate g = Ok (mkGenerator (n g) (k g) [], filt)
    /\ 8 <= len filt - 1 < 2 ^ 29
    /\ len filt = (Z.max 64 (uint32 (len (keyHashes g) * n g)) + 7) / 8 + 1
    /\ byte.unsigned (index filt (len filt - 1)) = k g
    /\ forall q, 0 <= q < 8 * (len filt - 1) ->
         bit filt q
         = bit (Alloc (len filt)) q
           || existsb (Z.eqb q)
                (flat_map (fun kh => positions (Z.to_nat (k g)) (8 * (len filt - 1))
                                       kh (rotate kh))
                   (keyHashes g)).
Proof.
  intros Hfit Hk.
  destruct (Generate_ok g Hfit Hk) as (filt0 & Hgen0 & Hfl0 & Htr0 & _).
  revert Hgen0. unfold Generate. rewrite uint32_int.
  set (m := uint32 (len (keyHashes g) * n g)) in *.
  assert (Hm : 0 <= m < 2 ^ 32) by (apply Z.mod_pos_bound; lia).
  set (nBits := if m <? 64 then 64 else m).
  assert (HnBits : nBits = Z.max 64 m).
  { unfold nBits. destruct (Z.ltb_spec m 64); lia. }
  assert (Hu : uint32 (nBits + 7) = nBits + 7).
  { unfold uint32. apply Z.mod_small. lia. }
  rewrite Hu. set (nBytes := (nBits + 7) / 8).
  assert (HnBytes : 8 <= nBytes < 2 ^ 29).
  { unfold nBytes. split.
    - apply Z.div_le_lower_bound; lia.
    - apply Z.div_lt_upper_bound; lia. }
  assert (Hu' : uint32 (nBytes * 8) = 8 * nBytes).
  { unfold uint32. rewrite Z.mod_small; lia. }
  rewrite Hu', !int_small by (rewrite ?int_small; lia).
  pose proof (Alloc_len (nBytes + 1) ltac:(lia)) as Hal.
  set (dest := store (Alloc (nBytes + 1)) nBytes [byte.of_Z (k g)]).
  assert (Hdl : len dest = nBytes + 1).
  { unfold dest. rewrite len_store; rewrite ?len_cons, ?len_nil; lia. }
  destruct (markAll_bits (keyHashes g) (k g) dest (8 * nBytes))
    as (d' & Hrun & Hlen & Hbits); try lia.
  rewrite Hrun. cbn [bind]. intros Hgen0.
  assert (Hd' : filt0 = d') by congruence. subst filt0.
  exists d'. split; [reflexivity|].
  assert (Hl : len d' - 1 = nBytes) by lia.
  rewrite Hl. split; [exact HnBytes|]. split; [exact Hfl0|].
  split; [rewrite <- Hl; exact Htr0|].
  intros q Hq. rewrite Hbits by lia. f_equal.
  replace (len d') with (nBytes + 1) by lia.
  assert (Hq8 : 0 <= q / 8 < nBytes).
  { split; [apply Z.div_pos; lia|apply Z.div_lt_upper_bound; lia]. }
  unfold bit, dest. rewrite index_store_other by lia. reflexivity.
Qed.

Lemma forallb_ext_in {A : Type} (h h' : A -> bool) (l : list A) :
  (forall a, In a l -> h a = h' a) -> forallb h l = forallb h' l.
Proof.
  induction l as [|a l IH]; intros H; cbn [forallb]; [reflexivity|].
  rewrite (H a (or_introl eq_refl)), IH; [reflexivity|].
  intros b Hb. apply H. now right.
Qed.

Lemma existsb_flat_map_probes (q kk nBits : Z) (keys : list (list byte)) :
  existsb (Z.eqb q)
    (flat_map (fun kh => positions (Z.to_nat kk) nBits kh (rotate kh))
       (map bloomHash keys))
  = existsb (Z.eqb q) (flat_map (probes kk nBits) keys).
Proof.
  induction keys as [|key keys IH]; cbn [map flat_map]; [reflexivity|].
  rewrite !existsb_app, IH. reflexivity.
Qed.

(** What [Contains] computes on a filter of less than [2^29] bytes of
    bits. *)
Lemma Contains_bits (f : bloomFilter) (filt key : list byte) :
  1 <= len filt - 1 < 2 ^ 29 ->
  byte.unsigned (index filt (len filt - 1)) <= 30 ->
  Contains f filt key
  = Ok (forallb (bit filt)
          (probes (byte.unsigned (index filt (len filt - 1)))
             (8 * (len filt - 1)) key)).
Proof.
  intros Hl Hk. unfold Contains, probes.
  destruct (Z.ltb_spec (len filt - 1) 1); [lia|].
  destruct (byte.unsigned (index filt (len filt - 1)) >? 30) eqn:E;
    [rewrite Z.gtb_ltb in E; apply Z.ltb_lt in E; lia|].
  rewrite uint32_int. unfold uint32 at 1. rewrite Z.mod_small by lia.
  rewrite (Z.mul_comm (len filt - 1) 8). apply probe_positions. lia.
Qed.

(** ** The bounds of the filter *)

(** [s[k]] with the check that Go makes at every index: out of range
    is a run-time panic. *)
Definition index_checked (s : list byte) (k : Z) : res byte :=
  if (k <? 0) || (len s <=? k) then Panic "index out of range" else Ok (index s k).

(** The loop of [Contains] and [Contains] itself, every index
    checked. *)
Fixpoint probe_checked (n : nat) (filter : list byte) (nBits kh delta : Z) : res bool :=
  match n with
  | O => Ok true
  | S n' =>
      if nBits =? 0 then Panic "integer divide by zero" else
      let bitpos := kh mod nBits in
      b <- index_checked filter (bitpos / 8) ;;
      if Z.land (byte.unsigned b) (Z.shiftl 1 (bitpos mod 8)) =? 0
      then Ok false
      else probe_checked n' filter nBits (uint32 (kh + delta)) delta
  end.

Definition Contains_checked (f : bloomFilter) (filter key : list byte) : res bool :=
  let nBytes := len filter - 1 in
  if nBytes <? 1 then Ok false else
  let nBits := uint32 (int (nBytes * 8)) in
  b <- index_checked filter nBytes ;;
  let k := byte.unsigned b in
  if k >? 30 then Ok true else
  let kh := bloomHash key in
  let delta := rotate kh in
  probe_checked (Z.to_nat k) filter nBits kh delta.

Lemma index_checked_in (s : list byte) (i : Z) :
  0 <= i < len s -> index_checked s i = Ok (index s i).
Proof.
  intros H. unfold index_checked.
  destruct (Z.ltb_spec i 0); [lia|]. destruct (Z.leb_spec (len s) i); [lia|].
  reflexivity.
Qed.

Lemma probe_checked_in (cnt : nat) : forall (filt : list byte) (nBits kh delta : Z),
  0 < nBits <= 8 * len filt ->
  probe_checked cnt filt nBits kh delta = probe cnt filt nBits kh delta.
Proof.
  induction cnt as [|cnt IH]; intros filt nBits kh delta Hn; cbn [probe_checked probe].
  - reflexivity.
  - destruct (Z.eqb_spec nBits 0) as [Hz|_]; [lia|].
    assert (Hbp : 0 <= kh mod nBits < nBits) by (apply Z.mod_pos_bound; lia).
    rewrite index_checked_in.
    + cbn [bind]. rewrite IH by exact Hn. reflexivity.
    + split; [apply Z.div_pos; lia|apply Z.div_lt_upper_bound; lia].
Qed.

(** X10: on a filter of at most [2^29] bytes [Contains] returns an
    answer, whatever the bytes and the key are: with the check of
    every index written out, no probe divides by zero and none reads
    outside the filter.  The answer is the one that [Contains] gives
    with the checks left out. *)
Theorem Contains_returns (f : bloomFilter) (filter key : list byte) :
  len filter <= 2 ^ 29 ->
  exists b, Contains_checked f filter key = Ok b /\ Contains f filter key = Ok b.
Proof.
  intros Hl. unfold Contains_checked, Contains.
  destruct (Z.ltb_spec (len filter - 1) 1); [now exists false|].
  rewrite index_checked_in by lia. cbn [bind].
  destruct (byte.unsigned (index filter (len filter - 1)) >? 30); [now exists true|].
  rewrite uint32_int. unfold uint32 at 1 2. rewrite Z.mod_small by lia.
  rewrite probe_checked_in by lia.
  rewrite probe_positions by lia. eexists. split; reflexivity.
Qed.

(** X11: the answers of [Contains] on a generated filter, exactly.
    When the bit count [uint32(n * bits_per_key)] is at most
    [2^32 - 8], [Contains] is true for a key exactly when each of the
    [k] positions probed for it is a bit the buffer held already or a
    position probed for one of the added keys. *)
Theorem Contains_exactly (f : bloomFilter) (keys : list (list byte)) :
  uint32 (len keys * f) <= 2 ^ 32 - 8 ->
  exists g' filt,
    Generate (AddAll (NewGenerator f) keys) = Ok (g', filt)
    /\ forall key,
         let kk := k (NewGenerator f) in
         let nBits := 8 * (len filt - 1) in
         Contains f filt key
         = Ok (forallb
                 (fun q => bit (Alloc (len filt)) q
                           || existsb (Z.eqb q) (flat_map (probes kk nBits) keys))
                 (probes kk nBits key)).
Proof.
  intros Hfit.
  destruct (AddAll_fields keys (NewGenerator f)) as (Hn & Hk & Hh).
  pose proof (NewGenerator_k_range f) as Hkr.
  set (g := AddAll (NewGenerator f) keys) in *.
  cbn [keyHashes NewGenerator n app] in Hh, Hn.
  assert (Hlen : len (keyHashes g) = len keys).
  { rewrite Hh. unfold len. now rewrite length_map. }
  destruct (Generate_bits g) as (filt & Hgen & Hnb & _ & Htr & Hbits).
  { rewrite Hlen, Hn. exact Hfit. }
  { lia. }
  exists (mkGenerator (n g) (k g) []), filt. split; [exact Hgen|].
  intros key kk nBits. rewrite Contains_bits by lia.
  rewrite Htr, Hk. fold kk. fold nBits. f_equal.
  apply forallb_ext_in. intros q Hq.
  apply positions_range in Hq; [|unfold nBits; lia].
  rewrite Hbits by exact Hq. rewrite Hh, Hk. fold kk. fold nBits.
  now rewrite existsb_flat_map_probes.
Qed.

(** Two bytes with the same bits are the same byte. *)
Lemma byte_bits (a b : byte) :
  (forall m, 0 <= m < 8 -> Z.testbit (byte.unsigned a) m = Z.testbit (byte.unsigned b) m) ->
  a = b.
Proof.
  intros H. apply byte.unsigned_inj. apply Z.bits_inj'. intros m Hm.
  destruct (Z_lt_le_dec m 8) as [Hlt|Hge]; [apply H; lia|].
  pose proof (byte.unsigned_range a) as Ha. pose proof (byte.unsigned_range b) as Hb.
  rewrite <- (Z.mod_small (byte.unsigned a) (2 ^ 8)), <- (Z.mod_small (byte.unsigned b) (2 ^ 8))
    by lia.
  now rewrite !Z.mod_pow2_bits_high by lia.
Qed.

Lemma existsb_Permutation (q : Z) (l l' : list Z) :
  Permutation l l' -> existsb (Z.eqb q) l = existsb (Z.eqb q) l'.
Proof.
  intros HP. induction HP; cbn [existsb]; try congruence.
  destruct (q =? x), (q =? y); reflexivity.
Qed.

Lemma flat_map_Permutation {A B : Type} (h : A -> list B) (l l' : list A) :
  Permutation l l' -> Permutation (flat_map h l) (flat_map h l').
Proof.
  intros HP. induction HP; cbn [flat_map].
  - constructor.
  - now apply Permutation_app_head.
  - rewrite !app_assoc. apply Permutation_app_tail, Permutation_app_comm.
  - etransitivity; eassumption.
Qed.

(** X12: the filter does not depend on the order in which the keys
    were added.  When the bit count [uint32(n * bits_per_key)] is at
    most [2^32 - 8], adding the same keys in another order and
    generating into the same buffer gives the same bytes. *)
Theorem Generate_any_order (f : bloomFilter) (keys keys' : list (list byte)) :
  Permutation keys keys' ->
  uint32 (len keys * f) <= 2 ^ 32 - 8 ->
  exists g' filt,
    Generate (AddAll (NewGenerator f) keys) = Ok (g', filt)
    /\ Generate (AddAll (NewGenerator f) keys') = Ok (g', filt).
Proof.
  intros HP Hfit.
  assert (HL : len keys' = len keys).
  { unfold len. now rewrite (Permutation_length HP). }
  destruct (AddAll_fields keys (NewGenerator f)) as (Hn & Hk & Hh).
  destruct (AddAll_fields keys' (NewGenerator f)) as (Hn' & Hk' & Hh').
  pose proof (NewGenerator_k_range f) as Hkr.
  set (g := AddAll (NewGenerator f) keys) in *.
  set (g1 := AddAll (NewGenerator f) keys') in *.
  cbn [keyHashes NewGenerator n app] in Hh, Hn, Hh', Hn'.
  assert (Hlen : len (keyHashes g) = len keys).
  { rewrite Hh. unfold len. now rewrite length_map. }
  assert (Hlen' : len (keyHashes g1) = len keys).
  { rewrite Hh', <- HL. unfold len. now rewrite length_map. }
  destruct (Generate_bits g) as (filt & Hgen & Hnb & Hfl & Htr & Hbits).
  { rewrite Hlen, Hn. exact Hfit. }
  { lia. }
  destruct (Generate_bits g1) as (filt' & Hgen' & Hnb' & Hfl' & Htr' & Hbits').
  { rewrite Hlen', Hn'. exact Hfit. }
  { lia. }
  rewrite Hlen', Hn' in Hfl'. rewrite Hlen, Hn in Hfl.
  assert (Hll : len filt' = len filt) by congruence.
  exists (mkGenerator (n g) (k g) []), filt. split; [exact Hgen|].
  rewrite Hgen'. rewrite Hn, Hn', Hk, Hk'. f_equal. f_equal.
  apply (nth_ext _ _ Byte.x00 Byte.x00); [unfold len in Hll; lia|].
  intros i Hi.
  assert (Hi' : 0 <= Z.of_nat i < len filt) by (unfold len in *; lia).
  replace i with (Z.to_nat (Z.of_nat i)) by lia.
  fold (index filt' (Z.of_nat i)). fold (index filt (Z.of_nat i)).
  destruct (Z.eq_dec (Z.of_nat i) (len filt - 1)) as [He|Hne].
  - apply byte.unsigned_inj. rewrite He at 2. rewrite Htr.
    rewrite He, <- Hll, Htr'. congruence.
  - apply byte_bits. intros m Hm.
    set (q := 8 * Z.of_nat i + m).
    assert (Hq8 : q / 8 = Z.of_nat i).
    { unfold q. rewrite Z.mul_comm, Z.div_add_l by lia.
      rewrite Z.div_small by lia. lia. }
    assert (Hqm : q mod 8 = m).
    { unfold q. rewrite Z.add_comm, Z.mul_comm, Z.mod_add by lia.
      apply Z.mod_small. lia. }
    assert (Hq : 0 <= q < 8 * (len filt - 1)) by (unfold q; lia).
    pose proof (Hbits q Hq) as B. pose proof (Hbits' q ltac:(lia)) as B'.
    unfold bit at 1 in B. unfold bit at 1 in B'. rewrite Hq8, Hqm in B, B'.
    rewrite B, B', Hll, Hk, Hk'. f_equal.
    apply existsb_Permutation. rewrite Hh, Hh'.
    apply flat_map_Permutation, Permutation_map, Permutation_sym, HP.
Qed.

End Filter.

(** A stand-in hash and a buffer that hands out zeroed bytes, to run
    the definitions on concrete inputs. *)
Definition sampleHash (key : list byte) (seed : Z) : Z :=
  fold_left (fun h b => uint32 (h * 31 + byte.unsigned b)) key (uint32 seed).
Definition zeroAlloc (n : Z) : list byte := zeros n.

Lemma zeroAlloc_len (n : Z) : 0 <= n -> len (zeroAlloc n) = n.
Proof. apply len_zeros. Qed.

(** C3, as stated, fails: with [bits_per_key = -1] and one key the bit
    count [uint32(1 * -1)] is [2^32 - 1], rounding it up to bytes wraps
    to zero bytes, and the first probe divides by zero. *)
Lemma Generate_negative_bits_panics :
  Generate zeroAlloc (AddAll sampleHash (NewGenerator (-1)) [[Byte.x61]])
  = Panic "integer divide by zero".
Proof. vm_compute. reflexivity. Qed.

(** C3, amended: when the bit count [uint32(n * bits_per_key)] is at
    most [2^32 - 8], [Generate] returns a filter and [Contains] is true
    on it for every key that was added. *)
Theorem Contains_added_key
  (Hash : list byte -> Z -> Z) (Alloc : Z -> list byte)
  (Alloc_len : forall n, 0 <= n -> len (Alloc n) = n)
  (f : bloomFilter) (keys : list (list byte)) :
  uint32 (len keys * f) <= 2 ^ 32 - 8 ->
  exists g' filt,
    Generate Alloc (AddAll Hash (NewGenerator f) keys) = Ok (g', filt)
    /\ forall key, In key keys -> Contains Hash f filt key = Ok true.
Proof.
  intros Hfit.
  destruct (AddAll_fields Hash keys (NewGenerator f)) as (Hn & Hk & Hh).
  pose proof (NewGenerator_k_range f) as Hkr.
  set (g := AddAll Hash (NewGenerator f) keys) in *.
  cbn [keyHashes NewGenerator n app] in Hh, Hn.
  assert (Hlen : len (keyHashes g) = len keys).
  { rewrite Hh. unfold len. now rewrite length_map. }
  assert (Hfit' : uint32 (len (keyHashes g) * n g) <= 2 ^ 32 - 8).
  { rewrite Hlen, Hn. exact Hfit. }
  destruct (Generate_ok Alloc Alloc_len g) as (filt & Hgen & Hfl & Htr & Hprobe).
  { exact Hfit'. }
  { lia. }
  exists (mkGenerator (n g) (k g) []), filt. split; [exact Hgen|].
  intros key Hin. unfold Contains.
  assert (Hm : 0 <= uint32 (len (keyHashes g) * n g) < 2 ^ 32)
    by (apply Z.mod_pos_bound; lia).
  assert (Hnb : 8 <= len filt - 1 < 2 ^ 29).
  { rewrite Hfl. split.
    - assert (8 <= (Z.max 64 (uint32 (len (keyHashes g) * n g)) + 7) / 8)
        by (apply Z.div_le_lower_bound; lia). lia.
    - assert ((Z.max 64 (uint32 (len (keyHashes g) * n g)) + 7) / 8 < 2 ^ 29)
        by (apply Z.div_lt_upper_bound; lia). lia. }
  destruct (Z.ltb_spec (len filt - 1) 1); [lia|].
  rewrite Htr, Hk.
  destruct (k (NewGenerator f) >? 30) eqn:E; [rewrite Z.gtb_ltb in E; apply Z.ltb_lt in E; lia|].
  rewrite uint32_int. unfold uint32 at 1. rewrite Z.mod_small by lia.
  rewrite <- Hk. rewrite Z.mul_comm. apply Hprobe.
  rewrite Hh. apply in_map. exact Hin.
Qed.

Lemma Contains_added_key_witness :
  uint32 (len [[Byte.x61]; [Byte.x62; Byte.x63]] * 10) <= 2 ^ 32 - 8
  /\ exists g' filt,
       Generate zeroAlloc
         (AddAll sampleHash (NewGenerator 10) [[Byte.x61]; [Byte.x62; Byte.x63]])
       = Ok (g', filt)
       /\ forall key, In key [[Byte.x61]; [Byte.x62; Byte.x63]] ->
            Contains sampleHash 10 filt key = Ok true.
Proof.
  assert (H : uint32 (len [[Byte.x61]; [Byte.x62; Byte.x63]] * 10) <= 2 ^ 32 - 8)
    by (vm_compute; discriminate).
  split; [exact H|].
  exact (Contains_added_key sampleHash zeroAlloc zeroAlloc_len 10
           [[Byte.x61]; [Byte.x62; Byte.x63]] H).
Defined.

(** C4, as stated, fails: [NewGenerator] rounds down.  For
    [bits_per_key = 10] it takes [k = 6], and the nearest integer to
    [10 * 0.69 = 6.9] is 7. *)
Lemma NewGenerator_rounds_down :
  k (NewGenerator 10) = 6 /\ spec_k 10 = 7.
Proof. split; vm_compute; reflexivity. Qed.

(** C4, amended: for [0 <= bits_per_key <= 371], [NewGenerator] takes
    [k = clamp(floor(bits_per_key * 69 / 100), 1, 30)]. *)
Theorem NewGenerator_k_floor (f : bloomFilter) :
  0 <= f <= 371 ->
  k (NewGenerator f) = clamp (f * 69 / 100) 1 30.
Proof.
  intros Hf. unfold NewGenerator, clamp. cbn [k].
  rewrite int_small by lia.
  rewrite Z.quot_div_nonneg by lia.
  assert (Hq : 0 <= f * 69 / 100 < 256).
  { split; [apply Z.div_pos; lia|apply Z.div_lt_upper_bound; lia]. }
  unfold uint8. rewrite Z.mod_small by lia.
  destruct (Z.ltb_spec (f * 69 / 100) 1); [lia|].
  destruct (f * 69 / 100 >? 30) eqn:E; rewrite Z.gtb_ltb in E.
  - apply Z.ltb_lt in E. lia.
  - apply Z.ltb_ge in E. lia.
Qed.

Lemma NewGenerator_k_floor_witness :
  0 <= 10 <= 371 /\ k (NewGenerator 10) = clamp (10 * 69 / 100) 1 30.
Proof.
  assert (H : 0 <= 10 <= 371) by lia.
  split; [exact H|]. exact (NewGenerator_k_floor 10 H).
Defined.

(** C9, as stated, fails: the bit count is held in 32 bits.  Four keys
    at [bits_per_key = 2^30] give [uint32(4 * 2^30) = 0] bits, raised to
    64: the filter is 9 bytes long, not [ceil(2^32 / 8) + 1]. *)
Lemma Generate_len_wraps :
  exists g' filt,
    Generate zeroAlloc
      (AddAll sampleHash (NewGenerator (2 ^ 30))
         [[Byte.x61]; [Byte.x62]; [Byte.x63]; [Byte.x64]]) = Ok (g', filt)
    /\ len filt = 9
    /\ spec_len 4 (2 ^ 30) = 536870913.
Proof. eexists. eexists. vm_compute. repeat split; reflexivity. Qed.

(** C9, amended: for [n] keys and [bits_per_key = b] with
    [0 <= n * b <= 2^32 - 8], [Generate] emits exactly
    [ceil(max(64, n*b)/8) + 1] bytes, the last of which is [k]. *)
Theorem Generate_len
  (Hash : list byte -> Z -> Z) (Alloc : Z -> list byte)
  (Alloc_len : forall n, 0 <= n -> len (Alloc n) = n)
  (f : bloomFilter) (keys : list (list byte)) :
  0 <= len keys * f <= 2 ^ 32 - 8 ->
  exists g' filt,
    Generate Alloc (AddAll Hash (NewGenerator f) keys) = Ok (g', filt)
    /\ len filt = spec_len (len keys) f
    /\ byte.unsigned (index filt (len filt - 1)) = k (NewGenerator f).
Proof.
  intros Hfit.
  destruct (AddAll_fields Hash keys (NewGenerator f)) as (Hn & Hk & Hh).
  pose proof (NewGenerator_k_range f) as Hkr.
  set (g := AddAll Hash (NewGenerator f) keys) in *.
  cbn [keyHashes NewGenerator n app] in Hh, Hn.
  assert (Hlen : len (keyHashes g) = len keys).
  { rewrite Hh. unfold len. now rewrite length_map. }
  assert (Hu : uint32 (len (keyHashes g) * n g) = len keys * f).
  { rewrite Hlen, Hn. unfold uint32. apply Z.mod_small. lia. }
  destruct (Generate_ok Alloc Alloc_len g) as (filt & Hgen & Hfl & Htr & _).
  { rewrite Hu. lia. }
  { lia. }
  exists (mkGenerator (n g) (k g) []), filt.
  split; [exact Hgen|]. split.
  - rewrite Hfl, Hu. reflexivity.
  - rewrite Htr. exact Hk.
Qed.

Lemma Generate_len_witness :
  0 <= len [[Byte.x61]; [Byte.x62; Byte.x63]] * 10 <= 2 ^ 32 - 8
  /\ exists g' filt,
       Generate zeroAlloc
         (AddAll sampleHash (NewGenerator 10) [[Byte.x61]; [Byte.x62; Byte.x63]])
       = Ok (g', filt)
       /\ len filt = spec_len (len [[Byte.x61]; [Byte.x62; Byte.x63]]) 10
       /\ byte.unsigned (index filt (len filt - 1)) = k (NewGenerator 10).
Proof.
  assert (H : 0 <= len [[Byte.x61]; [Byte.x62; Byte.x63]] * 10 <= 2 ^ 32 - 8)
    by (vm_compute; split; discriminate).
  split; [exact H|].
  exact (Generate_len sampleHash zeroAlloc zeroAlloc_len 10
           [[Byte.x61]; [Byte.x62; Byte.x63]] H).
Defined.

(** C10: on a filter of at least two bytes whose trailer byte is 0,
    [Contains] runs no probe and returns true for every key; and no
    generator made by [NewGenerator] has [k = 0], its [k] being clamped
    to [1..30]. *)
Theorem Contains_zero_probes
  (Hash : list byte -> Z -> Z) (f : bloomFilter) (filter key : list byte) :
  2 <= len filter ->
  index filter (len filter - 1) = Byte.x00 ->
  Contains Hash f filter key = Ok true
  /\ forall f', 1 <= k (NewGenerator f') <= 30.
Proof.
  intros Hlen Htr. split; [|apply NewGenerator_k_range].
  unfold Contains.
  destruct (Z.ltb_spec (len filter - 1) 1); [lia|].
  rewrite Htr. reflexivity.
Qed.

Lemma Contains_zero_probes_witness :
  2 <= len [Byte.x00; Byte.x00]
  /\ index [Byte.x00; Byte.x00] (len [Byte.x00; Byte.x00] - 1) = Byte.x00
  /\ Contains sampleHash 10 [Byte.x00; Byte.x00] [Byte.x61] = Ok true
  /\ forall f', 1 <= k (NewGenerator f') <= 30.
Proof.
  assert (H1 : 2 <= len [Byte.x00; Byte.x00]) by (vm_compute; discriminate).
  assert (H2 : index [Byte.x00; Byte.x00] (len [Byte.x00; Byte.x00] - 1) = Byte.x00)
    by reflexivity.
  split; [exact H1|]. split; [exact H2|].
  exact (Contains_zero_probes sampleHash 10 [Byte.x00; Byte.x00] [Byte.x61] H1 H2).
Defined.

(** ** Further properties of the filter *)

(** A filter of two bytes of bits, probed three times. *)
Lemma Contains_returns_witness :
  len [Byte.xff; Byte.x01; Byte.x03] <= 2 ^ 29
  /\ exists b,
       Contains_checked sampleHash 10 [Byte.xff; Byte.x01; Byte.x03] [Byte.x61] = Ok b
       /\ Contains sampleHash 10 [Byte.xff; Byte.x01; Byte.x03] [Byte.x61] = Ok b.
Proof.
  assert (H : len [Byte.xff; Byte.x01; Byte.x03] <= 2 ^ 29)
    by (vm_compute; discriminate).
  split; [exact H|].
  exact (Contains_returns sampleHash 10 [Byte.xff; Byte.x01; Byte.x03] [Byte.x61] H).
Defined.

Lemma Contains_exactly_witness :
  uint32 (len [[Byte.x61]; [Byte.x62; Byte.x63]] * 10) <= 2 ^ 32 - 8
  /\ exists g' filt,
       Generate zeroAlloc
         (AddAll sampleHash (NewGenerator 10) [[Byte.x61]; [Byte.x62; Byte.x63]])
       = Ok (g', filt)
       /\ forall key,
            let kk := k (NewGenerator 10) in
            let nBits := 8 * (len filt - 1) in
            Contains sampleHash 10 filt key
            = Ok (forallb
                    (fun q => bit (zeroAlloc (len filt)) q
                              || existsb (Z.eqb q)
                                   (flat_map (probes sampleHash kk nBits)
                                      [[Byte.x61]; [Byte.x62; Byte.x63]]))
                    (probes sampleHash kk nBits key)).
Proof.
  assert (H : uint32 (len [[Byte.x61]; [Byte.x62; Byte.x63]] * 10) <= 2 ^ 32 - 8)
    by (vm_compute; discriminate).
  split; [exact H|].
  exact (Contains_exactly sampleHash zeroAlloc zeroAlloc_len 10
           [[Byte.x61]; [Byte.x62; Byte.x63]] H).
Defined.

Lemma Generate_any_order_witness :
  Permutation [[Byte.x61]; [Byte.x62; Byte.x63]] [[Byte.x62; Byte.x63]; [Byte.x61]]
  /\ uint32 (len [[Byte.x61]; [Byte.x62; Byte.x63]] * 10) <= 2 ^ 32 - 8
  /\ exists g' filt,
       Generate zeroAlloc
         (AddAll sampleHash (NewGenerator 10) [[Byte.x61]; [Byte.x62; Byte.x63]])
       = Ok (g', filt)
       /\ Generate zeroAlloc
            (AddAll sampleHash (NewGenerator 10) [[Byte.x62; Byte.x63]; [Byte.x61]])
          = Ok (g', filt).
Proof.
  assert (P : Permutation [[Byte.x61]; [Byte.x62; Byte.x63]]
                [[Byte.x62; Byte.x63]; [Byte.x61]]) by apply perm_swap.
  assert (H : uint32 (len [[Byte.x61]; [Byte.x62; Byte.x63]] * 10) <= 2 ^ 32 - 8)
    by (vm_compute; discriminate).
  split; [exact P|]. split; [exact H|].
  exact (Generate_any_order sampleHash zeroAlloc zeroAlloc_len 10
           [[Byte.x61]; [Byte.x62; Byte.x63]] [[Byte.x62; Byte.x63]; [Byte.x61]] P H).
Defined.

Lemma index_zeros (n i : Z) : index (zeros n) i = Byte.x00.
Proof. unfold index, zeros. apply nth_repeat. Qed.

(** X13: [Generate] empties the generator.  The generator it returns,
    asked at once for another filter in a buffer that hands out nine
    zero bytes, writes the nine bytes of a filter with no key: no bit
    of the keys of the filter before is in it, and [Contains] is false
    on it for every key. *)
Theorem Generate_starts_anew
  (Hash : list byte -> Z -> Z) (Alloc Alloc' : Z -> list byte)
  (f : bloomFilter) (keys : list (list byte))
  (g' : bloomFilterGenerator) (filt : list byte) :
  Generate Alloc (AddAll Hash (NewGenerator f) keys) = Ok (g', filt) ->
  Alloc' 9 = zeros 9 ->
  exists filt',
    Generate Alloc' g' = Ok (g', filt')
    /\ len filt' = 9
    /\ forall key, Contains Hash f filt' key = Ok false.
Proof.
  intros Hgen Hz.
  destruct (AddAll_fields Hash keys (NewGenerator f)) as (_ & Hk & _).
  pose proof (NewGenerator_k_range f) as Hkr.
  set (g := AddAll Hash (NewGenerator f) keys) in *.
  unfold Generate in Hgen.
  destruct (markAll _ _ _ _) as [d'| |]; cbn [bind] in Hgen; try discriminate.
  assert (Hg' : g' = mkGenerator (n g) (k g) []) by congruence.
  subst g'. clear Hgen.
  set (kk := k g) in *.
  set (filt' := store (zeros 9) 8 [byte.of_Z kk]).
  assert (Hrun : Generate Alloc' (mkGenerator (n g) kk []) = Ok (mkGenerator (n g) kk [], filt')).
  { unfold Generate. cbn [keyHashes n k].
    change (len (@nil Z) * n g) with 0.
    change (int (int (uint32 ((if uint32 (int 0) <? 64 then 64 else uint32 (int 0)) + 7) / 8)
                 + 1)) with 9.
    change (uint32 ((if uint32 (int 0) <? 64 then 64 else uint32 (int 0)) + 7) / 8) with 8.
    rewrite Hz. reflexivity. }
  assert (Hl : len filt' = 9) by reflexivity.
  assert (Htr : byte.unsigned (index filt' (len filt' - 1)) = kk).
  { rewrite Hl. unfold filt'. change (9 - 1) with 8.
    rewrite index_store_same by (rewrite len_zeros; lia).
    rewrite byte.unsigned_of_Z. unfold byte.wrap. apply Z.mod_small. lia. }
  exists filt'. split; [exact Hrun|]. split; [exact Hl|].
  intros key. rewrite Contains_bits by (rewrite ?Htr, ?Hl; lia).
  rewrite Htr, Hl. unfold probes.
  destruct (Z.to_nat kk) as [|cnt] eqn:Ek; [lia|].
  cbn [positions forallb].
  set (q := bloomHash Hash key mod (8 * (9 - 1))).
  assert (Hq : 0 <= q < 64) by (apply Z.mod_pos_bound; lia).
  assert (Hq8 : 0 <= q / 8 < 8).
  { split; [apply Z.div_pos; lia|apply Z.div_lt_upper_bound; lia]. }
  replace (bit filt' q) with false; [reflexivity|].
  unfold bit, filt'. rewrite index_store_other by (rewrite ?len_zeros; lia).
  rewrite index_zeros. symmetry. apply Z.bits_0.
Qed.

Definition sampleGenerated : bloomFilterGenerator * list byte :=
  Eval vm_compute in
    match Generate zeroAlloc (AddAll sampleHash (NewGenerator 10) [[Byte.x61]]) with
    | Ok a => a
    | _ => (NewGenerator 0, [])
    end.

Lemma Generate_starts_anew_witness :
  Generate zeroAlloc (AddAll sampleHash (NewGenerator 10) [[Byte.x61]])
  = Ok (fst sampleGenerated, snd sampleGenerated)
  /\ zeroAlloc 9 = zeros 9
  /\ exists filt',
       Generate zeroAlloc (fst sampleGenerated) = Ok (fst sampleGenerated, filt')
       /\ len filt' = 9
       /\ forall key, Contains sampleHash 10 filt' key = Ok false.
Proof.
  assert (H : Generate zeroAlloc (AddAll sampleHash (NewGenerator 10) [[Byte.x61]])
              = Ok (fst sampleGenerated, snd sampleGenerated))
    by (vm_compute; reflexivity).
  assert (Hz : zeroAlloc 9 = zeros 9) by reflexivity.
  split; [exact H|]. split; [exact Hz|].
  exact (Generate_starts_anew sampleHash zeroAlloc zeroAlloc 10 [[Byte.x61]]
           (fst sampleGenerated) (snd sampleGenerated) H Hz).
Defined.

End Bloom.

(** * The journal ([leveldb/journal/journal.go]) *)

Module Journal.

Definition fullChunkType : Z := 1.
Definition firstChunkType : Z := 2.
Definition middleChunkType : Z := 3.
Definition lastChunkType : Z := 4.

Definition blockSize : Z := 32 * 1024.
Definition headerSize : Z := 7.

Record ErrCorrupted : Type := mkErrCorrupted {
  Size : Z;
  Reason : string
}.

(** The error values of the package.  [errors.New] makes a value of
    its own at every call; [errSkip] is the package variable, compared
    by identity. *)
Inductive error : Type :=
| EOF
| ErrUnexpectedEOF
| errSkip
| New (msg : string)
| NewErrCorrupted (e : ErrCorrupted).

Definition is_errSkip (e : error) : bool :=
  match e with errSkip => true | _ => false end.

(** ** State *)

(** The underlying [io.Reader] is a byte source held in memory: [r] is
    what it has not handed out yet, and its only error is the end of
    the bytes.  The dropper, when there is one, is the list of the
    errors it was given.  The cursors [i], [j] and [n] stay within the
    buffer, so that their arithmetic never wraps. *)
Record Reader : Type := mkReader {
  r_r : list byte;
  r_dropper : option (list ErrCorrupted);
  r_strict : bool;
  r_checksum : bool;
  r_seq : Z;
  r_i : Z;
  r_j : Z;
  r_n : Z;
  r_last : bool;
  r_err : option error;
  r_buf : list byte
}.

Definition r_set_r (r : Reader) (v : list byte) : Reader :=
  mkReader v (r_dropper r) (r_strict r) (r_checksum r) (r_seq r) (r_i r) (r_j r)
    (r_n r) (r_last r) (r_err r) (r_buf r).
Definition r_set_dropper (r : Reader) (v : option (list ErrCorrupted)) : Reader :=
  mkReader (r_r r) v (r_strict r) (r_checksum r) (r_seq r) (r_i r) (r_j r)
    (r_n r) (r_last r) (r_err r) (r_buf r).
Definition r_set_seq (r : Reader) (v : Z) : Reader :=
  mkReader (r_r r) (r_dropper r) (r_strict r) (r_checksum r) v (r_i r) (r_j r)
    (r_n r) (r_last r) (r_err r) (r_buf r).
Definition r_set_i (r : Reader) (v : Z) : Reader :=
  mkReader (r_r r) (r_dropper r) (r_strict r) (r_checksum r) (r_seq r) v (r_j r)
    (r_n r) (r_last r) (r_err r) (r_buf r).
Definition r_set_j (r : Reader) (v : Z) : Reader :=
  mkReader (r_r r) (r_dropper r) (r_strict r) (r_checksum r) (r_seq r) (r_i r) v
    (r_n r) (r_last r) (r_err r) (r_buf r).
Definition r_set_n (r : Reader) (v : Z) : Reader :=
  mkReader (r_r r) (r_dropper r) (r_strict r) (r_checksum r) (r_seq r) (r_i r) (r_j r)
    v (r_last r) (r_err r) (r_buf r).
Definition r_set_last (r : Reader) (v : bool) : Reader :=
  mkReader (r_r r) (r_dropper r) (r_strict r) (r_checksum r) (r_seq r) (r_i r) (r_j r)
    (r_n r) v (r_err r) (r_buf r).
Definition r_set_err (r : Reader) (v : option error) : Reader :=
  mkReader (r_r r) (r_dropper r) (r_strict r) (r_checksum r) (r_seq r) (r_i r) (r_j r)
    (r_n r) (r_last r) v (r_buf r).
Definition r_set_buf (r : Reader) (v : list byte) : Reader :=
  mkReader (r_r r) (r_dropper r) (r_strict r) (r_checksum r) (r_seq r) (r_i r) (r_j r)
    (r_n r) (r_last r) (r_err r) v.

Record singleReader : Type := mkSingleReader {
  x_seq : Z;
  x_err : option error
}.

(** The underlying [io.Writer] is a byte sink held in memory: [w] is
    what it was given so far, and writing to it does not fail.  [f]
    tells whether it is a flusher; flushing it does nothing. *)
Record Writer : Type := mkWriter {
  w_w : list byte;
  w_seq : Z;
  w_f : bool;
  w_i : Z;
  w_j : Z;
  w_written : Z;
  w_first : bool;
  w_pending : bool;
  w_err : option error;
  w_buf : list byte
}.

Definition w_set_w (w : Writer) (v : list byte) : Writer :=
  mkWriter v (w_seq w) (w_f w) (w_i w) (w_j w) (w_written w) (w_first w)
    (w_pending w) (w_err w) (w_buf w).
Definition w_set_seq (w : Writer) (v : Z) : Writer :=
  mkWriter (w_w w) v (w_f w) (w_i w) (w_j w) (w_written w) (w_first w)
    (w_pending w) (w_err w) (w_buf w).
Definition w_set_i (w : Writer) (v : Z) : Writer :=
  mkWriter (w_w w) (w_seq w) (w_f w) v (w_j w) (w_written w) (w_first w)
    (w_pending w) (w_err w) (w_buf w).
Definition w_set_j (w : Writer) (v : Z) : Writer :=
  mkWriter (w_w w) (w_seq w) (w_f w) (w_i w) v (w_written w) (w_first w)
    (w_pending w) (w_err w) (w_buf w).
Definition w_set_written (w : Writer) (v : Z) : Writer :=
  mkWriter (w_w w) (w_seq w) (w_f w) (w_i w) (w_j w) v (w_first w)
    (w_pending w) (w_err w) (w_buf w).
Definition w_set_first (w : Writer) (v : bool) : Writer :=
  mkWriter (w_w w) (w_seq w) (w_f w) (w_i w) (w_j w) (w_written w) v
    (w_pending w) (w_err w) (w_buf w).
Definition w_set_pending (w : Writer) (v : bool) : Writer :=
  mkWriter (w_w w) (w_seq w) (w_f w) (w_i w) (w_j w) (w_written w) (w_first w)
    v (w_err w) (w_buf w).
Definition w_set_err (w : Writer) (v : option error) : Writer :=
  mkWriter (w_w w) (w_seq w) (w_f w) (w_i w) (w_j w) (w_written w) (w_first w)
    (w_pending w) v (w_buf w).
Definition w_set_buf (w : Writer) (v : list byte) : Writer :=
  mkWriter (w_w w) (w_seq w) (w_f w) (w_i w) (w_j w) (w_written w) (w_first w)
    (w_pending w) (w_err w) v.

Record singleWriter : Type := mkSingleWriter {
  y_seq : Z
}.

(** Simplification of the fields of an updated state, and of nothing
    else: [simpl_r] and [simpl_w] where the state is a variable,
    [flat_r] and [flat_w] once it is taken apart. *)
Ltac simpl_r :=
  cbn [r_r r_dropper r_strict r_checksum r_seq r_i r_j r_n r_last r_err r_buf
       r_set_r r_set_dropper r_set_seq r_set_i r_set_j r_set_n r_set_last
       r_set_err r_set_buf x_seq x_err fst snd].
Ltac simpl_w :=
  cbn [w_w w_seq w_f w_i w_j w_written w_first w_pending w_err w_buf
       w_set_w w_set_seq w_set_i w_set_j w_set_written w_set_first
       w_set_pending w_set_err w_set_buf y_seq fst snd].
Tactic Notation "simpl_r" "in" hyp(H) :=
  cbn [r_r r_dropper r_strict r_checksum r_seq r_i r_j r_n r_last r_err r_buf
       r_set_r r_set_dropper r_set_seq r_set_i r_set_j r_set_n r_set_last
       r_set_err r_set_buf x_seq x_err fst snd] in H.
Tactic Notation "simpl_w" "in" hyp(H) :=
  cbn [w_w w_seq w_f w_i w_j w_written w_first w_pending w_err w_buf
       w_set_w w_set_seq w_set_i w_set_j w_set_written w_set_first
       w_set_pending w_set_err w_set_buf y_seq fst snd] in H.
Ltac flat_r :=
  cbv beta iota delta
    [r_r r_dropper r_strict r_checksum r_seq r_i r_j r_n r_last r_err r_buf
     r_set_r r_set_dropper r_set_seq r_set_i r_set_j r_set_n r_set_last
     r_set_err r_set_buf x_seq x_err fst snd].
Ltac flat_w :=
  cbv beta iota delta
    [w_w w_seq w_f w_i w_j w_written w_first w_pending w_err w_buf
     w_set_w w_set_seq w_set_i w_set_j w_set_written w_set_first
     w_set_pending w_set_err w_set_buf y_seq fst snd].
Tactic Notation "flat_r" "in" hyp(H) :=
  cbv beta iota delta
    [r_r r_dropper r_strict r_checksum r_seq r_i r_j r_n r_last r_err r_buf
     r_set_r r_set_dropper r_set_seq r_set_i r_set_j r_set_n r_set_last
     r_set_err r_set_buf x_seq x_err fst snd] in H.
Tactic Notation "flat_w" "in" hyp(H) :=
  cbv beta iota delta
    [w_w w_seq w_f w_i w_j w_written w_first w_pending w_err w_buf
     w_set_w w_set_seq w_set_i w_set_j w_set_written w_set_first
     w_set_pending w_set_err w_set_buf y_seq fst snd] in H.

Lemma headerSize_val : headerSize = 7.
Proof. reflexivity. Qed.

Lemma blockSize_val : blockSize = 32768.
Proof. reflexivity. Qed.

(** Linear arithmetic that knows the two sizes. *)
Ltac zlia := pose proof headerSize_val; pose proof blockSize_val; lia.

Lemma Ok_inj {A : Type} (a b : A) : Ok a = Ok b -> a = b.
Proof. intros H. injection H as H. exact H. Qed.

Lemma Ok_inj2 {A B : Type} (a a' : A) (b b' : B) :
  Ok (a, b) = Ok (a', b') -> a = a' /\ b = b'.
Proof. intros H. injection H as H1 H2. auto. Qed.

Lemma Ok_inj3 {A B C : Type} (a a' : A) (b b' : B) (c c' : C) :
  Ok (a, b, c) = Ok (a', b', c') -> a = a' /\ b = b' /\ c = c'.
Proof. intros H. injection H as H1 H2 H3. auto. Qed.

Lemma Ok_inj4 {A B C D : Type} (a a' : A) (b b' : B) (c c' : C) (d d' : D) :
  Ok (a, b, c, d) = Ok (a', b', c', d') -> a = a' /\ b = b' /\ c = c' /\ d = d'.
Proof. intros H. injection H as H1 H2 H3 H4. auto. Qed.

(** Equality of byte strings as a boolean, for long ones. *)
Definition same_bytes (a b : list byte) : bool :=
  if list_eq_dec Byte.byte_eq_dec a b then true else false.

Lemma same_bytes_eq (a b : list byte) : same_bytes a b = true -> a = b.
Proof. unfold same_bytes. destruct (list_eq_dec Byte.byte_eq_dec a b); congruence. Qed.

Section Framing.

(** [util.NewCRC(b).Value()], a [uint32]; the checksum lives in
    another package and is consumed as it is. *)
Variable crc : list byte -> Z.
Hypothesis crc_range : forall b, 0 <= crc b < 2 ^ 32.

(** ** Reader *)

Definition NewReader (r : list byte) (dropper : option (list ErrCorrupted))
    (strict checksum : bool) : Reader :=
  mkReader r dropper strict checksum 0 0 0 0 true None (zeros blockSize).

(** [r.dropper.Drop(e)] when there is a dropper. *)
Definition Drop (r : Reader) (e : ErrCorrupted) : Reader :=
  match r_dropper r with
  | Some log => r_set_dropper r (Some (log ++ [e]))
  | None => r
  end.

Definition corrupt (r : Reader) (n : Z) (reason : string) (skip : bool)
    : Reader * error :=
  let r := Drop r (mkErrCorrupted n reason) in
  if r_strict r && negb skip then
    let e := NewErrCorrupted (mkErrCorrupted n reason) in
    (r_set_err r (Some e), e)
  else (r, errSkip).

(** [io.ReadFull(r.r, r.buf[:])] on the in-memory source: the number of
    bytes read and the reader with its buffer and source advanced. *)
Definition ReadFull (r : Reader) : Z * Reader :=
  let n := Z.min (len (r_r r)) (len (r_buf r)) in
  (n, r_set_r (r_set_buf r (store (r_buf r) 0 (firstn (Z.to_nat n) (r_r r))))
        (skipn (Z.to_nat n) (r_r r))).

Definition ret {A : Type} (p : A * error) : res (A * option error) :=
  Ok (fst p, Some (snd p)).

Fixpoint nextChunk_loop (fuel : nat) (r : Reader) (first : bool)
    : res (Reader * option error) :=
  if r_j r + headerSize <=? r_n r then
    let checksum := le_combine (slice (r_buf r) (r_j r + 0) (r_j r + 4)) in
    let length := le_combine (slice (r_buf r) (r_j r + 4) (r_j r + 6)) in
    let chunkType := byte.unsigned (index (r_buf r) (r_j r + 6)) in
    let unprocBlock := r_n r - r_j r in
    if (checksum =? 0) && (length =? 0) && (chunkType =? 0) then
      let r := r_set_j (r_set_i r (r_n r)) (r_n r) in
      ret (corrupt r unprocBlock "zero header" false)
    else if (chunkType <? fullChunkType) || (chunkType >? lastChunkType) then
      let r := r_set_j (r_set_i r (r_n r)) (r_n r) in
      ret (corrupt r unprocBlock
             ("invalid chunk type " ++ HexString.of_Z chunkType) false)
    else
      let r := r_set_i r (r_j r + headerSize) in
      let r := r_set_j r (r_j r + headerSize + length) in
      if r_j r >? r_n r then
        let r := r_set_j (r_set_i r (r_n r)) (r_n r) in
        ret (corrupt r unprocBlock "chunk length overflows block" false)
      else if r_checksum r
              && negb (checksum =? crc (slice (r_buf r) (r_i r - 1) (r_j r))) then
        let r := r_set_j (r_set_i r (r_n r)) (r_n r) in
        ret (corrupt r unprocBlock "checksum mismatch" false)
      else if first && negb (chunkType =? fullChunkType)
                    && negb (chunkType =? firstChunkType) then
        let chunkLength := (r_j r - r_i r) + headerSize in
        let r := r_set_i r (r_j r) in
        ret (corrupt r chunkLength "orphan chunk" true)
      else
        Ok (r_set_last r ((chunkType =? fullChunkType) || (chunkType =? lastChunkType)),
            None)
  else if (r_n r <? blockSize) && (r_n r >? 0) then
    if negb first then ret (corrupt r 0 "missing chunk part" false)
    else Ok (r_set_err r (Some EOF), Some EOF)
  else
    let (n, r) := ReadFull r in
    if n =? 0 then
      if negb first then ret (corrupt r 0 "missing chunk part" false)
      else Ok (r_set_err r (Some EOF), Some EOF)
    else
      let r := r_set_n (r_set_j (r_set_i r 0) 0) n in
      match fuel with
      | O => Timeout
      | S fuel' => nextChunk_loop fuel' r first
      end.

(** A block that was just read holds a header or is the last one: the
    loop of [nextChunk] comes back to its head at most once. *)
Definition nextChunk (r : Reader) (first : bool) : res (Reader * option error) :=
  nextChunk_loop 1 r first.

(** Every round of the loops below uses up bytes of the buffer or of
    the source: their number bounds the number of rounds. *)
Definition budget (r : Reader) : nat := S (List.length (r_buf r) + List.length (r_r r)).

Fixpoint Next_loop (fuel : nat) (r : Reader)
    : res (Reader * option singleReader * option error) :=
  match fuel with
  | O => Timeout
  | S fuel' =>
      c <- nextChunk r true ;;
      match c with
      | (r, None) => Ok (r, Some (mkSingleReader (r_seq r) None), None)
      | (r, Some err) =>
          if is_errSkip err then Next_loop fuel' r else Ok (r, None, Some err)
      end
  end.

Definition Reader_Next (r : Reader)
    : res (Reader * option singleReader * option error) :=
  let r := r_set_seq r (int (r_seq r + 1)) in
  match r_err r with
  | Some err => Ok (r, None, Some err)
  | None =>
      let r := r_set_i r (r_j r) in
      Next_loop (budget r) r
  end.

(** [Reset] returns the accumulated error. *)
Definition Reader_Reset (r : Reader) (reader : list byte)
    (dropper : option (list ErrCorrupted)) (strict checksum : bool)
    : Reader * option error :=
  (mkReader reader dropper strict checksum (int (r_seq r + 1)) 0 0 0 true None (r_buf r),
   r_err r).

(** The loop [for r.i == r.j] shared by [Read] and [ReadByte]: the
    reader and the session after it, and the error it returned with, if
    it did. *)
Fixpoint advance (fuel : nat) (r : Reader) (x : singleReader)
    : res (Reader * singleReader * option error) :=
  if r_i r =? r_j r then
    if r_last r then Ok (r, x, Some EOF) else
    match fuel with
    | O => Timeout
    | S fuel' =>
        c <- nextChunk r false ;;
        match c with
        | (r, Some err) =>
            let err := if is_errSkip err then ErrUnexpectedEOF else err in
            Ok (r, mkSingleReader (x_seq x) (Some err), Some err)
        | (r, None) => advance fuel' r (mkSingleReader (x_seq x) None)
        end
    end
  else Ok (r, x, None).

(** [x.Read(p)] with [len(p) = lenp]: the bytes copied into [p] (their
    number is the [n] returned) and the error. *)
Definition Read (r : Reader) (x : singleReader) (lenp : Z)
    : res (Reader * singleReader * list byte * option error) :=
  if negb (r_seq r =? x_seq x) then
    Ok (r, x, [], Some (New "leveldb/journal: stale reader"))
  else match x_err x with
  | Some err => Ok (r, x, [], Some err)
  | None =>
  match r_err r with
  | Some err => Ok (r, x, [], Some err)
  | None =>
      a <- advance (budget r) r x ;;
      match a with
      | (r, x, Some err) => Ok (r, x, [], Some err)
      | (r, x, None) =>
          let n := Z.min lenp (r_j r - r_i r) in
          Ok (r_set_i r (r_i r + n), x, slice (r_buf r) (r_i r) (r_i r + n), None)
      end
  end end.

Definition ReadByte (r : Reader) (x : singleReader)
    : res (Reader * singleReader * byte * option error) :=
  if negb (r_seq r =? x_seq x) then
    Ok (r, x, Byte.x00, Some (New "leveldb/journal: stale reader"))
  else match x_err x with
  | Some err => Ok (r, x, Byte.x00, Some err)
  | None =>
  match r_err r with
  | Some err => Ok (r, x, Byte.x00, Some err)
  | None =>
      a <- advance (budget r) r x ;;
      match a with
      | (r, x, Some err) => Ok (r, x, Byte.x00, Some err)
      | (r, x, None) => Ok (r_set_i r (r_i r + 1), x, index (r_buf r) (r_i r), None)
      end
  end end.

(** ** Writer *)

(** [NewWriter(w)] for a sink that holds [w] already. *)
Definition NewWriter (w : list byte) (f : bool) : Writer :=
  mkWriter w 0 f 0 0 0 false false None (zeros blockSize).

Definition fillHeader (w : Writer) (last : bool) : res Writer :=
  if (w_i w + headerSize >? w_j w) || (w_j w >? blockSize) then
    Panic "leveldb/journal: bad writer state"
  else
    let chunkType :=
      if last then (if w_first w then fullChunkType else lastChunkType)
      else (if w_first w then firstChunkType else middleChunkType) in
    let w := w_set_buf w (store (w_buf w) (w_i w + 6) [byte.of_Z chunkType]) in
    let w := w_set_buf w
      (store (w_buf w) (w_i w + 0)
         (le_split 4 (crc (slice (w_buf w) (w_i w + 6) (w_j w))))) in
    let w := w_set_buf w
      (store (w_buf w) (w_i w + 4)
         (le_split 2 (uint16 (w_j w - w_i w - headerSize)))) in
    Ok w.

Definition writeBlock (w : Writer) : Writer :=
  let w := w_set_err
    (w_set_w w (w_w w ++ slice (w_buf w) (w_written w) (len (w_buf w)))) None in
  let w := w_set_i w 0 in
  let w := w_set_j w headerSize in
  w_set_written w 0.

Definition writePending (w : Writer) : res Writer :=
  match w_err w with
  | Some _ => Ok w
  | None =>
      w <- (if w_pending w then
              w <- fillHeader w true ;; Ok (w_set_pending w false)
            else Ok w) ;;
      let w := w_set_err
        (w_set_w w (w_w w ++ slice (w_buf w) (w_written w) (w_j w))) None in
      Ok (w_set_written w (w_j w))
  end.

Definition Writer_Close (w : Writer) : res (Writer * option error) :=
  let w := w_set_seq w (int (w_seq w + 1)) in
  w <- writePending w ;;
  match w_err w with
  | Some err => Ok (w, Some err)
  | None => Ok (w_set_err w (Some (New "leveldb/journal: closed Writer")), None)
  end.

Definition Writer_Flush (w : Writer) : res (Writer * option error) :=
  let w := w_set_seq w (int (w_seq w + 1)) in
  w <- writePending w ;;
  match w_err w with
  | Some err => Ok (w, Some err)
  | None =>
      if w_f w then
        let w := w_set_err w None in Ok (w, w_err w)
      else Ok (w, None)
  end.

(** [Reset] returns the error met while finishing the journal at hand;
    the sink it leaves holds [w_w] of the writer as [writePending] left
    it, and the writer moves on to the sink [writer]. *)
Definition Writer_Reset (w : Writer) (writer : list byte) (f : bool)
    : res (Writer * option error) :=
  let w := w_set_seq w (int (w_seq w + 1)) in
  we <- match w_err w with
        | None => w <- writePending w ;; Ok (w, w_err w)
        | Some _ => Ok (w, None)
        end ;;
  let (w, err) := (we : Writer * option error) in
  Ok (mkWriter writer (w_seq w) f 0 0 0 false false None (w_buf w), err).

Definition Writer_Next (w : Writer)
    : res (Writer * option singleWriter * option error) :=
  let w := w_set_seq w (int (w_seq w + 1)) in
  match w_err w with
  | Some err => Ok (w, None, Some err)
  | None =>
      w <- (if w_pending w then fillHeader w true else Ok w) ;;
      let w := w_set_i w (w_j w) in
      let w := w_set_j w (w_j w + headerSize) in
      let done (w : Writer) :=
        let w := w_set_first w true in
        let w := w_set_pending w true in
        Ok (w, Some (mkSingleWriter (w_seq w)), None) in
      if w_j w >? blockSize then
        let w := w_set_buf w
          (store (w_buf w) (w_i w) (zeros (blockSize - w_i w))) in
        let w := writeBlock w in
        match w_err w with
        | Some err => Ok (w, None, Some err)
        | None => done w
        end
      else done w
  end.

(** The loop of [singleWriter.Write].  [copy(w.buf[w.j:], p)] takes at
    least a byte of [p] in every round: the rounds are at most
    [len(p)]. *)
Fixpoint Write_loop (fuel : nat) (w : Writer) (p : list byte)
    : res (Writer * option error) :=
  if len p >? 0 then
    match fuel with
    | O => Timeout
    | S fuel' =>
        c <- (if w_j w =? blockSize then
                w <- fillHeader w false ;;
                let w := writeBlock w in
                match w_err w with
                | Some err => Ok (w, Some err)
                | None => Ok (w_set_first w false, None)
                end
              else Ok (w, None)) ;;
        match c with
        | (w, Some err) => Ok (w, Some err)
        | (w, None) =>
            if w_j w >? len (w_buf w) then
              Panic "slice bounds out of range"
            else
              let n := Z.min (len (w_buf w) - w_j w) (len p) in
              let w := w_set_buf w
                (store (w_buf w) (w_j w) (firstn (Z.to_nat n) p)) in
              let w := w_set_j w (w_j w + n) in
              Write_loop fuel' w (skipn (Z.to_nat n) p)
        end
    end
  else Ok (w, None).

(** [x.Write(p)]: the count returned and the error. *)
Definition Write (w : Writer) (x : singleWriter) (p : list byte)
    : res (Writer * Z * option error) :=
  if negb (w_seq w =? y_seq x) then
    Ok (w, 0, Some (New "leveldb/journal: stale writer"))
  else match w_err w with
  | Some err => Ok (w, 0, Some err)
  | None =>
      c <- Write_loop (List.length p) w p ;;
      match c with
      | (w, Some err) => Ok (w, 0, Some err)
      | (w, None) => Ok (w, len p, None)
      end
  end.

(** ** The package's example code *)

(** [write(w, ss)]: the sink as the writer leaves it, and the error. *)
Fixpoint write_loop (journals : Writer) (ss : list (list byte))
    : res (Writer * option error) :=
  match ss with
  | [] => Writer_Close journals
  | s :: ss' =>
      a <- Writer_Next journals ;;
      match a with
      | (journals, _, Some err) => Ok (journals, Some err)
      | (journals, None, None) => Panic "nil pointer dereference"
      | (journals, Some j, None) =>
          b <- Write journals j s ;;
          match b with
          | (journals, _, Some err) => Ok (journals, Some err)
          | (journals, _, None) => write_loop journals ss'
          end
      end
  end.

Definition write (ss : list (list byte)) : res (list byte * option error) :=
  a <- write_loop (NewWriter [] false) ss ;;
  Ok (w_w (fst a), snd a).

(** [ioutil.ReadAll(j)]: it calls [Read] until the end of the journal,
    with the free space of a buffer it grows as it likes: [lenp k] is
    the space it hands to the call after [k] calls. *)
Fixpoint ReadAll_loop (fuel : nat) (r : Reader) (x : singleReader)
    (lenp : nat -> Z) (acc : list byte)
    : res (Reader * list byte * option error) :=
  match fuel with
  | O => Timeout
  | S fuel' =>
      a <- Read r x (lenp 0%nat) ;;
      match a with
      | (r, x, p, Some EOF) => Ok (r, acc ++ p, None)
      | (r, x, p, Some err) => Ok (r, acc ++ p, Some err)
      | (r, x, p, None) =>
          ReadAll_loop fuel' r x (fun k => lenp (S k)) (acc ++ p)
      end
  end.

Definition ReadAll (r : Reader) (x : singleReader) (lenp : nat -> Z)
    : res (Reader * list byte * option error) :=
  ReadAll_loop (budget r) r x lenp [].

(** [read(r)], with the arguments of [NewReader] left open: the
    journals read, the error, and the reader as it is left. *)
Fixpoint read_loop (fuel : nat) (journals : Reader) (lenp : nat -> Z)
    (ss : list (list byte)) : res (list (list byte) * option error * Reader) :=
  match fuel with
  | O => Timeout
  | S fuel' =>
      a <- Reader_Next journals ;;
      match a with
      | (journals, _, Some EOF) => Ok (ss, None, journals)
      | (journals, _, Some err) => Ok ([], Some err, journals)
      | (journals, None, None) => Panic "nil pointer dereference"
      | (journals, Some j, None) =>
          b <- ReadAll journals j lenp ;;
          match b with
          | (journals, s, Some err) => Ok ([], Some err, journals)
          | (journals, s, None) => read_loop fuel' journals lenp (ss ++ [s])
          end
      end
  end.

Definition read (r : list byte) (dropper : option (list ErrCorrupted))
    (strict checksum : bool) (lenp : nat -> Z)
    : res (list (list byte) * option error * Reader) :=
  let journals := NewReader r dropper strict checksum in
  read_loop (budget journals) journals lenp [].

(** ** The wire format *)

(** A chunk on the wire: checksum, length and type, then the payload. *)
Definition header (chunkType : Z) (payload : list byte) : list byte :=
  le_split 4 (crc (byte.of_Z chunkType :: payload))
  ++ le_split 2 (len payload) ++ [byte.of_Z chunkType].

Definition chunk (chunkType : Z) (payload : list byte) : list byte :=
  header chunkType payload ++ payload.

(** The type [fillHeader] gives a chunk. *)
Definition chunkTypeOf (last first : bool) : Z :=
  if last then (if first then fullChunkType else lastChunkType)
  else (if first then firstChunkType else middleChunkType).

(** [Seg pos mid js bs e ds]: the bytes [bs], met at offset [pos] of a
    block, hold the journals [js] chunk after chunk and end at offset
    [e] of a block.  [mid] tells that the first of the journals has had
    its First chunk already.  No chunk crosses the end of a block, and a
    block tail too short for a header is zero.  Where a journal could
    start, the rest of the block may be zero as well: a reader drops
    it, and [ds] lists these drops in the order they are met. *)
Inductive Seg : Z -> bool -> list (list byte) -> list byte -> Z
                -> list ErrCorrupted -> Prop :=
| Seg_end pos : Seg pos false [] [] pos []
| Seg_pad pos mid js bs e ds :
    blockSize - headerSize < pos <= blockSize ->
    Seg 0 mid js bs e ds ->
    Seg pos mid js (zeros (blockSize - pos) ++ bs) e ds
| Seg_final pos mid p js bs e ds :
    0 <= pos -> pos + headerSize + len p <= blockSize ->
    Seg (pos + headerSize + len p) false js bs e ds ->
    Seg pos mid (p :: js) (chunk (chunkTypeOf true (negb mid)) p ++ bs) e ds
| Seg_part pos mid p q js bs e ds :
    0 <= pos -> pos + headerSize + len p <= blockSize ->
    Seg (pos + headerSize + len p) true (q :: js) bs e ds ->
    Seg pos mid ((p ++ q) :: js) (chunk (chunkTypeOf false (negb mid)) p ++ bs) e ds
| Seg_zero pos js bs e ds :
    0 <= pos -> pos + headerSize <= blockSize ->
    Seg 0 false js bs e ds ->
    Seg pos false js (zeros (blockSize - pos) ++ bs) e
      (mkErrCorrupted (blockSize - pos) "zero header" :: ds).

(** [Packed pos bs e]: the bytes [bs], met at offset [pos] of a block
    and ending at offset [e] of a block, are chunks none of which
    crosses the end of a block, every block tail too short for a
    header being filled with zeros up to the 32768th byte. *)
Inductive Packed : Z -> list byte -> Z -> Prop :=
| Packed_end pos : Packed pos [] pos
| Packed_pad pos bs e :
    blockSize - headerSize < pos <= blockSize ->
    Packed 0 bs e ->
    Packed pos (zeros (blockSize - pos) ++ bs) e
| Packed_chunk pos chunkType p bs e :
    0 <= pos -> pos + headerSize + len p <= blockSize ->
    fullChunkType <= chunkType <= lastChunkType ->
    Packed (pos + headerSize + len p) bs e ->
    Packed pos (chunk chunkType p ++ bs) e.

(** One round of the loop of [singleWriter.Write] after the other:
    [Spill i first q p Y i' first' q'] tells that writing [p] after the
    payload [q] of the chunk begun at offset [i] sends out the chunks
    [Y] and leaves the payload [q'] in the chunk begun at [i']. *)
Inductive Spill : Z -> bool -> list byte -> list byte -> list byte
                  -> Z -> bool -> list byte -> Prop :=
| Spill_done i first q : Spill i first q [] [] i first q
| Spill_copy i first q p Y i' first' q' :
    0 < len p -> i + headerSize + len q < blockSize ->
    Spill i first
      (q ++ firstn (Z.to_nat (Z.min (blockSize - (i + headerSize + len q)) (len p))) p)
      (skipn (Z.to_nat (Z.min (blockSize - (i + headerSize + len q)) (len p))) p)
      Y i' first' q' ->
    Spill i first q p Y i' first' q'
| Spill_flush i first q p Y i' first' q' :
    0 < len p -> i + headerSize + len q = blockSize ->
    Spill 0 false
      (firstn (Z.to_nat (Z.min (blockSize - headerSize) (len p))) p)
      (skipn (Z.to_nat (Z.min (blockSize - headerSize) (len p))) p)
      Y i' first' q' ->
    Spill i first q p (chunk (chunkTypeOf false first) q ++ Y) i' first' q'.

(** ** What the calls do to the sequence number *)

Lemma corrupt_seq (r : Reader) (n : Z) (reason : string) (skip : bool) :
  r_seq (fst (corrupt r n reason skip)) = r_seq r.
Proof.
  unfold corrupt, Drop. destruct (r_dropper r); cbn;
    destruct (r_strict r && negb skip); reflexivity.
Qed.

Lemma nextChunk_loop_seq (fuel : nat) : forall r first r' e,
  nextChunk_loop fuel r first = Ok (r', e) -> r_seq r' = r_seq r.
Proof.
  induction fuel as [|fuel IH]; intros r first r' e; cbn [nextChunk_loop];
    unfold ret, ReadFull;
    repeat match goal with
    | |- context [if ?b then _ else _] => destruct b
    end;
    try discriminate;
    try (intros H; injection H as <- _; rewrite ?corrupt_seq; reflexivity).
  all: intros H; apply IH in H; exact H.
Qed.

Lemma Next_loop_seq (fuel : nat) : forall r r' x e,
  Next_loop fuel r = Ok (r', x, e) -> r_seq r' = r_seq r.
Proof.
  induction fuel as [|fuel IH]; intros r r' x e; cbn [Next_loop]; [discriminate|].
  unfold nextChunk.
  destruct (nextChunk_loop 1 r true) as [[r1 [err|]]| |] eqn:E; cbn [bind];
    try discriminate.
  - apply nextChunk_loop_seq in E.
    destruct (is_errSkip err).
    + intros H. apply IH in H. congruence.
    + intros H. injection H as <- _ _. exact E.
  - apply nextChunk_loop_seq in E. intros H. injection H as <- _ _. exact E.
Qed.

Lemma Reader_Next_seq (r r' : Reader) x e :
  Reader_Next r = Ok (r', x, e) -> r_seq r' = int (r_seq r + 1).
Proof.
  unfold Reader_Next. cbn [r_err r_set_seq]. destruct (r_err r).
  - intros H. injection H as <- _ _. reflexivity.
  - intros H. apply Next_loop_seq in H. exact H.
Qed.

Lemma Next_loop_session (fuel : nat) : forall r r' x e,
  Next_loop fuel r = Ok (r', Some x, e) -> x_seq x = r_seq r' /\ x_err x = None.
Proof.
  induction fuel as [|fuel IH]; intros r0 r' x e; cbn [Next_loop]; [discriminate|].
  destruct (nextChunk r0 true) as [[r1 [err|]]| |]; cbn [bind]; try discriminate.
  - destruct (is_errSkip err); [apply IH|discriminate].
  - intros H. injection H as <- <- _. split; reflexivity.
Qed.

Lemma Reader_Next_session (r r' : Reader) x e :
  Reader_Next r = Ok (r', Some x, e) -> x_seq x = r_seq r' /\ x_err x = None.
Proof.
  unfold Reader_Next. cbn [r_err r_set_seq]. destruct (r_err r); [discriminate|].
  apply Next_loop_session.
Qed.

Lemma advance_seq (fuel : nat) : forall r x r' x' e,
  advance fuel r x = Ok (r', x', e) -> r_seq r' = r_seq r.
Proof.
  induction fuel as [|fuel IH]; intros r x r' x' e; cbn [advance];
    destruct (r_i r =? r_j r); destruct (r_last r); try discriminate;
    try (intros H; injection H as <- _ _; reflexivity).
  unfold nextChunk.
  destruct (nextChunk_loop 1 r false) as [[r1 [err|]]| |] eqn:E; cbn [bind];
    try discriminate; apply nextChunk_loop_seq in E.
  - intros H. injection H as <- _ _. exact E.
  - intros H. apply IH in H. congruence.
Qed.

Lemma Read_seq (r : Reader) x lenp r' x' p e :
  Read r x lenp = Ok (r', x', p, e) -> r_seq r' = r_seq r.
Proof.
  unfold Read. destruct (negb (r_seq r =? x_seq x)).
  { intros H. injection H as <- _ _ _. reflexivity. }
  destruct (x_err x). { intros H. injection H as <- _ _ _. reflexivity. }
  destruct (r_err r). { intros H. injection H as <- _ _ _. reflexivity. }
  destruct (advance (budget r) r x) as [[[r1 x1] [err|]]| |] eqn:E; cbn [bind];
    try discriminate; apply advance_seq in E.
  - intros H. injection H as <- _ _ _. exact E.
  - intros H. injection H as <- _ _ _. exact E.
Qed.

Lemma ReadByte_seq (r : Reader) x r' x' c e :
  ReadByte r x = Ok (r', x', c, e) -> r_seq r' = r_seq r.
Proof.
  unfold ReadByte. destruct (negb (r_seq r =? x_seq x)).
  { intros H. injection H as <- _ _ _. reflexivity. }
  destruct (x_err x). { intros H. injection H as <- _ _ _. reflexivity. }
  destruct (r_err r). { intros H. injection H as <- _ _ _. reflexivity. }
  destruct (advance (budget r) r x) as [[[r1 x1] [err|]]| |] eqn:E; cbn [bind];
    try discriminate; apply advance_seq in E.
  - intros H. injection H as <- _ _ _. exact E.
  - intros H. injection H as <- _ _ _. exact E.
Qed.

Lemma fillHeader_seq (w w' : Writer) (last : bool) :
  fillHeader w last = Ok w' -> w_seq w' = w_seq w.
Proof.
  unfold fillHeader.
  destruct ((w_i w + headerSize >? w_j w) || (w_j w >? blockSize)); [discriminate|].
  intros H. injection H as <-. reflexivity.
Qed.

Lemma writePending_seq (w w' : Writer) :
  writePending w = Ok w' -> w_seq w' = w_seq w.
Proof.
  unfold writePending. destruct (w_err w).
  { intros H. injection H as <-. reflexivity. }
  destruct (w_pending w); cbn [bind].
  - destruct (fillHeader w true) as [w1| |] eqn:E; cbn [bind]; try discriminate.
    apply fillHeader_seq in E. intros H. injection H as <-. exact E.
  - intros H. injection H as <-. reflexivity.
Qed.

Lemma Writer_Close_seq (w w' : Writer) e :
  Writer_Close w = Ok (w', e) -> w_seq w' = int (w_seq w + 1).
Proof.
  unfold Writer_Close.
  destruct (writePending (w_set_seq w (int (w_seq w + 1)))) as [w1| |] eqn:E;
    cbn [bind]; try discriminate.
  apply writePending_seq in E.
  destruct (w_err w1); intros H; injection H as <- _; exact E.
Qed.

Lemma Writer_Flush_seq (w w' : Writer) e :
  Writer_Flush w = Ok (w', e) -> w_seq w' = int (w_seq w + 1).
Proof.
  unfold Writer_Flush.
  destruct (writePending (w_set_seq w (int (w_seq w + 1)))) as [w1| |] eqn:E;
    cbn [bind]; try discriminate.
  apply writePending_seq in E.
  destruct (w_err w1); [|destruct (w_f w1)]; intros H; injection H as <- _; exact E.
Qed.

Lemma Writer_Reset_seq (w w' : Writer) writer f e :
  Writer_Reset w writer f = Ok (w', e) -> w_seq w' = int (w_seq w + 1).
Proof.
  unfold Writer_Reset. cbn [w_err w_set_seq].
  destruct (w_err w).
  - cbn [bind]. intros H. injection H as <- _. reflexivity.
  - destruct (writePending (w_set_seq w (int (w_seq w + 1)))) as [w1| |] eqn:E;
      cbn [bind]; try discriminate.
    apply writePending_seq in E. intros H. injection H as <- _. exact E.
Qed.

Lemma Writer_Next_seq (w w' : Writer) y e :
  Writer_Next w = Ok (w', y, e) -> w_seq w' = int (w_seq w + 1).
Proof.
  unfold Writer_Next. cbn [w_err w_set_seq w_pending].
  destruct (w_err w). { intros H. injection H as <- _ _. reflexivity. }
  assert (Hf : forall w1, (if w_pending w then fillHeader (w_set_seq w (int (w_seq w + 1))) true
                           else Ok (w_set_seq w (int (w_seq w + 1)))) = Ok w1 ->
                          w_seq w1 = int (w_seq w + 1)).
  { intros w1. destruct (w_pending w).
    - intros H. apply fillHeader_seq in H. exact H.
    - intros H. injection H as <-. reflexivity. }
  destruct (if w_pending w then _ else _) as [w1| |]; cbn [bind]; try discriminate.
  specialize (Hf w1 eq_refl). destruct w1 as [ww ws wf wi wj wwr wfi wp we wb].
  unfold writeBlock. flat_w in Hf. flat_w.
  destruct (wj + headerSize >? blockSize); intros H;
    apply Ok_inj3 in H; destruct H as (<- & _ & _); exact Hf.
Qed.

Lemma Writer_Next_session (w w' : Writer) y e :
  Writer_Next w = Ok (w', Some y, e) -> y_seq y = w_seq w'.
Proof.
  unfold Writer_Next. cbn [w_err w_set_seq w_pending].
  destruct (w_err w); [discriminate|].
  destruct (if w_pending w then _ else _) as [w1| |]; cbn [bind]; try discriminate.
  destruct w1 as [ww ws wf wi wj wwr wfi wp we wb]. unfold writeBlock. flat_w.
  destruct (wj + headerSize >? blockSize); intros H;
    apply Ok_inj3 in H; destruct H as (<- & H & _);
    injection H as <-; reflexivity.
Qed.

Lemma Write_loop_seq (fuel : nat) : forall w p w' e,
  Write_loop fuel w p = Ok (w', e) -> w_seq w' = w_seq w.
Proof.
  induction fuel as [|fuel IH]; intros w p w' e; cbn [Write_loop];
    destruct (len p >? 0); try discriminate;
    try (intros H; injection H as <- _; reflexivity).
  destruct (w_j w =? blockSize).
  - destruct (fillHeader w false) as [w1| |] eqn:E; cbn [bind]; try discriminate.
    apply fillHeader_seq in E. cbn.
    destruct (headerSize >? len (w_buf w1)); [discriminate|].
    intros H. apply IH in H. cbn in H. congruence.
  - cbn [bind]. destruct (w_j w >? len (w_buf w)); [discriminate|].
    intros H. apply IH in H. exact H.
Qed.

Lemma Write_seq (w : Writer) y p w' n e :
  Write w y p = Ok (w', n, e) -> w_seq w' = w_seq w.
Proof.
  unfold Write. destruct (negb (w_seq w =? y_seq y)).
  { intros H. injection H as <- _ _. reflexivity. }
  destruct (w_err w). { intros H. injection H as <- _ _. reflexivity. }
  destruct (Write_loop (List.length p) w p) as [[w1 [err|]]| |] eqn:E; cbn [bind];
    try discriminate; apply Write_loop_seq in E;
    intros H; injection H as <- _ _; exact E.
Qed.

(** ** Later calls *)

(** [rlater k r r']: the reader [r'] is [r] after calls of which [k]
    were [Next] or [Reset], the others reading from sessions. *)
Inductive rlater : Z -> Reader -> Reader -> Prop :=
| rlater_refl r : rlater 0 r r
| rlater_Next k r r1 r2 x e :
    rlater k r r1 -> Reader_Next r1 = Ok (r2, x, e) -> rlater (k + 1) r r2
| rlater_Reset k r r1 r2 reader dropper strict checksum e :
    rlater k r r1 -> Reader_Reset r1 reader dropper strict checksum = (r2, e) ->
    rlater (k + 1) r r2
| rlater_Read k r r1 r2 x x' lenp p e :
    rlater k r r1 -> Read r1 x lenp = Ok (r2, x', p, e) -> rlater k r r2
| rlater_ReadByte k r r1 r2 x x' c e :
    rlater k r r1 -> ReadByte r1 x = Ok (r2, x', c, e) -> rlater k r r2.

(** [wlater k w w']: the writer [w'] is [w] after calls of which [k]
    were [Next], [Flush], [Close] or [Reset], the others writing to
    sessions. *)
Inductive wlater : Z -> Writer -> Writer -> Prop :=
| wlater_refl w : wlater 0 w w
| wlater_Next k w w1 w2 y e :
    wlater k w w1 -> Writer_Next w1 = Ok (w2, y, e) -> wlater (k + 1) w w2
| wlater_Flush k w w1 w2 e :
    wlater k w w1 -> Writer_Flush w1 = Ok (w2, e) -> wlater (k + 1) w w2
| wlater_Close k w w1 w2 e :
    wlater k w w1 -> Writer_Close w1 = Ok (w2, e) -> wlater (k + 1) w w2
| wlater_Reset k w w1 w2 writer f e :
    wlater k w w1 -> Writer_Reset w1 writer f = Ok (w2, e) -> wlater (k + 1) w w2
| wlater_Write k w w1 w2 y p n e :
    wlater k w w1 -> Write w1 y p = Ok (w2, n, e) -> wlater k w w2.

Lemma int_int_add (s k : Z) : int (int s + k) = int (s + k).
Proof.
  unfold int. f_equal.
  replace ((s + 2 ^ 63) mod 2 ^ 64 - 2 ^ 63 + k + 2 ^ 63)
    with ((s + 2 ^ 63) mod 2 ^ 64 + k) by lia.
  rewrite Z.add_mod_idemp_l by lia. f_equal. lia.
Qed.

Lemma int_range (s : Z) : - 2 ^ 63 <= int s < 2 ^ 63.
Proof.
  unfold int. pose proof (Z.mod_pos_bound (s + 2 ^ 63) (2 ^ 64) ltac:(lia)). lia.
Qed.

Lemma int_add_neq (s k : Z) :
  - 2 ^ 63 <= s < 2 ^ 63 -> 0 < k < 2 ^ 64 -> int (s + k) <> s.
Proof.
  intros Hs Hk. unfold int. intros H.
  assert (H' : (s + k + 2 ^ 63) mod 2 ^ 64 = s + 2 ^ 63) by lia.
  pose proof (Z.div_mod (s + k + 2 ^ 63) (2 ^ 64) ltac:(lia)) as Hd.
  rewrite H' in Hd. lia.
Qed.

Lemma seq_step (s s1 k : Z) :
  0 <= k /\ s1 = int (int s + k) \/ (k = 0 /\ s1 = s) ->
  0 <= k + 1 /\ int (s1 + 1) = int (int s + (k + 1)) \/ (k + 1 = 0 /\ int (s1 + 1) = s).
Proof.
  intros [[Hk ->]|[-> ->]]; left; (split; [lia|]).
  - rewrite (int_int_add (int s + k) 1). f_equal. lia.
  - rewrite (int_int_add s (0 + 1)). reflexivity.
Qed.

Lemma rlater_seq (k : Z) (r r' : Reader) :
  rlater k r r' -> 0 <= k /\ r_seq r' = int (int (r_seq r) + k) \/ (k = 0 /\ r_seq r' = r_seq r).
Proof.
  induction 1 as [r|k r r1 r2 x e _ IH H|k r r1 r2 ? ? ? ? e _ IH H
                  |k r r1 r2 x x' lenp p e _ IH H|k r r1 r2 x x' c e _ IH H].
  - right. split; reflexivity.
  - apply Reader_Next_seq in H. rewrite H. apply seq_step. exact IH.
  - unfold Reader_Reset in H. injection H as <- _. cbn [r_seq].
    apply seq_step. exact IH.
  - apply Read_seq in H. rewrite H. exact IH.
  - apply ReadByte_seq in H. rewrite H. exact IH.
Qed.

Lemma wlater_seq (k : Z) (w w' : Writer) :
  wlater k w w' -> 0 <= k /\ w_seq w' = int (int (w_seq w) + k) \/ (k = 0 /\ w_seq w' = w_seq w).
Proof.
  induction 1 as [w|k w w1 w2 y e _ IH H|k w w1 w2 e _ IH H|k w w1 w2 e _ IH H
                  |k w w1 w2 writer f e _ IH H|k w w1 w2 y p n e _ IH H].
  - right. split; reflexivity.
  - apply Writer_Next_seq in H. rewrite H. apply seq_step. exact IH.
  - apply Writer_Flush_seq in H. rewrite H. apply seq_step. exact IH.
  - apply Writer_Close_seq in H. rewrite H. apply seq_step. exact IH.
  - apply Writer_Reset_seq in H. rewrite H. apply seq_step. exact IH.
  - apply Write_seq in H. rewrite H. exact IH.
Qed.

(** ** The end of the input and orphan chunks *)

Lemma ReadFull_empty (r : Reader) :
  r_r r = [] -> ReadFull r = (0, r).
Proof.
  intros H. unfold ReadFull. rewrite H.
  change (len (@nil byte)) with 0. rewrite Z.min_l by apply len_nonneg.
  destruct r. cbn [r_r] in H. subst. reflexivity.
Qed.

Lemma nextChunk_loop_end (fuel : nat) (r : Reader) (first : bool) :
  r_n r < r_j r + headerSize ->
  0 < r_n r < blockSize \/ r_r r = [] ->
  nextChunk_loop fuel r first =
    if negb first then ret (corrupt r 0 "missing chunk part" false)
    else Ok (r_set_err r (Some EOF), Some EOF).
Proof.
  intros Hj Hend.
  assert (E1 : (r_j r + headerSize <=? r_n r) = false) by (apply Z.leb_gt; lia).
  destruct fuel; cbn [nextChunk_loop]; rewrite E1.
  all: destruct ((r_n r <? blockSize) && (r_n r >? 0)) eqn:E2; [reflexivity|].
  all: destruct Hend as [Hn|Hr];
    [apply andb_false_iff in E2; rewrite Z.ltb_ge, Z.gtb_ltb, Z.ltb_ge in E2; lia|].
  all: rewrite (ReadFull_empty r Hr); reflexivity.
Qed.






(** C8: a session made by [Next] is stale once the parent went
    through [k] later calls that move its sequence number ([Next],
    [Flush], [Close], [Reset]), for [0 < k < 2^64]: every [Read],
    [ReadByte] or [Write] on it then returns the "stale" error, which
    is no corruption error, and leaves the parent as it was. *)
Theorem stale_session_fails (k : Z) :
  0 < k < 2 ^ 64 ->
  (forall r r1 x r2 x' lenp,
     Reader_Next r = Ok (r1, Some x, None) -> rlater k r1 r2 ->
     x_seq x' = x_seq x ->
     Read r2 x' lenp = Ok (r2, x', [], Some (New "leveldb/journal: stale reader"))
     /\ ReadByte r2 x'
        = Ok (r2, x', Byte.x00, Some (New "leveldb/journal: stale reader")))
  /\ (forall w w1 y w2 p,
     Writer_Next w = Ok (w1, Some y, None) -> wlater k w1 w2 ->
     Write w2 y p = Ok (w2, 0, Some (New "leveldb/journal: stale writer")))
  /\ (forall msg e, New msg <> NewErrCorrupted e).
Proof.
  intros Hk. split; [|split].
  - intros r r1 x r2 x' lenp HNext Hlater Hx.
    pose proof (Reader_Next_seq _ _ _ _ HNext) as Hs1.
    destruct (Reader_Next_session _ _ _ _ HNext) as [Hxs _].
    assert (Hne : r_seq r2 <> x_seq x').
    { destruct (rlater_seq _ _ _ Hlater) as [[_ H2]|[H0 _]]; [|lia].
      rewrite H2, Hx, Hxs, Hs1, int_int_add.
      apply int_add_neq; [apply int_range|exact Hk]. }
    apply Z.eqb_neq in Hne. unfold Read, ReadByte. rewrite Hne. split; reflexivity.
  - intros w w1 y w2 p HNext Hlater.
    pose proof (Writer_Next_seq _ _ _ _ HNext) as Hs1.
    pose proof (Writer_Next_session _ _ _ _ HNext) as Hys.
    assert (Hne : w_seq w2 <> y_seq y).
    { destruct (wlater_seq _ _ _ Hlater) as [[_ H2]|[H0 _]]; [|lia].
      rewrite H2, Hys, Hs1, int_int_add.
      apply int_add_neq; [apply int_range|exact Hk]. }
    apply Z.eqb_neq in Hne. unfold Write. rewrite Hne. reflexivity.
  - intros msg e. discriminate.
Qed.

(** ** The writer's buffer *)

Lemma len_header (chunkType : Z) (payload : list byte) :
  len (header chunkType payload) = headerSize.
Proof.
  unfold header. rewrite !len_app, !len_le_split, len_cons, len_nil. reflexivity.
Qed.

Lemma len_chunk (chunkType : Z) (payload : list byte) :
  len (chunk chunkType payload) = headerSize + len payload.
Proof. unfold chunk. now rewrite len_app, len_header. Qed.

(** The state of a writer between two calls. *)
Definition wf (w : Writer) : Prop :=
  len (w_buf w) = blockSize /\ w_err w = None
  /\ if w_pending w
     then 0 <= w_written w <= w_i w /\ w_i w + headerSize <= w_j w <= blockSize
     else 0 <= w_written w <= w_j w /\ w_j w <= blockSize.

(** The bytes a writer holds that [writePending] would send. *)
Definition pending_bytes (w : Writer) : list byte :=
  if w_pending w
  then slice (w_buf w) (w_written w) (w_i w)
       ++ chunk (chunkTypeOf true (w_first w))
            (slice (w_buf w) (w_i w + headerSize) (w_j w))
  else slice (w_buf w) (w_written w) (w_j w).

Lemma fillHeader_ok (w : Writer) (last : bool) :
  len (w_buf w) = blockSize -> 0 <= w_i w ->
  w_i w + headerSize <= w_j w <= blockSize ->
  exists buf',
    fillHeader w last = Ok (w_set_buf w buf')
    /\ len buf' = blockSize
    /\ slice buf' (w_i w) (w_j w)
       = chunk (chunkTypeOf last (w_first w))
           (slice (w_buf w) (w_i w + headerSize) (w_j w))
    /\ forall lo hi, 0 <= lo <= hi -> hi <= blockSize ->
         hi <= w_i w \/ w_i w + headerSize <= lo ->
         slice buf' lo hi = slice (w_buf w) lo hi.
Proof.
  intros Hlen Hi Hj. unfold fillHeader, headerSize in *.
  assert (E : (w_i w + 7 >? w_j w) || (w_j w >? blockSize) = false).
  { apply orb_false_iff. rewrite !Z.gtb_ltb, !Z.ltb_ge. lia. }
  rewrite E. fold (chunkTypeOf last (w_first w)).
  set (ty := chunkTypeOf last (w_first w)).
  destruct w as [ww ws wf0 wi wj wwr wfi wp we wb]. flat_w. cbn [w_buf w_i w_j] in *.
  set (payload := slice wb (wi + 7) wj).
  set (b1 := store wb (wi + 6) [byte.of_Z ty]).
  assert (L1 : len b1 = blockSize).
  { unfold b1. rewrite len_store; rewrite ?len_cons, ?len_nil; lia. }
  assert (S1 : slice b1 (wi + 6) wj = byte.of_Z ty :: payload).
  { assert (Sa : slice b1 (wi + 6) (wi + 7) = [byte.of_Z ty]).
    { unfold b1.
      replace (wi + 7) with (wi + 6 + len [byte.of_Z ty])
        by (rewrite len_cons, len_nil; lia).
      apply slice_store_same; rewrite ?len_cons, ?len_nil; lia. }
    assert (Sb : slice b1 (wi + 7) wj = payload).
    { unfold b1. apply slice_store_other; rewrite ?len_cons, ?len_nil; lia. }
    rewrite (slice_split b1 (wi + 6) (wi + 7) wj), Sa, Sb by lia. reflexivity. }
  rewrite S1.
  set (c4 := le_split 4 (crc (byte.of_Z ty :: payload))).
  set (b2 := store b1 (wi + 0) c4).
  assert (L2 : len b2 = blockSize).
  { unfold b2. rewrite len_store; unfold c4; rewrite ?len_le_split; lia. }
  assert (Hpl : len payload = wj - wi - 7).
  { unfold payload. rewrite len_slice by lia. lia. }
  assert (El : le_split 2 (uint16 (wj - wi - 7)) = le_split 2 (len payload)).
  { rewrite Hpl. unfold uint16. symmetry. apply le_split_mod. }
  rewrite El. set (l2 := le_split 2 (len payload)).
  set (b3 := store b2 (wi + 4) l2).
  assert (L3 : len b3 = blockSize).
  { unfold b3. rewrite len_store; unfold l2; rewrite ?len_le_split; lia. }
  exists b3. split; [reflexivity|]. split; [exact L3|]. split.
  - rewrite (slice_split b3 wi (wi + 4) wj) by lia.
    rewrite (slice_split b3 (wi + 4) (wi + 6) wj) by lia.
    rewrite (slice_split b3 (wi + 6) (wi + 7) wj) by lia.
    unfold chunk, header. fold c4 l2 payload. rewrite <- !app_assoc.
    assert (P1 : slice b3 wi (wi + 4) = c4).
    { unfold b3. rewrite slice_store_other
        by (unfold l2; rewrite ?len_le_split; lia).
      unfold b2. rewrite Z.add_0_r.
      replace (wi + 4) with (wi + len c4) by (unfold c4; rewrite len_le_split; lia).
      apply slice_store_same; unfold c4; rewrite ?len_le_split; lia. }
    assert (P2 : slice b3 (wi + 4) (wi + 6) = l2).
    { unfold b3.
      replace (wi + 6) with (wi + 4 + len l2) by (unfold l2; rewrite len_le_split; lia).
      apply slice_store_same; unfold l2; rewrite ?len_le_split; lia. }
    assert (P3 : slice b3 (wi + 6) wj = byte.of_Z ty :: payload).
    { unfold b3. rewrite slice_store_other
        by (unfold l2; rewrite ?len_le_split; lia).
      unfold b2. rewrite slice_store_other
        by (unfold c4; rewrite ?len_le_split; lia).
      exact S1. }
    rewrite P1, P2.
    rewrite <- (slice_split b3 (wi + 6) (wi + 7) wj) by lia.
    rewrite P3. reflexivity.
  - intros lo hi Hlo Hhi Hd.
    unfold b3. rewrite slice_store_other by (unfold l2; rewrite ?len_le_split; lia).
    unfold b2. rewrite slice_store_other by (unfold c4; rewrite ?len_le_split; lia).
    unfold b1. rewrite slice_store_other by (rewrite ?len_cons, ?len_nil; lia).
    reflexivity.
Qed.

Lemma writePending_ok (w : Writer) :
  wf w ->
  exists w',
    writePending w = Ok w'
    /\ w_w w' = w_w w ++ pending_bytes w
    /\ wf w' /\ w_pending w' = false
    /\ w_written w' = w_j w /\ w_j w' = w_j w
    /\ w_seq w' = w_seq w /\ w_f w' = w_f w.
Proof.
  intros (Hlen & Herr & Hpos). unfold writePending, pending_bytes. rewrite Herr.
  destruct (w_pending w) eqn:Hp.
  - destruct Hpos as [Hwr Hj].
    destruct (fillHeader_ok w true Hlen ltac:(zlia) Hj) as (buf' & Hfill & Hl' & Hchunk & Hsame).
    rewrite Hfill. cbn [bind]. eexists. split; [reflexivity|].
    destruct w as [ww ws wf0 wi wj wwr wfi wp we wb]. unfold wf. flat_w.
    cbn [w_buf w_i w_j w_written w_first w_err w_pending] in *. subst.
    repeat split; try zlia.
    f_equal. rewrite (slice_split buf' wwr wi wj) by zlia.
    rewrite Hchunk, Hsame by (unfold headerSize in *; zlia). reflexivity.
  - cbn [bind]. eexists. split; [reflexivity|].
    destruct w as [ww ws wf0 wi wj wwr wfi wp we wb]. unfold wf. flat_w.
    cbn [w_buf w_i w_j w_written w_first w_err w_pending] in *. subst.
    repeat split; try zlia.
Qed.

Lemma Writer_Next_ok (w : Writer) :
  wf w ->
  exists w1 y,
    Writer_Next w = Ok (w1, Some y, None)
    /\ y_seq y = w_seq w1 /\ w_seq w1 = int (w_seq w + 1) /\ w_f w1 = w_f w
    /\ wf w1 /\ w_pending w1 = true /\ w_first w1 = true
    /\ w_j w1 = w_i w1 + headerSize
    /\ ((w_j w + headerSize <= blockSize /\ w_i w1 = w_j w
         /\ w_w w1 = w_w w
         /\ w_w w1 ++ slice (w_buf w1) (w_written w1) (w_i w1)
            = w_w w ++ pending_bytes w)
        \/ (blockSize < w_j w + headerSize /\ w_i w1 = 0 /\ w_written w1 = 0
            /\ w_w w1 = w_w w ++ pending_bytes w ++ zeros (blockSize - w_j w))).
Proof.
  intros (Hlen & Herr & Hpos). unfold Writer_Next.
  cbn [w_err w_set_seq w_pending]. rewrite Herr.
  assert (Hfill : exists buf',
    (if w_pending w then fillHeader (w_set_seq w (int (w_seq w + 1))) true
     else Ok (w_set_seq w (int (w_seq w + 1))))
    = Ok (w_set_buf (w_set_seq w (int (w_seq w + 1))) buf')
    /\ len buf' = blockSize
    /\ slice buf' (w_written w) (w_j w) = pending_bytes w
    /\ 0 <= w_written w <= w_j w /\ w_j w <= blockSize).
  { unfold pending_bytes. destruct (w_pending w).
    - destruct Hpos as [Hwr Hj].
      destruct (fillHeader_ok (w_set_seq w (int (w_seq w + 1))) true Hlen
                  ltac:(cbn; zlia) Hj) as (buf' & Hfill & Hl' & Hchunk & Hsame).
      exists buf'. split; [exact Hfill|]. split; [exact Hl'|].
      cbn [w_set_seq w_i w_j w_buf w_first] in Hchunk, Hsame.
      split; [|zlia].
      rewrite (slice_split buf' (w_written w) (w_i w) (w_j w)) by zlia.
      rewrite Hchunk, Hsame by (unfold headerSize in *; zlia). reflexivity.
    - exists (w_buf w). split.
      { destruct w; reflexivity. }
      split; [exact Hlen|]. split; [reflexivity|zlia]. }
  destruct Hfill as (buf' & -> & Hl' & Hpb & Hwr & Hj). cbn [bind].
  destruct w as [ww ws wf0 wi wj wwr wfi wp we wb].
  cbn [w_w w_seq w_f w_i w_j w_written w_first w_pending w_err w_buf] in *.
  subst we. unfold writeBlock. flat_w.
  destruct (wj + headerSize >? blockSize) eqn:E; rewrite Z.gtb_ltb in E.
  - apply Z.ltb_lt in E.
    assert (Lz : len (store buf' wj (zeros (blockSize - wj))) = blockSize).
    { rewrite len_store; rewrite ?len_zeros; zlia. }
    do 2 eexists. split; [reflexivity|]. unfold wf. flat_w.
    rewrite ?Lz. unfold headerSize in *.
    repeat split; try zlia; try reflexivity.
    right. repeat split; try zlia. f_equal.
    rewrite (slice_split _ wwr wj blockSize) by zlia.
    rewrite slice_store_other by (rewrite ?len_zeros; zlia).
    rewrite Hpb. f_equal.
    replace blockSize with (wj + len (zeros (blockSize - wj))) at 2
      by (rewrite len_zeros; zlia).
    apply slice_store_same; rewrite ?len_zeros; zlia.
  - apply Z.ltb_ge in E.
    do 2 eexists. split; [reflexivity|]. unfold wf. flat_w.
    unfold headerSize in *.
    repeat split; try zlia; try reflexivity.
    left. repeat split; try zlia. f_equal. exact Hpb.
Qed.

Lemma len_zero_nil {A : Type} (p : list A) : len p <= 0 -> p = [].
Proof. destruct p; [reflexivity|]. rewrite len_cons. pose proof (len_nonneg p). zlia. Qed.

Lemma Write_loop_ok (fuel : nat) : forall (p : list byte) (w : Writer),
  wf w -> w_pending w = true -> (List.length p <= fuel)%nat ->
  exists w2 Y,
    Write_loop fuel w p = Ok (w2, None)
    /\ wf w2 /\ w_pending w2 = true
    /\ w_seq w2 = w_seq w /\ w_f w2 = w_f w
    /\ Spill (w_i w) (w_first w) (slice (w_buf w) (w_i w + headerSize) (w_j w)) p Y
         (w_i w2) (w_first w2) (slice (w_buf w2) (w_i w2 + headerSize) (w_j w2))
    /\ w_w w2 ++ slice (w_buf w2) (w_written w2) (w_i w2)
       = w_w w ++ slice (w_buf w) (w_written w) (w_i w) ++ Y
    /\ ((w_w w2 = w_w w /\ w_i w2 = w_i w /\ w_written w2 = w_written w)
        \/ (w_i w2 = 0 /\ w_written w2 = 0)).
Proof.
  induction fuel as [|fuel IH]; intros p w Hwf Hp Hfuel.
  - assert (p = []) by (destruct p; [reflexivity|cbn in Hfuel; zlia]). subst p.
    exists w, []. cbn [Write_loop]. change (len (@nil byte) >? 0) with false.
    cbn iota. split; [reflexivity|]. split; [exact Hwf|]. split; [exact Hp|].
    split; [reflexivity|]. split; [reflexivity|].
    split; [apply Spill_done|]. split; [now rewrite !app_nil_r|]. left. auto.
  - cbn [Write_loop].
    destruct (len p >? 0) eqn:Epos; rewrite Z.gtb_ltb in Epos.
    2:{ apply Z.ltb_ge in Epos. apply len_zero_nil in Epos. subst p.
        exists w, []. split; [reflexivity|]. split; [exact Hwf|].
        split; [exact Hp|]. split; [reflexivity|]. split; [reflexivity|].
        split; [apply Spill_done|]. split; [now rewrite !app_nil_r|]. left. auto. }
    apply Z.ltb_lt in Epos.
    pose proof Hwf as (Hlen & Herr & Hpos). rewrite Hp in Hpos.
    destruct Hpos as [Hwr Hj].
    destruct (Z.eqb_spec (w_j w) blockSize) as [Efull|Enot].
    + (* the block is full: close the chunk and send the block *)
      destruct (fillHeader_ok w false Hlen ltac:(zlia) Hj)
        as (buf' & Hfill & Hl' & Hchunk & Hsame).
      rewrite Hfill. cbn [bind].
      destruct w as [ww ws wf0 wi wj wwr wfi wp we wb].
      cbn [w_buf w_i w_j w_written w_first w_pending w_err w_w w_seq w_f] in *.
      unfold writeBlock. simpl_w. cbn [bind]. simpl_w.
      subst wj wp we. rewrite Hl'.
      assert (E7 : (headerSize >? blockSize) = false) by reflexivity.
      rewrite E7.
      set (n := Z.min (blockSize - headerSize) (len p)).
      assert (Hn : 1 <= n <= len p /\ n <= blockSize - headerSize)
        by (unfold n, blockSize, headerSize in *; zlia).
      assert (Lf : len (firstn (Z.to_nat n) p) = n) by (rewrite len_firstn; zlia).
      set (buf2 := store buf' headerSize (firstn (Z.to_nat n) p)).
      assert (L2 : len buf2 = blockSize).
      { unfold buf2. rewrite len_store; unfold headerSize in *; zlia. }
      destruct (IH (skipn (Z.to_nat n) p)
                  (mkWriter (ww ++ slice buf' wwr blockSize) ws wf0 0 (headerSize + n) 0
                     false true None buf2))
        as (w2 & Y & Hrun & Hwf2 & Hp2 & Hs2 & Hf2 & Hspill & Hout & Hcase).
      { unfold wf. flat_w. unfold headerSize in *. repeat split; try zlia. }
      { reflexivity. }
      { rewrite length_skipn. unfold len in Hn. zlia. }
      simpl_w in Hs2. simpl_w in Hf2. simpl_w in Hspill. simpl_w in Hout.
      simpl_w in Hcase.
      exists w2, (chunk (chunkTypeOf false wfi) (slice wb (wi + headerSize) blockSize) ++ Y).
      split; [exact Hrun|]. split; [exact Hwf2|]. split; [exact Hp2|].
      split; [exact Hs2|]. split; [exact Hf2|]. split.
      * apply Spill_flush.
        -- exact Epos.
        -- rewrite len_slice by (unfold headerSize in *; zlia). zlia.
        -- fold n.
           replace (slice buf2 (0 + headerSize) (headerSize + n))
             with (firstn (Z.to_nat n) p) in Hspill; [exact Hspill|].
           unfold buf2. rewrite Z.add_0_l. rewrite <- Lf at 3.
           symmetry. apply slice_store_same; unfold headerSize in *; zlia.
      * split.
        -- rewrite Hout. rewrite (slice_nil buf2 0 0) by zlia. cbn [app].
           rewrite (slice_split buf' wwr wi blockSize) by zlia.
           rewrite Hchunk, Hsame by (unfold headerSize in *; zlia).
           now rewrite <- !app_assoc.
        -- right. destruct Hcase as [(_ & Hi2 & Hw2)|Hz]; [split; assumption|exact Hz].
    + (* room is left in the block *)
      cbn [bind].
      destruct w as [ww ws wf0 wi wj wwr wfi wp we wb].
      cbn [w_buf w_i w_j w_written w_first w_pending w_err w_w w_seq w_f] in *.
      simpl_w. subst wp we. rewrite Hlen.
      assert (Egt : (wj >? blockSize) = false).
      { rewrite Z.gtb_ltb. apply Z.ltb_ge. zlia. }
      rewrite Egt.
      set (n := Z.min (blockSize - wj) (len p)).
      assert (Hn : 1 <= n <= len p /\ n <= blockSize - wj) by (unfold n; zlia).
      assert (Lf : len (firstn (Z.to_nat n) p) = n) by (rewrite len_firstn; zlia).
      set (buf2 := store wb wj (firstn (Z.to_nat n) p)).
      assert (L2 : len buf2 = blockSize).
      { unfold buf2. rewrite len_store; zlia. }
      destruct (IH (skipn (Z.to_nat n) p)
                  (mkWriter ww ws wf0 wi (wj + n) wwr wfi true None buf2))
        as (w2 & Y & Hrun & Hwf2 & Hp2 & Hs2 & Hf2 & Hspill & Hout & Hcase).
      { unfold wf. flat_w. repeat split; try zlia. }
      { reflexivity. }
      { rewrite length_skipn. unfold len in Hn. zlia. }
      simpl_w in Hs2. simpl_w in Hf2. simpl_w in Hspill. simpl_w in Hout.
      simpl_w in Hcase.
      exists w2, Y.
      split; [exact Hrun|]. split; [exact Hwf2|]. split; [exact Hp2|].
      split; [exact Hs2|]. split; [exact Hf2|].
      assert (Hq : len (slice wb (wi + headerSize) wj) = wj - (wi + headerSize))
        by (rewrite len_slice; unfold headerSize in *; zlia).
      split.
      * apply Spill_copy.
        -- exact Epos.
        -- rewrite Hq. zlia.
        -- rewrite Hq.
           replace (blockSize - (wi + headerSize + (wj - (wi + headerSize))))
             with (blockSize - wj) by zlia.
           fold n.
           replace (slice buf2 (wi + headerSize) (wj + n))
             with (slice wb (wi + headerSize) wj ++ firstn (Z.to_nat n) p) in Hspill;
             [exact Hspill|].
           rewrite (slice_split buf2 (wi + headerSize) wj (wj + n))
             by (unfold headerSize in *; zlia).
           unfold buf2. rewrite slice_store_other by (unfold headerSize in *; zlia).
           f_equal. rewrite <- Lf at 3. symmetry. apply slice_store_same; zlia.
      * split; [|exact Hcase]. rewrite Hout. do 2 f_equal. unfold buf2.
        apply slice_store_other; unfold headerSize in *; zlia.
Qed.

(** The chunks a [Write] sends and the chunk it leaves pending are the
    journal written, as the layout has it. *)
Lemma Spill_Seg i first q p Y i' first' q' :
  Spill i first q p Y i' first' q' ->
  forall js bs e ds,
  0 <= i -> i' + headerSize + len q' <= blockSize ->
  Seg (i' + headerSize + len q') false js bs e ds ->
  Seg i (negb first) ((q ++ p) :: js)
    (Y ++ chunk (chunkTypeOf true first') q' ++ bs) e ds.
Proof.
  induction 1 as [i first q
                 |i first q p Y i' first' q' Hp Hroom _ IH
                 |i first q p Y i' first' q' Hp Hfull _ IH];
    intros js bs e ds Hi Hfit Hrest.
  - rewrite app_nil_r. cbn [app].
    rewrite <- (negb_involutive first) at 2.
    apply Seg_final; [exact Hi|exact Hfit|exact Hrest].
  - specialize (IH js bs e ds Hi Hfit Hrest).
    rewrite <- app_assoc, firstn_skipn in IH. exact IH.
  - specialize (IH js bs e ds (Z.le_refl 0) Hfit Hrest).
    rewrite firstn_skipn in IH. rewrite <- app_assoc.
    rewrite <- (negb_involutive first) at 2.
    pose proof (len_nonneg q).
    apply Seg_part; [exact Hi|zlia|].
    rewrite Hfull.
    change (Y ++ chunk (chunkTypeOf true first') q' ++ bs)
      with (zeros (blockSize - blockSize) ++ Y ++ chunk (chunkTypeOf true first') q' ++ bs).
    apply Seg_pad; [zlia|exact IH].
Qed.

(** What [write] sends for the journals [js], from any state of the
    writer: the bytes pending, then the journals. *)
Lemma write_loop_ok (js : list (list byte)) : forall w : Writer,
  wf w ->
  exists w' Y e,
    write_loop w js = Ok (w', None)
    /\ w_w w' = w_w w ++ pending_bytes w ++ Y
    /\ Seg (w_j w) false js Y e [].
Proof.
  induction js as [|s js IH]; intros w Hwf.
  - cbn [write_loop]. unfold Writer_Close.
    assert (Hwf' : wf (w_set_seq w (int (w_seq w + 1)))).
    { destruct w; exact Hwf. }
    destruct (writePending_ok _ Hwf') as (w' & Hrun & Hout & Hwf2 & _).
    rewrite Hrun. cbn [bind]. destruct Hwf2 as (_ & Herr & _). rewrite Herr.
    eexists _, [], _. split; [reflexivity|]. split.
    + simpl_w. rewrite Hout, app_nil_r. destruct w; reflexivity.
    + apply Seg_end.
  - cbn [write_loop].
    destruct (Writer_Next_ok w Hwf)
      as (w1 & y & Hnext & Hy & _ & _ & Hwf1 & Hp1 & Hf1 & Hj1 & Hcase).
    rewrite Hnext. cbn [bind]. unfold Write.
    rewrite Hy, Z.eqb_refl. cbn [negb].
    pose proof Hwf1 as (Hlen1 & Herr1 & Hpos1). rewrite Herr1.
    destruct (Write_loop_ok (List.length s) s w1 Hwf1 Hp1 (Nat.le_refl _))
      as (w2 & Y1 & Hrun & Hwf2 & Hp2 & _ & _ & Hspill & Hout2 & _).
    rewrite Hrun. cbn [bind].
    destruct (IH w2 Hwf2) as (w' & Y2 & e & Hrest & Hout & Hseg).
    rewrite Hrest.
    pose proof Hwf2 as (Hlen2 & Herr2 & Hpos2). rewrite Hp2 in Hpos2.
    rewrite Hp1 in Hpos1.
    assert (Hq2 : len (slice (w_buf w2) (w_i w2 + headerSize) (w_j w2))
                  = w_j w2 - (w_i w2 + headerSize)).
    { rewrite len_slice; zlia. }
    assert (Hbody : Seg (w_i w1) false (s :: js)
              (Y1 ++ chunk (chunkTypeOf true (w_first w2))
                       (slice (w_buf w2) (w_i w2 + headerSize) (w_j w2)) ++ Y2) e []).
    { rewrite Hj1, slice_nil in Hspill by zlia. rewrite Hf1 in Hspill.
      apply (Spill_Seg _ _ _ _ _ _ _ _ Hspill js Y2 e []).
      - zlia.
      - rewrite Hq2. zlia.
      - rewrite Hq2.
        replace (w_i w2 + headerSize + (w_j w2 - (w_i w2 + headerSize)))
          with (w_j w2) by zlia.
        exact Hseg. }
    unfold pending_bytes in Hout at 1. rewrite Hp2 in Hout.
    rewrite <- !app_assoc in Hout. rewrite app_assoc, Hout2 in Hout.
    destruct Hwf as (Hlen & Herr & Hpos).
    destruct Hcase as [(Hroom & Hi1 & _ & Hsame)|(Hpad & Hi1 & Hwr1 & Hsink)].
    + eexists w', _, e. split; [reflexivity|]. split.
      * rewrite Hout. rewrite <- !app_assoc. rewrite app_assoc, Hsame.
        rewrite <- !app_assoc. reflexivity.
      * rewrite <- Hi1. exact Hbody.
    + eexists w',
        (zeros (blockSize - w_j w) ++ Y1
         ++ chunk (chunkTypeOf true (w_first w2))
              (slice (w_buf w2) (w_i w2 + headerSize) (w_j w2)) ++ Y2), e.
      split; [reflexivity|]. split.
      * rewrite Hout, Hsink, Hwr1, Hi1, slice_nil by zlia.
        cbn [app]. rewrite <- !app_assoc. reflexivity.
      * apply Seg_pad.
        -- destruct (w_pending w); zlia.
        -- rewrite <- Hi1. exact Hbody.
Qed.

(** ** The reader against the layout *)

(** [nextChunk] on a header that parses. *)
Lemma nextChunk_loop_chunk (fuel : nat) (r : Reader) (first : bool) (c l ty : Z) :
  r_j r + headerSize <= r_n r ->
  le_combine (slice (r_buf r) (r_j r + 0) (r_j r + 4)) = c ->
  le_combine (slice (r_buf r) (r_j r + 4) (r_j r + 6)) = l ->
  byte.unsigned (index (r_buf r) (r_j r + 6)) = ty ->
  fullChunkType <= ty <= lastChunkType ->
  r_j r + headerSize + l <= r_n r ->
  crc (slice (r_buf r) (r_j r + headerSize - 1) (r_j r + headerSize + l)) = c ->
  (first = true -> ty = fullChunkType \/ ty = firstChunkType) ->
  nextChunk_loop fuel r first
  = Ok (r_set_last (r_set_j (r_set_i r (r_j r + headerSize)) (r_j r + headerSize + l))
          ((ty =? fullChunkType) || (ty =? lastChunkType)), None).
Proof.
  intros Hfit Hc Hl Hty Hrange Hin Hcrc Hfirst.
  assert (E : nextChunk_loop fuel r first = nextChunk_loop 0 r first).
  { destruct fuel; [reflexivity|]. cbn [nextChunk_loop].
    apply Z.leb_le in Hfit. rewrite Hfit. reflexivity. }
  rewrite E. clear E.
  destruct r as [rr rd rs rc rq ri rj rn rl re rb].
  cbn [r_j r_n r_buf] in *. cbn [nextChunk_loop]. simpl_r.
  rewrite Hc, Hl, Hty, Hcrc, Z.eqb_refl.
  apply Z.leb_le in Hfit. rewrite Hfit.
  assert (E0 : (ty =? 0) = false)
    by (apply Z.eqb_neq; unfold fullChunkType in *; lia).
  rewrite E0, andb_false_r.
  assert (E1 : (ty <? fullChunkType) || (ty >? lastChunkType) = false).
  { apply orb_false_iff. rewrite Z.gtb_ltb, !Z.ltb_ge. lia. }
  rewrite E1.
  assert (E2 : (rj + headerSize + l >? rn) = false)
    by (rewrite Z.gtb_ltb; apply Z.ltb_ge; lia).
  rewrite E2. cbn [negb]. rewrite andb_false_r.
  assert (E3 : first && negb (ty =? fullChunkType) && negb (ty =? firstChunkType)
               = false).
  { destruct first; [|reflexivity].
    destruct (Hfirst eq_refl) as [->| ->]; reflexivity. }
  rewrite E3. reflexivity.
Qed.

Lemma nextChunk_loop_fuel (fuel : nat) (r : Reader) (first : bool) :
  r_j r + headerSize <= r_n r ->
  nextChunk_loop fuel r first = nextChunk_loop 0 r first.
Proof.
  intros Hfit. destruct fuel; [reflexivity|]. cbn [nextChunk_loop].
  apply Z.leb_le in Hfit. rewrite Hfit. reflexivity.
Qed.

(** [nextChunk] on a header of zeros. *)
Lemma nextChunk_loop_zero (r : Reader) (first : bool) :
  r_j r + headerSize <= r_n r ->
  le_combine (slice (r_buf r) (r_j r + 0) (r_j r + 4)) = 0 ->
  le_combine (slice (r_buf r) (r_j r + 4) (r_j r + 6)) = 0 ->
  byte.unsigned (index (r_buf r) (r_j r + 6)) = 0 ->
  nextChunk_loop 0 r first
  = ret (corrupt (r_set_j (r_set_i r (r_n r)) (r_n r)) (r_n r - r_j r)
           "zero header" false).
Proof.
  intros Hfit Hc Hl Hty. apply Z.leb_le in Hfit.
  cbn [nextChunk_loop]. rewrite Hfit, Hc, Hl, Hty. reflexivity.
Qed.

(** The reader once [nextChunk] has read the next block. *)
Definition refill (r : Reader) : Reader :=
  r_set_n (r_set_j (r_set_i (snd (ReadFull r)) 0) 0) (fst (ReadFull r)).

Lemma refill_eq (r : Reader) :
  refill r
  = let n := Z.min (len (r_r r)) (len (r_buf r)) in
    mkReader (skipn (Z.to_nat n) (r_r r)) (r_dropper r) (r_strict r)
      (r_checksum r) (r_seq r) 0 0 n (r_last r) (r_err r)
      (store (r_buf r) 0 (firstn (Z.to_nat n) (r_r r))).
Proof. destruct r; reflexivity. Qed.

Lemma nextChunk_loop_refill (fuel : nat) (r : Reader) (first : bool) :
  r_n r < r_j r + headerSize -> r_n r = 0 \/ r_n r = blockSize ->
  len (r_buf r) = blockSize -> 0 < len (r_r r) ->
  nextChunk_loop (S fuel) r first = nextChunk_loop fuel (refill r) first.
Proof.
  intros Hj Hn Hb Hsrc.
  assert (E1 : (r_j r + headerSize <=? r_n r) = false) by (apply Z.leb_gt; lia).
  assert (E2 : (r_n r <? blockSize) && (r_n r >? 0) = false).
  { destruct Hn as [-> | ->]; reflexivity. }
  assert (E3 : (Z.min (len (r_r r)) (len (r_buf r)) =? 0) = false).
  { apply Z.eqb_neq. zlia. }
  cbn [nextChunk_loop]. rewrite E1, E2.
  cbv beta iota zeta delta [refill ReadFull fst snd].
  rewrite E3. reflexivity.
Qed.

(** The settings of a reader that reading leaves alone. *)
Definition same (r r' : Reader) : Prop :=
  r_seq r' = r_seq r /\ r_strict r' = r_strict r /\ r_checksum r' = r_checksum r.

Lemma same_refl (r : Reader) : same r r.
Proof. repeat split. Qed.

Lemma same_trans (r1 r2 r3 : Reader) : same r1 r2 -> same r2 r3 -> same r1 r3.
Proof. unfold same. intros (A & B & C) (D & E & F). repeat split; congruence. Qed.

(** The dropper's log after the drops [ds]. *)
Definition add_drops (d : option (list ErrCorrupted)) (ds : list ErrCorrupted)
    : option (list ErrCorrupted) :=
  match d with
  | Some log => Some (log ++ ds)
  | None => None
  end.

Lemma add_drops_nil d : add_drops d [] = d.
Proof. destruct d; cbn [add_drops]; [now rewrite app_nil_r|reflexivity]. Qed.

Lemma add_drops_app d ds ds' :
  add_drops (add_drops d ds) ds' = add_drops d (ds ++ ds').
Proof. destruct d; cbn [add_drops]; [now rewrite app_assoc|reflexivity]. Qed.

(** [RS r pos U]: the reader [r] stands at offset [pos] of a block with
    the bytes [U] still to come, in its buffer and in its source.  It
    either holds the block, or is about to read one. *)
Definition RS (r : Reader) (pos : Z) (U : list byte) : Prop :=
  len (r_buf r) = blockSize /\ r_err r = None
  /\ ((0 <= pos /\ r_j r = pos /\ pos <= r_n r /\ 0 < r_n r <= blockSize
       /\ (r_n r < blockSize -> r_r r = [])
       /\ U = slice (r_buf r) pos (r_n r) ++ r_r r)
      \/ (pos = 0 /\ U = r_r r /\ 0 <= r_j r <= r_n r
          /\ r_n r < r_j r + headerSize
          /\ (r_n r = 0 \/ r_n r = blockSize))).

(** [Ready r pos X U]: the reader holds the block, with [X] ahead of
    it in the buffer. *)
Definition Ready (r : Reader) (pos : Z) (X U : list byte) : Prop :=
  len (r_buf r) = blockSize /\ r_err r = None /\ 0 <= pos /\ r_j r = pos
  /\ pos + len X <= r_n r <= blockSize
  /\ slice (r_buf r) pos (pos + len X) = X
  /\ (r_n r < blockSize -> r_r r = [])
  /\ U = slice (r_buf r) (pos + len X) (r_n r) ++ r_r r.

Lemma front_split (buf : list byte) (pos n : Z) (X U src : list byte) :
  0 <= pos -> pos + len X <= n <= len buf ->
  slice buf pos n ++ src = X ++ U ->
  slice buf pos (pos + len X) = X /\ U = slice buf (pos + len X) n ++ src.
Proof.
  intros Hpos Hn H. pose proof (len_nonneg X).
  rewrite (slice_split buf pos (pos + len X) n), <- app_assoc in H by lia.
  apply app_eq_len in H; [|rewrite len_slice; lia].
  destruct H as [H1 H2]. split; [exact H1|now symmetry].
Qed.

Lemma RS_ready (r : Reader) (pos : Z) (X U : list byte) :
  RS r pos (X ++ U) -> 0 <= pos -> headerSize <= len X ->
  pos + len X <= blockSize ->
  exists r2,
    Ready r2 pos X U /\ same r r2 /\ r_dropper r2 = r_dropper r
    /\ forall fuel first,
         nextChunk_loop (S fuel) r first = nextChunk_loop 0 r2 first.
Proof.
  intros (Hlen & Herr & [(_ & Hj & Hle & Hn & Hlast & HU)
                        |(Hp0 & HU & Hj & Hnj & Hn)]) Hpos HX Hfit.
  - assert (Hin : pos + len X <= r_n r).
    { destruct (Z.eq_dec (r_n r) blockSize) as [->|Hne]; [exact Hfit|].
      rewrite (Hlast ltac:(lia)), app_nil_r in HU.
      apply (f_equal len) in HU. rewrite len_app, len_slice in HU by lia.
      pose proof (len_nonneg U). lia. }
    symmetry in HU. apply front_split in HU; [|lia|lia].
    destruct HU as [H1 H2].
    exists r. split; [|split; [apply same_refl|split; [reflexivity|]]].
    + unfold Ready. repeat split; auto; lia.
    + intros fuel first. apply nextChunk_loop_fuel. zlia.
  - subst pos.
    assert (Hsrc : len (r_r r) = len X + len U) by (rewrite <- HU; apply len_app).
    pose proof (len_nonneg U).
    set (n := Z.min (len (r_r r)) (len (r_buf r))).
    assert (Hn' : len X <= n <= blockSize) by (unfold n; zlia).
    assert (Lf : len (firstn (Z.to_nat n) (r_r r)) = n)
      by (rewrite len_firstn; unfold n; zlia).
    assert (Hb : len (store (r_buf r) 0 (firstn (Z.to_nat n) (r_r r))) = blockSize)
      by (rewrite len_store; lia).
    assert (Hs : slice (store (r_buf r) 0 (firstn (Z.to_nat n) (r_r r))) 0 n
                 ++ skipn (Z.to_nat n) (r_r r) = X ++ U).
    { rewrite slice_store_to by lia. rewrite firstn_skipn. now symmetry. }
    apply front_split in Hs; [|lia|lia]. destruct Hs as [H1 H2].
    pose proof (refill_eq r) as Hr2. fold n in Hr2.
    exists (refill r). split; [|split; [|split]].
    + rewrite Hr2. unfold Ready. simpl_r.
      repeat split; auto; try lia.
      intros Hlt. apply skipn_all2. unfold n, len in *. lia.
    + rewrite Hr2. repeat split.
    + rewrite Hr2. reflexivity.
    + intros fuel first.
      rewrite nextChunk_loop_refill by (auto; zlia).
      apply nextChunk_loop_fuel. rewrite Hr2. simpl_r. lia.
Qed.

Lemma chunk_parts (ty : Z) (p : list byte) :
  slice (chunk ty p) 0 4 = le_split 4 (crc (byte.of_Z ty :: p))
  /\ slice (chunk ty p) 4 6 = le_split 2 (len p)
  /\ slice (chunk ty p) 6 7 = [byte.of_Z ty]
  /\ slice (chunk ty p) 6 (headerSize + len p) = byte.of_Z ty :: p
  /\ slice (chunk ty p) headerSize (headerSize + len p) = p.
Proof.
  unfold chunk, header.
  set (c4 := le_split 4 (crc (byte.of_Z ty :: p))).
  set (l2 := le_split 2 (len p)).
  assert (L4 : len c4 = 4) by apply len_le_split.
  assert (L2 : len l2 = 2) by apply len_le_split.
  assert (L6 : len (c4 ++ l2) = 6) by (rewrite len_app; lia).
  split; [|split; [|split; [|split]]].
  - rewrite <- app_assoc. now apply slice_app_head.
  - rewrite <- app_assoc. rewrite (slice_app_at c4) by exact L4.
    rewrite <- app_assoc. now apply slice_app_head.
  - rewrite <- !app_assoc. rewrite app_assoc.
    rewrite (slice_app_at (c4 ++ l2)) by exact L6.
    now apply (slice_app_head [byte.of_Z ty]).
  - rewrite <- !app_assoc. rewrite app_assoc.
    rewrite (slice_app_at (c4 ++ l2)) by exact L6.
    apply slice_all. cbn [app]. rewrite len_cons. zlia.
  - rewrite (slice_app_at (c4 ++ l2 ++ [byte.of_Z ty])).
    + apply slice_all. lia.
    + rewrite !len_app, L4, L2. reflexivity.
Qed.

Lemma Ready_chunk (r : Reader) (pos ty : Z) (p U : list byte) (first : bool) :
  Ready r pos (chunk ty p) U ->
  fullChunkType <= ty <= lastChunkType ->
  (first = true -> ty = fullChunkType \/ ty = firstChunkType) ->
  exists r',
    nextChunk_loop 0 r first = Ok (r', None)
    /\ RS r' (pos + headerSize + len p) U
    /\ r_i r' = pos + headerSize /\ r_j r' = pos + headerSize + len p
    /\ slice (r_buf r') (r_i r') (r_j r') = p
    /\ r_last r' = ((ty =? fullChunkType) || (ty =? lastChunkType))
    /\ same r r' /\ r_dropper r' = r_dropper r.
Proof.
  intros (Hlen & Herr & Hpos & Hj & Hn & HX & Hlast & HU) Hty Hfirst.
  rewrite len_chunk in *. pose proof (len_nonneg p) as Hp.
  destruct (chunk_parts ty p) as (P1 & P2 & P3 & P4 & P5).
  assert (S : forall a b, 0 <= a <= b -> b <= headerSize + len p ->
            slice (r_buf r) (pos + a) (pos + b) = slice (chunk ty p) a b).
  { intros a b Ha Hb. rewrite <- HX. symmetry. apply slice_slice; lia. }
  assert (Hidx : index (r_buf r) (pos + 6) = byte.of_Z ty).
  { pose proof (slice_one (r_buf r) (pos + 6) ltac:(zlia)) as H1.
    replace (pos + 6 + 1) with (pos + 7) in H1 by lia.
    rewrite (S 6 7) in H1 by zlia. rewrite P3 in H1. congruence. }
  rewrite (nextChunk_loop_chunk 0 r first (crc (byte.of_Z ty :: p)) (len p) ty).
  - rewrite Hj. eexists. split; [reflexivity|].
    destruct r as [rr rd rs rc rq ri rj rn rl re rb].
    cbn [r_r r_err r_j r_n r_buf] in *. unfold RS, same. simpl_r.
    split; [|split; [reflexivity|split; [reflexivity|split;
              [|split; [reflexivity|split; [repeat split|reflexivity]]]]]].
    + split; [exact Hlen|]. split; [exact Herr|]. left.
      repeat split; try zlia; try assumption.
      rewrite HU. do 2 f_equal. lia.
    + replace (pos + headerSize + len p) with (pos + (headerSize + len p)) by lia.
      rewrite (S headerSize (headerSize + len p)) by zlia. exact P5.
  - zlia.
  - rewrite Hj, (S 0 4), P1, le_combine_split by zlia.
    apply Z.mod_small. apply crc_range.
  - rewrite Hj, (S 4 6), P2, le_combine_split by zlia.
    apply Z.mod_small. change (2 ^ (Z.of_nat 2 * 8)) with 65536. zlia.
  - rewrite Hj, Hidx, byte.unsigned_of_Z. unfold byte.wrap.
    apply Z.mod_small. unfold fullChunkType, lastChunkType in *. lia.
  - exact Hty.
  - zlia.
  - rewrite Hj.
    replace (pos + headerSize - 1) with (pos + 6) by zlia.
    replace (pos + headerSize + len p) with (pos + (headerSize + len p)) by lia.
    rewrite (S 6 (headerSize + len p)), P4 by zlia. reflexivity.
  - exact Hfirst.
Qed.

Lemma Ready_zero (r : Reader) (pos : Z) (U : list byte) (first : bool) :
  Ready r pos (zeros (blockSize - pos)) U ->
  pos + headerSize <= blockSize -> r_strict r = false ->
  exists r',
    nextChunk_loop 0 r first = Ok (r', Some errSkip)
    /\ RS r' 0 U /\ r_i r' = r_j r' /\ same r r'
    /\ r_dropper r'
       = add_drops (r_dropper r) [mkErrCorrupted (blockSize - pos) "zero header"].
Proof.
  intros (Hlen & Herr & Hpos & Hj & Hn & HX & Hlast & HU) Hfit Hstrict.
  rewrite len_zeros in Hn, HX, HU by zlia.
  assert (En : r_n r = blockSize) by lia.
  assert (S : forall a b, 0 <= a <= b -> b <= blockSize - pos ->
            slice (r_buf r) (pos + a) (pos + b) = zeros (b - a)).
  { intros a b Ha Hb. rewrite <- (slice_zeros (blockSize - pos) a b) by lia.
    rewrite <- HX. symmetry. apply slice_slice; lia. }
  assert (Hidx : index (r_buf r) (pos + 6) = Byte.x00).
  { pose proof (slice_one (r_buf r) (pos + 6) ltac:(zlia)) as H1.
    replace (pos + 6 + 1) with (pos + 7) in H1 by lia.
    rewrite (S 6 7) in H1 by zlia. change (zeros (7 - 6)) with [Byte.x00] in H1.
    congruence. }
  rewrite nextChunk_loop_zero.
  - unfold ret, corrupt, Drop.
    destruct r as [rr rd rs rc rq ri rj rn rl re rb].
    cbn [r_r r_err r_j r_n r_buf r_strict r_dropper] in *. subst rs rn rj.
    replace (blockSize + (blockSize - pos - (blockSize - pos))) with blockSize in HU by lia.
    rewrite slice_nil in HU by lia. cbn [app] in HU.
    destruct rd as [log|]; simpl_r; cbn [andb fst snd add_drops].
    + eexists. split; [reflexivity|]. unfold RS, same. simpl_r.
      repeat split; try assumption; try reflexivity.
      right. repeat split; try zlia; assumption.
    + eexists. split; [reflexivity|]. unfold RS, same. simpl_r.
      repeat split; try assumption; try reflexivity.
      right. repeat split; try zlia; assumption.
  - zlia.
  - rewrite Hj, (S 0 4) by zlia. reflexivity.
  - rewrite Hj, (S 4 6) by zlia. reflexivity.
  - rewrite Hj, Hidx. reflexivity.
Qed.

Lemma RS_chunk (r : Reader) (pos ty : Z) (p U : list byte) (first : bool) :
  RS r pos (chunk ty p ++ U) ->
  0 <= pos -> pos + headerSize + len p <= blockSize ->
  fullChunkType <= ty <= lastChunkType ->
  (first = true -> ty = fullChunkType \/ ty = firstChunkType) ->
  exists r',
    (forall fuel, nextChunk_loop (S fuel) r first = Ok (r', None))
    /\ RS r' (pos + headerSize + len p) U
    /\ r_i r' = pos + headerSize /\ r_j r' = pos + headerSize + len p
    /\ slice (r_buf r') (r_i r') (r_j r') = p
    /\ r_last r' = ((ty =? fullChunkType) || (ty =? lastChunkType))
    /\ same r r' /\ r_dropper r' = r_dropper r.
Proof.
  intros HRS Hpos Hfit Hty Hfirst. pose proof (len_nonneg p).
  destruct (RS_ready r pos (chunk ty p) U HRS Hpos)
    as (r2 & Hready & Hsame & Hdrop & Hrun);
    [rewrite len_chunk; lia|rewrite len_chunk; lia|].
  destruct (Ready_chunk r2 pos ty p U first Hready Hty Hfirst)
    as (r' & Hstep & HRS' & Hi & Hj & Hp & Hl & Hsame' & Hdrop').
  exists r'. split; [intros fuel; now rewrite Hrun|].
  repeat (split; [assumption|]). split; [eapply same_trans; eassumption|congruence].
Qed.

Lemma RS_zero (r : Reader) (pos : Z) (U : list byte) (first : bool) :
  RS r pos (zeros (blockSize - pos) ++ U) ->
  0 <= pos -> pos + headerSize <= blockSize -> r_strict r = false ->
  exists r',
    (forall fuel, nextChunk_loop (S fuel) r first = Ok (r', Some errSkip))
    /\ RS r' 0 U /\ r_i r' = r_j r' /\ same r r'
    /\ r_dropper r'
       = add_drops (r_dropper r) [mkErrCorrupted (blockSize - pos) "zero header"].
Proof.
  intros HRS Hpos Hfit Hstrict.
  destruct (RS_ready r pos (zeros (blockSize - pos)) U HRS Hpos)
    as (r2 & Hready & Hsame & Hdrop & Hrun);
    [rewrite len_zeros by zlia; zlia|rewrite len_zeros by zlia; zlia|].
  assert (Hstrict2 : r_strict r2 = false) by (destruct Hsame as (_ & -> & _); exact Hstrict).
  destruct (Ready_zero r2 pos U first Hready Hfit Hstrict2)
    as (r' & Hstep & HRS' & Hij & Hsame' & Hdrop').
  exists r'. split; [intros fuel; now rewrite Hrun|].
  repeat (split; [assumption|]). split; [eapply same_trans; eassumption|congruence].
Qed.

Lemma RS_pad (r : Reader) (pos : Z) (U : list byte) :
  blockSize - headerSize < pos <= blockSize ->
  RS r pos (zeros (blockSize - pos) ++ U) -> RS r 0 U.
Proof.
  intros Hpos (Hlen & Herr & [(_ & Hj & Hle & Hn & Hlast & HU)
                             |(Hp0 & _)]); [|zlia].
  pose proof (len_nonneg U) as HlU.
  assert (En : r_n r = blockSize).
  { destruct (Z.eq_dec (r_n r) blockSize) as [E|Hne]; [exact E|].
    rewrite (Hlast ltac:(lia)), app_nil_r in HU.
    apply (f_equal len) in HU.
    rewrite len_app, len_zeros, len_slice in HU by zlia. zlia. }
  rewrite En in *. symmetry in HU.
  apply app_eq_len in HU; [|rewrite len_slice, len_zeros; zlia].
  destruct HU as [_ HU].
  split; [exact Hlen|]. split; [exact Herr|]. right.
  repeat split; try zlia; try congruence.
Qed.

Lemma RS_eof (r : Reader) (pos : Z) (fuel : nat) :
  RS r pos [] ->
  nextChunk_loop fuel r true = Ok (r_set_err r (Some EOF), Some EOF).
Proof.
  intros (Hlen & Herr & [(Hpos & Hj & Hle & Hn & Hlast & HU)
                        |(Hp0 & HU & Hj & Hnj & Hn)]).
  - symmetry in HU. apply app_eq_nil in HU. destruct HU as [Hs Hsrc].
    apply (f_equal len) in Hs. rewrite len_slice in Hs by lia.
    change (len (@nil byte)) with 0 in Hs.
    rewrite nextChunk_loop_end; [reflexivity|zlia|now right].
  - rewrite nextChunk_loop_end; [reflexivity|zlia|now right].
Qed.

Lemma RS_set_i (r : Reader) (i pos : Z) (U : list byte) :
  RS r pos U -> RS (r_set_i r i) pos U.
Proof. destruct r. exact (fun H => H). Qed.

Lemma RS_set_seq (r : Reader) (q pos : Z) (U : list byte) :
  RS r pos U -> RS (r_set_seq r q) pos U.
Proof. destruct r. exact (fun H => H). Qed.

Lemma RS_bound (r : Reader) (pos : Z) (U : list byte) :
  RS r pos U ->
  0 <= r_j r <= blockSize /\ len U <= blockSize - r_j r + len (r_r r).
Proof.
  intros (Hlen & Herr & [(Hpos & Hj & Hle & Hn & Hlast & HU)
                        |(Hp0 & HU & Hj & Hnj & Hn)]).
  - subst U. rewrite len_app, len_slice by lia. pose proof (len_nonneg (r_r r)). lia.
  - subst U. zlia.
Qed.

Lemma budget_bound (r : Reader) (pos : Z) (U : list byte) :
  RS r pos U -> 0 <= r_i r -> r_j r - r_i r + len U < Z.of_nat (budget r).
Proof.
  intros H Hi. pose proof (RS_bound r pos U H) as (Hj & HU).
  destruct H as (Hlen & _). unfold budget. unfold len in *. lia.
Qed.

(** [InChunk r pos U q js e ds]: the reader is inside a journal, of
    which [q] is still to be read: what is left of the payload at
    hand, then the chunks that follow. *)
Definition InChunk (r : Reader) (pos : Z) (U q : list byte)
    (js : list (list byte)) (e : Z) (ds : list ErrCorrupted) : Prop :=
  RS r pos U /\ 0 <= r_i r <= r_j r
  /\ exists q', q = slice (r_buf r) (r_i r) (r_j r) ++ q'
       /\ if r_last r then q' = [] /\ Seg pos false js U e ds
          else Seg pos true (q' :: js) U e ds.

(** The chunk-advance step inside a journal. *)
Lemma nextChunk_mid pos mid js0 U e ds :
  Seg pos mid js0 U e ds -> mid = true ->
  forall q js r, js0 = q :: js -> RS r pos U ->
  exists r' pos' U',
    nextChunk r false = Ok (r', None)
    /\ InChunk r' pos' U' q js e ds
    /\ r_j r' - r_i r' + len U' + headerSize <= len U
    /\ same r r' /\ r_dropper r' = r_dropper r.
Proof.
  induction 1 as [pos
                 |pos mid js0 bs e ds Hpos _ IH
                 |pos mid p js0 bs e ds Hpos Hfit Hrest _
                 |pos mid p q0 js0 bs e ds Hpos Hfit Hrest _
                 |pos js0 bs e ds Hpos Hfit _ _];
    intros Hmid q js r Hjs HRS; try discriminate.
  - apply RS_pad in HRS; [|exact Hpos].
    destruct (IH Hmid q js r Hjs HRS) as (r' & pos' & U' & Hrun & Hin & Hm & Hs & Hd).
    exists r', pos', U'. split; [exact Hrun|]. split; [exact Hin|].
    split; [|split; assumption].
    rewrite len_app, len_zeros by zlia. zlia.
  - subst mid. injection Hjs as -> ->. cbn [negb chunkTypeOf] in HRS.
    destruct (RS_chunk r pos lastChunkType q bs false HRS Hpos Hfit)
      as (r' & Hrun & HRS' & Hi & Hj & Hp & Hl & Hs & Hd);
      [unfold fullChunkType, lastChunkType; lia|discriminate|].
    exists r', (pos + headerSize + len q), bs.
    split; [apply Hrun|]. split; [|split; [|split; assumption]].
    + split; [exact HRS'|]. pose proof (len_nonneg q). split; [zlia|].
      exists []. rewrite Hp, app_nil_r. split; [reflexivity|].
      rewrite Hl. cbn. split; [reflexivity|exact Hrest].
    + rewrite len_app, len_chunk. lia.
  - subst mid. injection Hjs as <- ->. cbn [negb chunkTypeOf] in HRS.
    destruct (RS_chunk r pos middleChunkType p bs false HRS Hpos Hfit)
      as (r' & Hrun & HRS' & Hi & Hj & Hp & Hl & Hs & Hd);
      [unfold fullChunkType, middleChunkType, lastChunkType; lia|discriminate|].
    exists r', (pos + headerSize + len p), bs.
    split; [apply Hrun|]. split; [|split; [|split; assumption]].
    + split; [exact HRS'|]. pose proof (len_nonneg p). split; [zlia|].
      exists q0. rewrite Hp. split; [reflexivity|].
      rewrite Hl. cbn. exact Hrest.
    + rewrite len_app, len_chunk. lia.
Qed.

(** The loop [for r.i == r.j] of [Read] inside a journal: it stops at
    a payload that has bytes, or at the end of the journal. *)
Lemma advance_ok (fuel : nat) : forall r x pos U q js e ds,
  InChunk r pos U q js e ds -> x_err x = None ->
  len U < Z.of_nat fuel ->
  exists r' pos' U',
    advance fuel r x
    = Ok (r', x, if r_i r' =? r_j r' then Some EOF else None)
    /\ InChunk r' pos' U' q js e ds
    /\ (r_i r' = r_j r' -> r_last r' = true)
    /\ r_j r' - r_i r' + len U' <= r_j r - r_i r + len U
    /\ same r r' /\ r_dropper r' = r_dropper r.
Proof.
  induction fuel as [|fuel IH]; intros r x pos U q js e ds Hin Hx Hfuel.
  - pose proof (len_nonneg U). lia.
  - cbn [advance].
    destruct (Z.eqb_spec (r_i r) (r_j r)) as [Heq|Hne].
    + destruct (r_last r) eqn:Hlast.
      * exists r, pos, U. rewrite Heq, Z.eqb_refl.
        split; [reflexivity|]. split; [exact Hin|]. split; [auto|].
        split; [lia|]. split; [apply same_refl|reflexivity].
      * destruct Hin as (HRS & Hij & q' & Hq & Hseg). rewrite Hlast in Hseg.
        destruct (nextChunk_mid _ _ _ _ _ _ Hseg eq_refl q' js r eq_refl HRS)
          as (r1 & pos1 & U1 & Hrun & Hin1 & Hm & Hs & Hd).
        rewrite Hrun. cbn [bind].
        assert (Ex : mkSingleReader (x_seq x) None = x)
          by (destruct x; cbn [x_err x_seq] in *; now subst).
        rewrite Ex.
        rewrite slice_nil in Hq by lia. cbn [app] in Hq. subst q'.
        pose proof Hin1 as (_ & Hij1 & _).
        destruct (IH r1 x pos1 U1 q js e ds Hin1 Hx ltac:(zlia))
          as (r' & pos' & U' & Hrun' & Hin' & Hl' & Hm' & Hs' & Hd').
        exists r', pos', U'. split; [exact Hrun'|]. split; [exact Hin'|].
        split; [exact Hl'|]. split; [zlia|].
        split; [eapply same_trans; eassumption|congruence].
    + exists r, pos, U. apply Z.eqb_neq in Hne. rewrite Hne.
      split; [reflexivity|]. split; [exact Hin|].
      split; [intros H; apply Z.eqb_neq in Hne; contradiction|].
      split; [lia|]. split; [apply same_refl|reflexivity].
Qed.

(** [ioutil.ReadAll] on a session reads its journal to the end. *)
Lemma ReadAll_loop_ok (fuel : nat) : forall lenp r x pos U q js e ds acc,
  (forall k, 0 < lenp k) ->
  InChunk r pos U q js e ds -> x_seq x = r_seq r -> x_err x = None ->
  r_j r - r_i r + len U < Z.of_nat fuel ->
  exists r' pos' U',
    ReadAll_loop fuel r x lenp acc = Ok (r', acc ++ q, None)
    /\ RS r' pos' U' /\ Seg pos' false js U' e ds
    /\ len U' <= r_j r - r_i r + len U
    /\ same r r' /\ r_dropper r' = r_dropper r.
Proof.
  induction fuel as [|fuel IH];
    intros lenp r x pos U q js e ds acc Hlenp Hin Hseq Hx Hfuel.
  - destruct Hin as (HRS & Hij & _). pose proof (len_nonneg U). lia.
  - cbn [ReadAll_loop]. unfold Read.
    rewrite Hseq, Z.eqb_refl, Hx. cbn [negb].
    pose proof Hin as (HRS & Hij & _).
    pose proof HRS as (_ & Herr & _). rewrite Herr.
    destruct (advance_ok (budget r) r x pos U q js e ds Hin Hx)
      as (r1 & pos1 & U1 & Hrun & Hin1 & Hl1 & Hm1 & Hs1 & Hd1).
    { pose proof (budget_bound r pos U HRS ltac:(lia)). lia. }
    rewrite Hrun. cbn [bind].
    destruct Hin1 as (HRS1 & Hij1 & q' & Hq & Hseg1).
    destruct (Z.eqb_spec (r_i r1) (r_j r1)) as [Heq|Hne].
    + rewrite (Hl1 Heq) in Hseg1. destruct Hseg1 as [-> Hseg1].
      rewrite slice_nil, app_nil_r in Hq by lia. subst q.
      exists r1, pos1, U1. cbn [bind]. split; [reflexivity|].
      split; [exact HRS1|]. split; [exact Hseg1|]. split; [lia|].
      split; assumption.
    + cbn [bind].
      set (n := Z.min (lenp 0%nat) (r_j r1 - r_i r1)).
      assert (Hn : 1 <= n <= r_j r1 - r_i r1)
        by (pose proof (Hlenp 0%nat); unfold n; lia).
      pose proof (RS_bound r1 pos1 U1 HRS1) as (Hj1 & _).
      pose proof HRS1 as (Hlen1 & _).
      destruct (IH (fun k => lenp (S k)) (r_set_i r1 (r_i r1 + n)) x pos1 U1
                  (slice (r_buf r1) (r_i r1 + n) (r_j r1) ++ q') js e ds
                  (acc ++ slice (r_buf r1) (r_i r1) (r_i r1 + n))
                  (fun k => Hlenp (S k)))
        as (r' & pos' & U' & Hrun' & HRS' & Hseg' & Hm' & Hs' & Hd').
      * split; [now apply RS_set_i|].
        destruct r1 as [rr rd rs rc rq ri rj rn rl re rb].
        cbn [r_i r_j r_buf r_last r_set_i] in *.
        split; [lia|]. exists q'. split; [reflexivity|exact Hseg1].
      * destruct Hs1 as (Hq1 & _). rewrite Hseq, <- Hq1. destruct r1; reflexivity.
      * exact Hx.
      * destruct r1 as [rr rd rs rc rq ri rj rn rl re rb].
        cbn [r_i r_j r_buf r_last r_set_i] in *. lia.
      * exists r', pos', U'. split.
        { rewrite Hrun', Hq.
          rewrite (slice_split (r_buf r1) (r_i r1) (r_i r1 + n) (r_j r1)) by lia.
          rewrite <- !app_assoc. reflexivity. }
        split; [exact HRS'|]. split; [exact Hseg'|].
        split; [destruct r1; cbn [r_i r_j r_set_i] in *; lia|].
        split.
        -- eapply same_trans; [exact Hs1|]. destruct r1; exact Hs'.
        -- rewrite Hd'. destruct r1; exact Hd1.
Qed.

(** [Reader.Next]'s loop at the start of a journal, or at the end of
    the input. *)
Lemma Next_loop_ok pos mid js U e ds :
  Seg pos mid js U e ds -> mid = false ->
  forall r fuel, RS r pos U -> (ds <> [] -> r_strict r = false) ->
  len U < Z.of_nat fuel ->
  match js with
  | [] =>
      exists r', Next_loop fuel r = Ok (r', None, Some EOF)
        /\ same r r' /\ r_dropper r' = add_drops (r_dropper r) ds
  | q :: js' =>
      exists r' pos' U' ds1 ds2,
        Next_loop fuel r = Ok (r', Some (mkSingleReader (r_seq r) None), None)
        /\ InChunk r' pos' U' q js' e ds2
        /\ r_j r' - r_i r' + len U' + headerSize <= len U
        /\ ds = ds1 ++ ds2
        /\ same r r' /\ r_dropper r' = add_drops (r_dropper r) ds1
  end.
Proof.
  induction 1 as [pos
                 |pos mid js bs e ds Hpos _ IH
                 |pos mid p js bs e ds Hpos Hfit Hrest _
                 |pos mid p q0 js bs e ds Hpos Hfit Hrest _
                 |pos js bs e ds Hpos Hfit _ IH];
    intros Hmid r fuel HRS Hstrict Hfuel.
  - destruct fuel as [|fuel]; [cbn in Hfuel; lia|].
    cbn [Next_loop]. unfold nextChunk. rewrite (RS_eof r pos 1 HRS).
    cbn [bind is_errSkip]. eexists. split; [reflexivity|].
    split; [destruct r; repeat split|]. rewrite add_drops_nil. destruct r; reflexivity.
  - apply RS_pad in HRS; [|exact Hpos].
    assert (Hfuel' : len bs < Z.of_nat fuel).
    { rewrite len_app, len_zeros in Hfuel by zlia. zlia. }
    specialize (IH Hmid r fuel HRS Hstrict Hfuel').
    destruct js as [|q js']; [exact IH|].
    destruct IH as (r' & pos' & U' & ds1 & ds2 & Hrun & Hin & Hm & Hds & Hs & Hd).
    exists r', pos', U', ds1, ds2. split; [exact Hrun|]. split; [exact Hin|].
    split; [rewrite len_app, len_zeros by zlia; zlia|]. auto.
  - subst mid. cbn [negb chunkTypeOf] in HRS, Hfuel.
    destruct (RS_chunk r pos fullChunkType p bs true HRS Hpos Hfit)
      as (r' & Hrun & HRS' & Hi & Hj & Hp & Hl & Hs & Hd);
      [unfold fullChunkType, lastChunkType; lia|now left|].
    destruct fuel as [|fuel]; [pose proof (len_nonneg (chunk fullChunkType p ++ bs)); lia|].
    cbn [Next_loop]. unfold nextChunk. rewrite Hrun. cbn [bind].
    exists r', (pos + headerSize + len p), bs, [], ds.
    pose proof (len_nonneg p).
    split; [destruct Hs as (-> & _); reflexivity|]. split.
    + split; [exact HRS'|]. split; [zlia|].
      exists []. rewrite Hp, app_nil_r. split; [reflexivity|].
      rewrite Hl. cbn. split; [reflexivity|exact Hrest].
    + split; [rewrite len_app, len_chunk; lia|]. split; [reflexivity|].
      split; [exact Hs|]. now rewrite add_drops_nil.
  - subst mid. cbn [negb chunkTypeOf] in HRS, Hfuel.
    destruct (RS_chunk r pos firstChunkType p bs true HRS Hpos Hfit)
      as (r' & Hrun & HRS' & Hi & Hj & Hp & Hl & Hs & Hd);
      [unfold fullChunkType, firstChunkType, lastChunkType; lia|now right|].
    destruct fuel as [|fuel]; [pose proof (len_nonneg (chunk firstChunkType p ++ bs)); lia|].
    cbn [Next_loop]. unfold nextChunk. rewrite Hrun. cbn [bind].
    exists r', (pos + headerSize + len p), bs, [], ds.
    pose proof (len_nonneg p).
    split; [destruct Hs as (-> & _); reflexivity|]. split.
    + split; [exact HRS'|]. split; [zlia|].
      exists q0. rewrite Hp. split; [reflexivity|].
      rewrite Hl. cbn. exact Hrest.
    + split; [rewrite len_app, len_chunk; lia|]. split; [reflexivity|].
      split; [exact Hs|]. now rewrite add_drops_nil.
  - assert (Hst : r_strict r = false) by (apply Hstrict; discriminate).
    destruct (RS_zero r pos bs true HRS Hpos Hfit Hst)
      as (r1 & Hrun & HRS1 & Hij & Hs1 & Hd1).
    rewrite len_app, len_zeros in Hfuel by zlia.
    destruct fuel as [|fuel]; [pose proof (len_nonneg bs); zlia|].
    cbn [Next_loop]. unfold nextChunk. rewrite Hrun. cbn [bind is_errSkip].
    assert (Hst1 : r_strict r1 = false) by (destruct Hs1 as (_ & -> & _); exact Hst).
    specialize (IH Hmid r1 fuel HRS1 (fun _ => Hst1) ltac:(zlia)).
    destruct js as [|q js'].
    + destruct IH as (r' & Hrun' & Hs' & Hd').
      exists r'. split; [exact Hrun'|]. split; [eapply same_trans; eassumption|].
      rewrite Hd', Hd1, add_drops_app. reflexivity.
    + destruct IH as (r' & pos' & U' & ds1 & ds2 & Hrun' & Hin & Hm & Hds & Hs' & Hd').
      exists r', pos', U',
        (mkErrCorrupted (blockSize - pos) "zero header" :: ds1), ds2.
      split; [rewrite Hrun'; destruct Hs1 as (-> & _); reflexivity|].
      split; [exact Hin|].
      split; [rewrite len_app, len_zeros by zlia; zlia|].
      split; [rewrite Hds; reflexivity|].
      split; [eapply same_trans; eassumption|].
      rewrite Hd', Hd1, add_drops_app. reflexivity.
Qed.

(** The loop of [read]: every journal of the layout, in order. *)
Lemma read_loop_ok (lenp : nat -> Z) (js : list (list byte)) :
  forall r pos U e ds ss fuel,
  (forall k, 0 < lenp k) -> Seg pos false js U e ds -> RS r pos U ->
  (ds <> [] -> r_strict r = false) -> len U < Z.of_nat fuel ->
  exists r',
    read_loop fuel r lenp ss = Ok (ss ++ js, None, r')
    /\ r_dropper r' = add_drops (r_dropper r) ds.
Proof.
  induction js as [|q js IH];
    intros r pos U e ds ss fuel Hlenp Hseg HRS Hstrict Hfuel.
  all: destruct fuel as [|fuel]; [pose proof (len_nonneg U); lia|].
  all: cbn [read_loop]; unfold Reader_Next.
  all: destruct r as [rr rd rs rc rq ri rj rn rl re rb].
  all: pose proof HRS as (_ & Herr & _); cbn [r_err] in Herr; subst re.
  all: simpl_r; cbn [r_strict] in Hstrict.
  all: set (r1 := mkReader rr rd rs rc (int (rq + 1)) rj rj rn rl None rb).
  all: change (r_set_i (r_set_seq _ _) rj) with r1.
  all: assert (HRS1 : RS r1 pos U) by exact HRS.
  all: assert (Hb : len U < Z.of_nat (budget r1))
         by (pose proof (budget_bound r1 pos U HRS1);
             pose proof (RS_bound r1 pos U HRS1); cbn [r_i r_j r1] in *; lia).
  all: pose proof (Next_loop_ok _ _ _ _ _ _ Hseg eq_refl r1 (budget r1) HRS1 Hstrict Hb)
         as Hnext.
  - destruct Hnext as (r' & Hrun & Hs & Hd).
    rewrite Hrun. cbn [bind]. exists r'. rewrite app_nil_r.
    split; [reflexivity|exact Hd].
  - destruct Hnext as (r' & pos' & U' & ds1 & ds2 & Hrun & Hin & Hm & Hds & Hs & Hd).
    rewrite Hrun. cbn [bind]. unfold ReadAll.
    pose proof Hin as (HRS' & Hij' & _).
    destruct (ReadAll_loop_ok (budget r') lenp r' (mkSingleReader (r_seq r1) None)
                pos' U' q js e ds2 [] Hlenp Hin)
      as (r2 & pos2 & U2 & Hrun2 & HRS2 & Hseg2 & Hm2 & Hs2 & Hd2).
    { destruct Hs as (-> & _). reflexivity. }
    { reflexivity. }
    { apply (budget_bound r' pos' U' HRS'). lia. }
    rewrite Hrun2. cbn [bind app].
    destruct (IH r2 pos2 U2 e ds2 (ss ++ [q]) fuel Hlenp Hseg2 HRS2)
      as (r3 & Hrun3 & Hd3).
    { intros Hne. destruct Hs2 as (_ & -> & _). destruct Hs as (_ & -> & _).
      apply Hstrict. subst ds. destruct ds1; [exact Hne|discriminate]. }
    { zlia. }
    exists r3. rewrite Hrun3, <- app_assoc. split; [reflexivity|].
    rewrite Hd3, Hd2, Hd, add_drops_app, Hds. reflexivity.
Qed.

(** ** Writing, then reading *)

Lemma wf_NewWriter (f : bool) : wf (NewWriter [] f).
Proof.
  unfold wf, NewWriter. simpl_w. split; [apply len_zeros; zlia|].
  split; [reflexivity|]. zlia.
Qed.

(** [write] never fails, and what it sends is the journals laid out
    from the start of a block. *)
Lemma write_Seg (js : list (list byte)) :
  exists out e, write js = Ok (out, None) /\ Seg 0 false js out e [].
Proof.
  destruct (write_loop_ok js (NewWriter [] false) (wf_NewWriter false))
    as (w' & Y & e & Hrun & Hout & Hseg).
  exists Y, e. unfold write. rewrite Hrun. cbn [bind fst snd].
  split; [|exact Hseg]. rewrite Hout. reflexivity.
Qed.

(** [read] on a layout returns its journals, and the dropper has the
    drops of the layout. *)
Lemma read_Seg (js : list (list byte)) (U : list byte) (e : Z)
    (ds : list ErrCorrupted) (dropper : option (list ErrCorrupted))
    (strict checksum : bool) (lenp : nat -> Z) :
  (forall k, 0 < lenp k) -> Seg 0 false js U e ds ->
  (ds <> [] -> strict = false) ->
  exists r',
    read U dropper strict checksum lenp = Ok (js, None, r')
    /\ r_dropper r' = add_drops dropper ds.
Proof.
  intros Hlenp Hseg Hstrict. unfold read.
  set (r := NewReader U dropper strict checksum).
  assert (Hb : len (r_buf r) = blockSize) by (apply len_zeros; zlia).
  assert (HRS : RS r 0 U).
  { split; [exact Hb|]. split; [reflexivity|]. right.
    cbn [r r_r r_j r_n NewReader]. repeat split; try zlia. }
  destruct (read_loop_ok lenp js r 0 U e ds [] (budget r) Hlenp Hseg HRS Hstrict)
    as (r' & Hrun & Hd).
  { unfold budget. change (r_r r) with U. unfold len in *. lia. }
  exists r'. split; [exact Hrun|exact Hd].
Qed.

(** C1: writing any journals with [Next], [Write] and a final [Close],
    then reading the bytes sent with [Next] and [Read], returns the
    same journals, as many, in the same order and with the same bytes.
    It holds for empty journals and for journals longer than a block,
    for either setting of the strict and checksum flags, and whatever
    the sizes [lenp] of the buffers handed to [Read], none of them
    empty; nothing is reported to the dropper. *)
Theorem round_trip (js : list (list byte)) (dropper : option (list ErrCorrupted))
    (strict checksum : bool) (lenp : nat -> Z) :
  (forall k, 0 < lenp k) ->
  exists out r',
    write js = Ok (out, None)
    /\ read out dropper strict checksum lenp = Ok (js, None, r')
    /\ r_dropper r' = dropper.
Proof.
  intros Hlenp.
  destruct (write_Seg js) as (out & e & Hw & Hseg).
  destruct (read_Seg js out e [] dropper strict checksum lenp Hlenp Hseg)
    as (r' & Hr & Hd); [intros H; now contradiction H|].
  exists out, r'. split; [exact Hw|]. split; [exact Hr|].
  now rewrite add_drops_nil in Hd.
Qed.

(** ** A block of zeros between journals *)

Lemma Seg_app pos mid js bs e ds :
  Seg pos mid js bs e ds ->
  forall js' bs' e' ds', Seg e false js' bs' e' ds' ->
  Seg pos mid (js ++ js') (bs ++ bs') e' (ds ++ ds').
Proof.
  induction 1 as [pos
                 |pos mid js bs e ds Hpos _ IH
                 |pos mid p js bs e ds Hpos Hfit _ IH
                 |pos mid p q0 js bs e ds Hpos Hfit _ IH
                 |pos js bs e ds Hpos Hfit _ IH];
    intros js' bs' e' ds' Hnext; cbn [app]; rewrite <- ?app_assoc.
  - exact Hnext.
  - apply Seg_pad; auto.
  - apply Seg_final; auto.
  - apply Seg_part; auto. exact (IH js' bs' e' ds' Hnext).
  - apply Seg_zero; auto.
Qed.

(** Where a layout ends, from its length. *)
Lemma Seg_end_pos pos mid js bs e ds :
  Seg pos mid js bs e ds -> 0 <= pos <= blockSize ->
  0 <= e <= blockSize /\ exists k, pos + len bs = k * blockSize + e.
Proof.
  induction 1 as [pos
                 |pos mid js bs e ds Hpos _ IH
                 |pos mid p js bs e ds Hpos Hfit _ IH
                 |pos mid p q0 js bs e ds Hpos Hfit _ IH
                 |pos js bs e ds Hpos Hfit _ IH];
    intros Hrange.
  - split; [exact Hrange|]. exists 0. change (len (@nil byte)) with 0. lia.
  - destruct IH as (He & k & Hk); [zlia|]. split; [exact He|].
    exists (k + 1). rewrite len_app, len_zeros by zlia. lia.
  - pose proof (len_nonneg p).
    destruct IH as (He & k & Hk); [zlia|]. split; [exact He|].
    exists k. rewrite len_app, len_chunk. lia.
  - pose proof (len_nonneg p).
    destruct IH as (He & k & Hk); [zlia|]. split; [exact He|].
    exists k. rewrite len_app, len_chunk. lia.
  - destruct IH as (He & k & Hk); [zlia|]. split; [exact He|].
    exists (k + 1). rewrite len_app, len_zeros by zlia. lia.
Qed.

(** The drop a reader reports for the rest of a block that ends at
    offset [t] and is zero from there, when a header fits in it. *)
Definition tail_drop (t : Z) : list ErrCorrupted :=
  if (0 <? t) && (t + headerSize <=? blockSize)
  then [mkErrCorrupted (blockSize - t) "zero header"]
  else [].

Lemma neg_mod_blockSize (t : Z) :
  0 < t < blockSize -> (- t) mod blockSize = blockSize - t.
Proof.
  intros H. rewrite <- (Z_mod_plus_full (- t) 1 blockSize).
  replace (- t + 1 * blockSize) with (blockSize - t) by lia.
  apply Z.mod_small. lia.
Qed.

(** The rest of a block, zero, then a block of zeros, before a layout
    that starts a block. *)
Lemma Seg_gap (t : Z) js bs e ds :
  0 <= t <= blockSize -> Seg 0 false js bs e ds ->
  Seg t false js (zeros ((- t) mod blockSize) ++ zeros blockSize ++ bs) e
    (tail_drop (t mod blockSize) ++ mkErrCorrupted blockSize "zero header" :: ds).
Proof.
  intros Ht Hseg.
  assert (Hz : Seg 0 false js (zeros blockSize ++ bs) e
                 (mkErrCorrupted blockSize "zero header" :: ds)).
  { apply (Seg_zero 0 js bs e ds); [lia|zlia|exact Hseg]. }
  destruct (Z.eq_dec t 0) as [->|Hne0]; [exact Hz|].
  destruct (Z.eq_dec t blockSize) as [->|HneB].
  { apply (Seg_pad blockSize false js _ e _); [zlia|exact Hz]. }
  rewrite neg_mod_blockSize, Z.mod_small by lia. unfold tail_drop.
  destruct (Z.leb_spec (t + headerSize) blockSize) as [Hroom|Htight].
  - replace (0 <? t) with true by (symmetry; apply Z.ltb_lt; lia).
    cbn [andb app]. apply Seg_zero; [lia|exact Hroom|exact Hz].
  - rewrite andb_false_r. cbn [app]. apply Seg_pad; [zlia|exact Hz].
Qed.

(** C7: take the bytes written for the journals [js1], fill their last
    block with zeros, add a block of 32768 zeros, then the bytes
    written for the journals [js2].  A reader that is not strict
    returns [js1] and then [js2], every journal with its bytes: it
    reports the block of zeros to the dropper as a zero header, the
    whole block dropped, after the drop of the zero tail before it if
    a header fits there. *)
Theorem zero_block_skipped (js1 js2 : list (list byte))
    (dropper : option (list ErrCorrupted)) (checksum : bool) (lenp : nat -> Z) :
  (forall k, 0 < lenp k) ->
  exists out1 out2 r',
    write js1 = Ok (out1, None) /\ write js2 = Ok (out2, None)
    /\ read (out1 ++ zeros ((- len out1) mod blockSize) ++ zeros blockSize ++ out2)
         dropper false checksum lenp
       = Ok (js1 ++ js2, None, r')
    /\ r_dropper r'
       = add_drops dropper
           (tail_drop (len out1 mod blockSize)
            ++ [mkErrCorrupted blockSize "zero header"]).
Proof.
  intros Hlenp.
  destruct (write_Seg js1) as (out1 & e1 & Hw1 & Hseg1).
  destruct (write_Seg js2) as (out2 & e2 & Hw2 & Hseg2).
  destruct (Seg_end_pos _ _ _ _ _ _ Hseg1 ltac:(zlia)) as (He1 & k & Hk).
  rewrite Z.add_0_l in Hk.
  pose proof (Seg_app _ _ _ _ _ _ Hseg1 _ _ _ _ (Seg_gap e1 js2 out2 e2 [] He1 Hseg2))
    as Hseg.
  assert (E1 : (- e1) mod blockSize = (- len out1) mod blockSize).
  { rewrite Hk. replace (- (k * blockSize + e1)) with (- e1 + (- k) * blockSize) by lia.
    now rewrite Z_mod_plus_full. }
  assert (E2 : e1 mod blockSize = len out1 mod blockSize).
  { rewrite Hk, Z.add_comm. now rewrite Z_mod_plus_full. }
  rewrite E1, E2 in Hseg. cbn [app] in Hseg.
  destruct (read_Seg _ _ _ _ dropper false checksum lenp Hlenp Hseg (fun _ => eq_refl))
    as (r' & Hr & Hd).
  exists out1, out2, r'. repeat split; assumption.
Qed.

(** ** Every sequence of calls on a writer *)

(** The calls a client can make.  [CallWrite h p] writes [p] to the
    session that the [h]-th successful [Next] returned. *)
Inductive call : Type :=
| CallNext
| CallWrite (h : nat) (p : list byte)
| CallFlush
| CallClose
| CallReset (f : bool).

(** A client: its writer, the sessions it was given, and the sinks it
    took the writer away from, each with the bytes it received. *)
Record client : Type := mkClient {
  c_w : Writer;
  c_sessions : list singleWriter;
  c_sinks : list (list byte)
}.

(** The bytes in the sink that a [Reset] leaves. *)
Definition Reset_leaves (w : Writer) : res (list byte) :=
  match w_err w with
  | None => w' <- writePending (w_set_seq w (int (w_seq w + 1))) ;; Ok (w_w w')
  | Some _ => Ok (w_w w)
  end.

Definition call_step (c : client) (o : call) : res client :=
  match o with
  | CallNext =>
      a <- Writer_Next (c_w c) ;;
      match a with
      | (w, Some y, _) => Ok (mkClient w (c_sessions c ++ [y]) (c_sinks c))
      | (w, None, _) => Ok (mkClient w (c_sessions c) (c_sinks c))
      end
  | CallWrite h p =>
      match nth_error (c_sessions c) h with
      | Some y =>
          a <- Write (c_w c) y p ;;
          Ok (mkClient (fst (fst a)) (c_sessions c) (c_sinks c))
      | None => Ok c
      end
  | CallFlush =>
      a <- Writer_Flush (c_w c) ;;
      Ok (mkClient (fst a) (c_sessions c) (c_sinks c))
  | CallClose =>
      a <- Writer_Close (c_w c) ;;
      Ok (mkClient (fst a) (c_sessions c) (c_sinks c))
  | CallReset f =>
      old <- Reset_leaves (c_w c) ;;
      a <- Writer_Reset (c_w c) [] f ;;
      Ok (mkClient (fst a) (c_sessions c) (c_sinks c ++ [old]))
  end.

Fixpoint calls (c : client) (os : list call) : res client :=
  match os with
  | [] => Ok c
  | o :: os' => c' <- call_step c o ;; calls c' os'
  end.

Lemma chunkTypeOf_range (last first : bool) :
  fullChunkType <= chunkTypeOf last first <= lastChunkType.
Proof.
  destruct last, first; cbn [chunkTypeOf];
    unfold fullChunkType, firstChunkType, middleChunkType, lastChunkType; lia.
Qed.

(** The chunks a [Write] sends fill the blocks they are in. *)
Lemma Spill_Packed i first q p Y i' first' q' :
  Spill i first q p Y i' first' q' -> 0 <= i ->
  forall bs e, Packed i' bs e -> Packed i (Y ++ bs) e.
Proof.
  induction 1 as [i first q
                 |i first q p Y i' first' q' Hp Hroom _ IH
                 |i first q p Y i' first' q' Hp Hfull _ IH];
    intros Hi bs e Hrest.
  - exact Hrest.
  - exact (IH Hi bs e Hrest).
  - specialize (IH (Z.le_refl 0) bs e Hrest). rewrite <- app_assoc.
    apply Packed_chunk; [exact Hi|lia|apply chunkTypeOf_range|].
    rewrite Hfull.
    change (Y ++ bs) with (zeros (blockSize - blockSize) ++ Y ++ bs).
    apply Packed_pad; [zlia|exact IH].
Qed.

(** A sink holds whole blocks, and chunks that stay in their block. *)
Definition packed (s : list byte) : Prop := exists e, Packed 0 s e.

(** Up to where the chunks of the buffer are closed. *)
Definition settled (w : Writer) : Z := if w_pending w then w_i w else w_j w.

(** What the sink has and what the buffer still owes it are chunks in
    their blocks, whatever follows. *)
Definition tidy (w : Writer) : Prop :=
  forall bs e, Packed (settled w) bs e ->
  Packed 0 (w_w w ++ slice (w_buf w) (w_written w) (settled w) ++ bs) e.

Lemma tidy_pending (w : Writer) :
  wf w -> tidy w ->
  forall bs e, Packed (w_j w) bs e -> Packed 0 (w_w w ++ pending_bytes w ++ bs) e.
Proof.
  intros (Hlen & Herr & Hpos) Ht bs e Hp.
  unfold tidy, settled, pending_bytes in *. destruct (w_pending w).
  - rewrite <- app_assoc. apply Ht.
    assert (Hq : len (slice (w_buf w) (w_i w + headerSize) (w_j w))
                 = w_j w - (w_i w + headerSize)) by (rewrite len_slice; zlia).
    apply Packed_chunk; [lia|rewrite Hq; lia|apply chunkTypeOf_range|].
    rewrite Hq.
    replace (w_i w + headerSize + (w_j w - (w_i w + headerSize))) with (w_j w) by lia.
    exact Hp.
  - apply Ht. exact Hp.
Qed.

Lemma tidy_packed (w : Writer) :
  tidy w -> w_written w = settled w -> packed (w_w w).
Proof.
  intros Ht Hw. exists (settled w).
  specialize (Ht [] (settled w) (Packed_end _)).
  rewrite Hw, slice_nil, !app_nil_r in Ht by lia. exact Ht.
Qed.

Lemma writePending_tidy (w : Writer) :
  wf w -> tidy w ->
  exists w',
    writePending w = Ok w' /\ wf w' /\ tidy w' /\ packed (w_w w')
    /\ w_seq w' = w_seq w /\ w_pending w' = false.
Proof.
  intros Hwf Ht.
  destruct (writePending_ok w Hwf)
    as (w' & Hrun & Hout & Hwf' & Hp' & Hwr' & Hj' & Hs' & _).
  assert (Ht' : tidy w').
  { intros bs e Hp. unfold settled in *. rewrite Hp' in *.
    rewrite Hwr', Hj', slice_nil by lia. cbn [app]. rewrite Hout, <- app_assoc.
    apply tidy_pending; [exact Hwf|exact Ht|]. now rewrite <- Hj'. }
  exists w'. split; [exact Hrun|]. split; [exact Hwf'|]. split; [exact Ht'|].
  split; [|split; assumption].
  apply tidy_packed; [exact Ht'|]. unfold settled. rewrite Hp'. congruence.
Qed.

(** A session is live while its writer has not moved on. *)
Definition live (w : Writer) : Prop := w_err w = None /\ w_pending w = true.

(** A session the client holds came from one of the calls so far, and
    the writer is at it if it came from the last of them. *)
Definition known (k : Z) (w : Writer) (y : singleWriter) : Prop :=
  exists ky, 0 < ky <= k /\ y_seq y = int ky /\ (ky = k -> live w).

(** What holds of a client after calls of which [k] moved the writer
    on. *)
Definition Inv (k : Z) (c : client) : Prop :=
  0 <= k /\ w_seq (c_w c) = int k /\ len (w_buf (c_w c)) = blockSize
  /\ packed (w_w (c_w c)) /\ Forall packed (c_sinks c)
  /\ (w_err (c_w c) = None -> wf (c_w c) /\ tidy (c_w c))
  /\ Forall (known k (c_w c)) (c_sessions c).

Lemma known_older (k : Z) (w w' : Writer) (hs : list singleWriter) :
  Forall (known k w) hs -> Forall (known (k + 1) w') hs.
Proof.
  apply Forall_impl. intros y (ky & Hk & Hy & _).
  exists ky. split; [lia|]. split; [exact Hy|]. intros; lia.
Qed.

Lemma int_inj (a b : Z) :
  0 <= a < 2 ^ 64 -> 0 <= b < 2 ^ 64 -> int a = int b -> a = b.
Proof.
  unfold int. intros Ha Hb H.
  pose proof (Z.div_mod (a + 2 ^ 63) (2 ^ 64) ltac:(lia)).
  pose proof (Z.div_mod (b + 2 ^ 63) (2 ^ 64) ltac:(lia)).
  pose proof (Z.mod_pos_bound (a + 2 ^ 63) (2 ^ 64) ltac:(lia)).
  lia.
Qed.

(** A writer with an error: every call but [Reset] only moves it on. *)
Lemma Inv_err (k : Z) (w : Writer) hs sinks :
  Inv k (mkClient w hs sinks) -> w_err w <> None ->
  Inv (k + 1) (mkClient (w_set_seq w (int (w_seq w + 1))) hs sinks).
Proof.
  intros (Hk & Hseq & Hlen & Hpk & Hsinks & Hok & Hhs) Herr.
  destruct w as [ww ws wf0 wi wj wwr wfi wp we wb].
  unfold Inv in *. cbn [c_w c_sessions c_sinks] in *. simpl_w.
  cbn [w_seq w_buf w_w w_err] in *. subst ws.
  split; [lia|]. split; [apply int_int_add|]. split; [exact Hlen|].
  split; [exact Hpk|]. split; [exact Hsinks|]. split; [intros; contradiction|].
  eapply known_older; exact Hhs.
Qed.

Lemma Inv_Next (k : Z) (c : client) :
  Inv k c -> exists c', call_step c CallNext = Ok c' /\ Inv (k + 1) c'.
Proof.
  intros HInv. destruct c as [w hs sinks]. cbn [call_step c_w c_sessions c_sinks].
  destruct (w_err w) as [err|] eqn:Herr.
  - pose proof (Inv_err k w hs sinks HInv ltac:(congruence)) as H.
    unfold Writer_Next. cbn zeta.
    replace (w_err (w_set_seq w (int (w_seq w + 1)))) with (Some err)
      by (destruct w; symmetry; exact Herr).
    cbn [bind]. eexists. split; [reflexivity|exact H].
  - destruct HInv as (Hk & Hseq & Hlen & Hpk & Hsinks & Hok & Hhs).
    cbn [c_w c_sessions c_sinks] in *.
    destruct (Hok Herr) as (Hwf & Ht).
    destruct (Writer_Next_ok w Hwf)
      as (w1 & y & Hnext & Hy & Hs1 & _ & Hwf1 & Hp1 & Hf1 & Hj1 & Hcase).
    rewrite Hnext. cbn [bind]. eexists. split; [reflexivity|].
    assert (Ht1 : tidy w1).
    { intros bs e Hp. unfold settled in *. rewrite Hp1 in *.
      destruct Hcase as [(Hroom & Hi1 & _ & Hsame)|(Hpad & Hi1 & Hwr1 & Hsink)].
      - rewrite app_assoc, Hsame, <- app_assoc.
        apply tidy_pending; [exact Hwf|exact Ht|]. now rewrite <- Hi1.
      - rewrite Hwr1, Hi1, slice_nil by lia. cbn [app].
        rewrite Hsink, <- !app_assoc.
        apply tidy_pending; [exact Hwf|exact Ht|].
        rewrite Hi1 in Hp. destruct Hwf as (_ & _ & Hpos).
        apply Packed_pad; [destruct (w_pending w); zlia|exact Hp]. }
    unfold Inv. cbn [c_w c_sessions c_sinks].
    split; [lia|]. split; [rewrite Hs1, Hseq; apply int_int_add|].
    split; [apply Hwf1|]. split.
    { destruct Hcase as [(_ & _ & Hww & _)|(_ & Hi1 & Hwr1 & _)].
      - now rewrite Hww.
      - apply tidy_packed; [exact Ht1|]. unfold settled. rewrite Hp1. congruence. }
    split; [exact Hsinks|]. split; [intros _; split; assumption|].
    apply Forall_app. split; [eapply known_older; exact Hhs|].
    constructor; [|constructor].
    exists (k + 1). split; [lia|]. split.
    + rewrite Hy, Hs1, Hseq. apply int_int_add.
    + intros _. split; [apply Hwf1|exact Hp1].
Qed.

Lemma Inv_Write (k : Z) (c : client) (h : nat) (p : list byte) :
  Inv k c -> k < 2 ^ 64 ->
  exists c', call_step c (CallWrite h p) = Ok c' /\ Inv k c'.
Proof.
  intros HInv Hk64. destruct c as [w hs sinks].
  cbn [call_step c_w c_sessions c_sinks].
  destruct (nth_error hs h) as [y|] eqn:Hnth;
    [|eexists; split; [reflexivity|exact HInv]].
  pose proof HInv as (Hk & Hseq & Hlen & Hpk & Hsinks & Hok & Hhs).
  cbn [c_w c_sessions c_sinks] in *.
  apply nth_error_In in Hnth.
  destruct (proj1 (Forall_forall _ _) Hhs y Hnth) as (ky & Hky & Hy & Hlive).
  unfold Write. rewrite Hseq, Hy.
  destruct (Z.eq_dec ky k) as [->|Hne].
  - rewrite Z.eqb_refl. cbn [negb].
    destruct (Hlive eq_refl) as (Herr & Hp). rewrite Herr.
    destruct (Hok Herr) as (Hwf & Ht).
    destruct (Write_loop_ok (List.length p) p w Hwf Hp (Nat.le_refl _))
      as (w2 & Y & Hrun & Hwf2 & Hp2 & Hs2 & _ & Hspill & Hout & Hcase).
    rewrite Hrun. cbn [bind fst]. eexists. split; [reflexivity|].
    assert (Ht2 : tidy w2).
    { intros bs e Hpacked. unfold tidy, settled in *.
      rewrite Hp2 in Hpacked. rewrite Hp2. rewrite Hp in Ht.
      rewrite app_assoc, Hout, <- !app_assoc. apply Ht.
      destruct Hwf as (_ & _ & Hpos). rewrite Hp in Hpos.
      apply (Spill_Packed _ _ _ _ _ _ _ _ Hspill); [lia|exact Hpacked]. }
    unfold Inv. cbn [c_w c_sessions c_sinks].
    split; [exact Hk|]. split; [congruence|]. split; [apply Hwf2|]. split.
    { destruct Hcase as [(Hww & _)|(Hi2 & Hwr2)].
      - now rewrite Hww.
      - apply tidy_packed; [exact Ht2|]. unfold settled. rewrite Hp2. congruence. }
    split; [exact Hsinks|]. split; [intros _; split; assumption|].
    revert Hhs. apply Forall_impl. intros y' (ky' & Hk' & Hy' & _).
    exists ky'. split; [exact Hk'|]. split; [exact Hy'|].
    intros _. split; [apply Hwf2|exact Hp2].
  - assert (E : (int k =? int ky) = false).
    { apply Z.eqb_neq. intros H. apply int_inj in H; lia. }
    rewrite E. cbn [negb bind fst]. eexists. split; [reflexivity|exact HInv].
Qed.

Lemma wf_set_seq (w : Writer) (q : Z) : wf w -> wf (w_set_seq w q).
Proof. destruct w. exact (fun H => H). Qed.

Lemma tidy_set_seq (w : Writer) (q : Z) : tidy w -> tidy (w_set_seq w q).
Proof. destruct w. exact (fun H => H). Qed.

Lemma set_err_None (w : Writer) : w_err w = None -> w_set_err w None = w.
Proof. destruct w. cbn [w_err w_set_err]. now intros ->. Qed.

(** [writePending] after the sequence number has moved on. *)
Lemma moved_on (k : Z) (w : Writer) :
  w_seq w = int k -> w_err w = None -> wf w -> tidy w ->
  exists w',
    writePending (w_set_seq w (int (w_seq w + 1))) = Ok w'
    /\ wf w' /\ tidy w' /\ packed (w_w w')
    /\ w_seq w' = int (k + 1) /\ w_pending w' = false.
Proof.
  intros Hseq Herr Hwf Ht.
  destruct (writePending_tidy _ (wf_set_seq w (int (w_seq w + 1)) Hwf)
              (tidy_set_seq w (int (w_seq w + 1)) Ht))
    as (w' & Hrun & Hwf' & Ht' & Hpk' & Hs' & Hp').
  exists w'. repeat (split; [assumption|]). split; [|exact Hp'].
  rewrite Hs'. replace (w_seq (w_set_seq w (int (w_seq w + 1)))) with (int (w_seq w + 1))
    by (destruct w; reflexivity).
  rewrite Hseq. apply int_int_add.
Qed.

Lemma writePending_err (w : Writer) :
  w_err w <> None -> writePending w = Ok w.
Proof. unfold writePending. destruct (w_err w); [reflexivity|contradiction]. Qed.

Lemma Inv_Flush (k : Z) (c : client) :
  Inv k c -> exists c', call_step c CallFlush = Ok c' /\ Inv (k + 1) c'.
Proof.
  intros HInv. destruct c as [w hs sinks]. cbn [call_step c_w c_sessions c_sinks].
  unfold Writer_Flush. cbn zeta.
  destruct (w_err w) as [err|] eqn:Herr.
  - pose proof (Inv_err k w hs sinks HInv ltac:(congruence)) as H.
    assert (Herr1 : w_err (w_set_seq w (int (w_seq w + 1))) = Some err)
      by (destruct w; exact Herr).
    rewrite writePending_err by congruence. cbn [bind]. rewrite Herr1.
    cbn [fst]. eexists. split; [reflexivity|exact H].
  - destruct HInv as (Hk & Hseq & Hlen & Hpk & Hsinks & Hok & Hhs).
    cbn [c_w c_sessions c_sinks] in *.
    destruct (Hok Herr) as (Hwf & Ht).
    destruct (moved_on k w Hseq Herr Hwf Ht)
      as (w' & Hrun & Hwf' & Ht' & Hpk' & Hs' & Hp').
    rewrite Hrun. cbn [bind].
    pose proof Hwf' as (Hlen' & Herr' & _). rewrite Herr'.
    assert (Hres : exists e,
              (if w_f w' then Ok (w_set_err w' None, w_err (w_set_err w' None))
               else Ok (w', None)) = Ok (w', e)).
    { rewrite (set_err_None w' Herr'). destruct (w_f w'); eexists; reflexivity. }
    destruct Hres as (e & ->). cbn [bind fst].
    eexists. split; [reflexivity|].
    unfold Inv. cbn [c_w c_sessions c_sinks].
    split; [lia|]. split; [exact Hs'|]. split; [exact Hlen'|].
    split; [exact Hpk'|]. split; [exact Hsinks|].
    split; [intros _; split; assumption|].
    eapply known_older; exact Hhs.
Qed.

Lemma Inv_Close (k : Z) (c : client) :
  Inv k c -> exists c', call_step c CallClose = Ok c' /\ Inv (k + 1) c'.
Proof.
  intros HInv. destruct c as [w hs sinks]. cbn [call_step c_w c_sessions c_sinks].
  unfold Writer_Close. cbn zeta.
  destruct (w_err w) as [err|] eqn:Herr.
  - pose proof (Inv_err k w hs sinks HInv ltac:(congruence)) as H.
    assert (Herr1 : w_err (w_set_seq w (int (w_seq w + 1))) = Some err)
      by (destruct w; exact Herr).
    rewrite writePending_err by congruence. cbn [bind]. rewrite Herr1.
    cbn [fst]. eexists. split; [reflexivity|exact H].
  - destruct HInv as (Hk & Hseq & Hlen & Hpk & Hsinks & Hok & Hhs).
    cbn [c_w c_sessions c_sinks] in *.
    destruct (Hok Herr) as (Hwf & Ht).
    destruct (moved_on k w Hseq Herr Hwf Ht)
      as (w' & Hrun & Hwf' & Ht' & Hpk' & Hs' & Hp').
    rewrite Hrun. cbn [bind].
    pose proof Hwf' as (Hlen' & Herr' & _). rewrite Herr'. cbn [bind fst].
    eexists. split; [reflexivity|].
    unfold Inv. cbn [c_w c_sessions c_sinks].
    destruct w' as [ww ws wf0 wi wj wwr wfi wp we wb]. simpl_w.
    cbn [w_seq w_buf w_w] in *.
    split; [lia|]. split; [exact Hs'|]. split; [exact Hlen'|].
    split; [exact Hpk'|]. split; [exact Hsinks|].
    split; [discriminate|].
    eapply known_older; exact Hhs.
Qed.

(** A writer that was just given an empty sink. *)
Lemma fresh_writer (q : Z) (f : bool) (b : list byte) :
  len b = blockSize ->
  wf (mkWriter [] q f 0 0 0 false false None b)
  /\ tidy (mkWriter [] q f 0 0 0 false false None b).
Proof.
  intros Hb. split.
  - unfold wf. simpl_w. split; [exact Hb|]. split; [reflexivity|zlia].
  - intros bs e Hp. unfold settled in *. simpl_w. cbn [w_pending w_j] in Hp.
    rewrite slice_nil by lia. exact Hp.
Qed.

Lemma Inv_Reset (k : Z) (c : client) (f : bool) :
  Inv k c -> exists c', call_step c (CallReset f) = Ok c' /\ Inv (k + 1) c'.
Proof.
  intros HInv. destruct c as [w hs sinks]. cbn [call_step c_w c_sessions c_sinks].
  unfold Reset_leaves, Writer_Reset. cbn zeta.
  destruct HInv as (Hk & Hseq & Hlen & Hpk & Hsinks & Hok & Hhs).
  cbn [c_w c_sessions c_sinks] in *.
  destruct (w_err w) as [err|] eqn:Herr.
  - assert (Herr1 : w_err (w_set_seq w (int (w_seq w + 1))) = Some err)
      by (destruct w; exact Herr).
    rewrite Herr1. cbn [bind fst].
    eexists. split; [reflexivity|].
    destruct (fresh_writer (w_seq (w_set_seq w (int (w_seq w + 1)))) f
                (w_buf (w_set_seq w (int (w_seq w + 1)))))
      as (Hwf0 & Ht0); [destruct w; exact Hlen|].
    unfold Inv. cbn [c_w c_sessions c_sinks]. simpl_w.
    split; [lia|]. split.
    { destruct w; simpl_w. cbn [w_seq] in Hseq. rewrite Hseq. apply int_int_add. }
    split; [destruct w; exact Hlen|]. split; [exists 0; apply Packed_end|].
    split; [apply Forall_app; split; [exact Hsinks|constructor; [exact Hpk|constructor]]|].
    split; [intros _; split; assumption|].
    eapply known_older; exact Hhs.
  - destruct (Hok eq_refl) as (Hwf & Ht).
    destruct (moved_on k w Hseq Herr Hwf Ht)
      as (w' & Hrun & Hwf' & Ht' & Hpk' & Hs' & Hp').
    assert (Herr1 : w_err (w_set_seq w (int (w_seq w + 1))) = None)
      by (destruct w; exact Herr).
    rewrite Herr1, Hrun. cbn [bind fst].
    eexists. split; [reflexivity|].
    pose proof Hwf' as (Hlen' & _).
    destruct (fresh_writer (w_seq w') f (w_buf w') Hlen') as (Hwf0 & Ht0).
    unfold Inv. cbn [c_w c_sessions c_sinks]. simpl_w.
    split; [lia|]. split; [exact Hs'|]. split; [exact Hlen'|].
    split; [exists 0; apply Packed_end|].
    split; [apply Forall_app; split; [exact Hsinks|constructor; [exact Hpk'|constructor]]|].
    split; [intros _; split; assumption|].
    eapply known_older; exact Hhs.
Qed.

Lemma call_step_ok (k : Z) (c : client) (o : call) :
  Inv k c -> k < 2 ^ 64 ->
  exists c' k', call_step c o = Ok c' /\ Inv k' c' /\ k' <= k + 1.
Proof.
  intros HInv Hk. destruct o as [|h p| | |f].
  - destruct (Inv_Next k c HInv) as (c' & H1 & H2). exists c', (k + 1). auto with zarith.
  - destruct (Inv_Write k c h p HInv Hk) as (c' & H1 & H2). exists c', k. auto with zarith.
  - destruct (Inv_Flush k c HInv) as (c' & H1 & H2). exists c', (k + 1). auto with zarith.
  - destruct (Inv_Close k c HInv) as (c' & H1 & H2). exists c', (k + 1). auto with zarith.
  - destruct (Inv_Reset k c f HInv) as (c' & H1 & H2). exists c', (k + 1). auto with zarith.
Qed.

Lemma calls_ok (os : list call) : forall k c,
  Inv k c -> k + len os <= 2 ^ 64 ->
  exists c' k', calls c os = Ok c' /\ Inv k' c'.
Proof.
  induction os as [|o os IH]; intros k c HInv Hk.
  - exists c, k. split; [reflexivity|exact HInv].
  - rewrite len_cons in Hk. pose proof (len_nonneg os).
    destruct (call_step_ok k c o HInv ltac:(lia)) as (c1 & k1 & Hstep & HInv1 & Hk1).
    cbn [calls]. rewrite Hstep. cbn [bind].
    apply (IH k1 c1 HInv1). lia.
Qed.

(** C2: after any calls of [Next], [Write], [Flush], [Close] and
    [Reset] on a new writer, with payloads of any length, every sink
    holds chunks none of which crosses the end of a 32768-byte block:
    a block is left only when its tail is too short for a header, the
    tail is filled with zeros up to the 32768th byte, and the next
    chunk starts the next block.  No call panics.  The calls are fewer
    than 2^64, so that the sequence number does not come back to that
    of an old session. *)
Theorem chunks_stay_in_blocks (f : bool) (os : list call) :
  len os < 2 ^ 64 ->
  exists c,
    calls (mkClient (NewWriter [] f) [] []) os = Ok c
    /\ (exists e, Packed 0 (w_w (c_w c)) e)
    /\ Forall (fun s => exists e, Packed 0 s e) (c_sinks c).
Proof.
  intros Hos.
  assert (HInv : Inv 0 (mkClient (NewWriter [] f) [] [])).
  { destruct (fresh_writer 0 f (zeros blockSize) ltac:(apply len_zeros; zlia))
      as (Hwf & Ht).
    unfold Inv, NewWriter. cbn [c_w c_sessions c_sinks]. simpl_w.
    split; [lia|]. split; [reflexivity|]. split; [apply len_zeros; zlia|].
    split; [exists 0; apply Packed_end|]. split; [constructor|].
    split; [intros _; split; assumption|constructor]. }
  destruct (calls_ok os 0 _ HInv ltac:(lia)) as (c & k & Hrun & HInv').
  exists c. split; [exact Hrun|].
  destruct HInv' as (_ & _ & _ & Hpk & Hsinks & _). split; assumption.
Qed.

(** ** What a reader keeps *)

(** The indices of a reader stay in order and inside the buffer: no
    slice of the buffer that the code takes is out of range. *)
Definition sound (r : Reader) : Prop :=
  0 <= r_i r <= r_j r /\ r_j r <= r_n r <= blockSize
  /\ len (r_buf r) = blockSize.

(** What reading leaves alone of a reader, and how it records the
    error it returns: the skip signal is not recorded, every other
    error is. *)
Definition kept (r r' : Reader) (e : option error) : Prop :=
  sound r' /\ r_strict r' = r_strict r /\ r_checksum r' = r_checksum r
  /\ match e with
     | Some err => if is_errSkip err then r_err r' = r_err r else r_err r' = Some err
     | None => r_err r' = r_err r
     end.

Lemma corrupt_kept (r : Reader) (n : Z) (reason : string) (skip : bool) :
  sound r ->
  kept r (fst (corrupt r n reason skip)) (Some (snd (corrupt r n reason skip))).
Proof.
  intros Hs. unfold corrupt, Drop.
  destruct r as [rr rd rs rc rq ri rj rn rl re rb].
  unfold kept, sound in *. simpl_r.
  destruct rd; simpl_r; destruct (rs && negb skip); simpl_r; cbn [is_errSkip];
    repeat split; try apply Hs.
Qed.

Lemma kept_moved (r r0 r' : Reader) (e : option error) :
  r_strict r0 = r_strict r -> r_checksum r0 = r_checksum r -> r_err r0 = r_err r ->
  kept r0 r' e -> kept r r' e.
Proof.
  intros H1 H2 H3 (Hs & Hst & Hc & He). unfold kept.
  rewrite <- H1, <- H2, <- H3. auto.
Qed.

Lemma nextChunk_loop_kept (fuel : nat) : forall r first r' e,
  sound r -> nextChunk_loop fuel r first = Ok (r', e) -> kept r r' e.
Proof.
  induction fuel as [|fuel IH]; intros r first r' e Hs.
  all: destruct r as [rr rd rs rc rq ri rj rn rl re rb].
  all: pose proof Hs as (Hij & Hjn & Hlen); cbn [r_i r_j r_n r_buf] in Hij, Hjn, Hlen.
  all: cbn [nextChunk_loop]; simpl_r.
  all: pose proof (le_combine_bound (slice rb (rj + 4) (rj + 6))) as Hl.
  all: destruct (rj + headerSize <=? rn) eqn:E1;
    [ apply Z.leb_le in E1;
      repeat match goal with
      | |- context [if ?b then _ else _] => destruct b eqn:?
      end;
      unfold ret; intros H; apply Ok_inj2 in H; destruct H as [<- <-];
      try (eapply kept_moved; [| | |apply corrupt_kept];
           [reflexivity|reflexivity|reflexivity|];
           unfold sound; simpl_r; zlia);
      unfold kept, sound; simpl_r;
      match goal with
      | E : (_ >? _) = false |- _ => rewrite Z.gtb_ltb in E; apply Z.ltb_ge in E
      end;
      repeat split; zlia
    | ].
  all: destruct ((rn <? blockSize) && (rn >? 0)) eqn:E2;
    [ destruct first; cbn [negb]; unfold ret; intros H;
      apply Ok_inj2 in H; destruct H as [<- <-];
      [ unfold kept, sound; simpl_r; cbn [is_errSkip]; repeat split; zlia
      | apply corrupt_kept; exact Hs ]
    | ].
  all: unfold ReadFull; simpl_r.
  all: set (m := Z.min (len rr) (len rb)).
  all: assert (Hm : m <= blockSize) by (unfold m; lia).
  all: assert (Lb : len (store rb 0 (firstn (Z.to_nat m) rr)) = blockSize)
         by (rewrite len_store; rewrite ?len_firstn; unfold m; lia).
  all: destruct (m =? 0) eqn:E3;
    [ destruct first; cbn [negb]; unfold ret; intros H;
      apply Ok_inj2 in H; destruct H as [<- <-];
      [ unfold kept, sound; simpl_r; cbn [is_errSkip]; repeat split; zlia
      | eapply kept_moved; [| | |apply corrupt_kept];
        [reflexivity|reflexivity|reflexivity|];
        unfold sound; simpl_r; zlia ]
    | ].
  - discriminate.
  - intros H. apply IH in H.
    + eapply kept_moved; [| | |exact H]; reflexivity.
    + unfold sound. simpl_r. apply Z.eqb_neq in E3.
      pose proof (len_nonneg rr). unfold m in *. zlia.
Qed.

Lemma kept_trans (r r1 r2 : Reader) (e : option error) :
  kept r r1 (Some errSkip) -> kept r1 r2 e -> kept r r2 e.
Proof.
  intros (_ & Hst & Hc & He) (Hs' & Hst' & Hc' & He').
  cbn [is_errSkip] in He. unfold kept.
  rewrite <- Hst, <- Hc, <- He. auto.
Qed.

(** What [Next] leaves: a session, or an error that it has recorded. *)
Definition Next_kept (r r' : Reader) (x : option singleReader)
    (e : option error) : Prop :=
  sound r' /\ r_strict r' = r_strict r /\ r_checksum r' = r_checksum r
  /\ match e with
     | Some err => r_err r' = Some err /\ x = None
     | None => r_err r' = r_err r /\ x <> None
     end.

Lemma Next_loop_kept (fuel : nat) : forall r r' x e,
  sound r -> Next_loop fuel r = Ok (r', x, e) -> Next_kept r r' x e.
Proof.
  induction fuel as [|fuel IH]; intros r r' x e Hs; cbn [Next_loop]; [discriminate|].
  unfold nextChunk.
  destruct (nextChunk_loop 1 r true) as [[r1 [err|]]| |] eqn:E; cbn [bind];
    try discriminate; apply (nextChunk_loop_kept _ _ _ _ _ Hs) in E.
  - destruct E as (Hs1 & Hst1 & Hc1 & He1).
    destruct (is_errSkip err) eqn:Eskip.
    + intros H. apply IH in H; [|exact Hs1].
      destruct H as (Hs2 & Hst2 & Hc2 & He2). unfold Next_kept.
      rewrite <- Hst1, <- Hc1, <- He1. auto.
    + intros H. apply Ok_inj3 in H. destruct H as (<- & <- & <-).
      unfold Next_kept. auto.
  - intros H. apply Ok_inj3 in H. destruct H as (<- & <- & <-).
    destruct E as (Hs1 & Hst1 & Hc1 & He1). unfold Next_kept.
    split; [exact Hs1|]. split; [exact Hst1|]. split; [exact Hc1|].
    split; [exact He1|discriminate].
Qed.

Lemma Reader_Next_kept (r r' : Reader) x e :
  sound r -> Reader_Next r = Ok (r', x, e) -> Next_kept r r' x e.
Proof.
  intros Hs. unfold Reader_Next.
  destruct r as [rr rd rs rc rq ri rj rn rl re rb]. simpl_r.
  unfold sound in Hs. cbn [r_i r_j r_n r_buf] in Hs.
  destruct re as [err|].
  - intros H. apply Ok_inj3 in H. destruct H as (<- & <- & <-).
    unfold Next_kept, sound. simpl_r. auto.
  - intros H. apply Next_loop_kept in H; [exact H|].
    unfold sound. simpl_r. lia.
Qed.

(** The loop of [Read] stops at a payload with bytes left, or with an
    error. *)
Lemma advance_kept (fuel : nat) : forall r x r' x' e,
  sound r -> advance fuel r x = Ok (r', x', e) ->
  sound r' /\ r_strict r' = r_strict r /\ r_checksum r' = r_checksum r
  /\ (e = None -> r_i r' < r_j r').
Proof.
  induction fuel as [|fuel IH]; intros r x r' x' e Hs; cbn [advance].
  all: destruct (Z.eqb_spec (r_i r) (r_j r)) as [Heq|Hne];
    [|intros H; apply Ok_inj3 in H; destruct H as (<- & <- & <-);
      split; [exact Hs|]; split; [reflexivity|]; split; [reflexivity|];
      intros _; destruct Hs as (Hij & _); lia].
  all: destruct (r_last r);
    [intros H; apply Ok_inj3 in H; destruct H as (<- & <- & <-);
     split; [exact Hs|]; split; [reflexivity|]; split; [reflexivity|];
     discriminate|].
  - discriminate.
  - unfold nextChunk.
    destruct (nextChunk_loop 1 r false) as [[r1 [err|]]| |] eqn:E; cbn [bind];
      try discriminate; apply (nextChunk_loop_kept _ _ _ _ _ Hs) in E;
      destruct E as (Hs1 & Hst1 & Hc1 & _).
    + intros H. apply Ok_inj3 in H. destruct H as (<- & <- & <-).
      repeat split; auto; try apply Hs1. discriminate.
    + intros H. apply IH in H; [|exact Hs1].
      destruct H as (Hs2 & Hst2 & Hc2 & He2).
      split; [exact Hs2|]. split; [congruence|]. split; [congruence|exact He2].
Qed.

Lemma Read_kept (r : Reader) x (lenp : Z) r' x' p e :
  sound r -> 0 <= lenp -> Read r x lenp = Ok (r', x', p, e) ->
  sound r' /\ r_strict r' = r_strict r /\ r_checksum r' = r_checksum r.
Proof.
  intros Hs Hlenp. unfold Read.
  destruct (negb (r_seq r =? x_seq x)).
  { intros H. apply Ok_inj4 in H. destruct H as (<- & _). auto. }
  destruct (x_err x). { intros H. apply Ok_inj4 in H. destruct H as (<- & _). auto. }
  destruct (r_err r). { intros H. apply Ok_inj4 in H. destruct H as (<- & _). auto. }
  destruct (advance (budget r) r x) as [[[r1 x1] [err|]]| |] eqn:E; cbn [bind];
    try discriminate; apply (advance_kept _ _ _ _ _ _ Hs) in E;
    destruct E as (Hs1 & Hst1 & Hc1 & He1).
  - intros H. apply Ok_inj4 in H. destruct H as (<- & _). auto.
  - intros H. apply Ok_inj4 in H. destruct H as (<- & _).
    specialize (He1 eq_refl).
    destruct r1 as [rr rd rs rc rq ri rj rn rl re rb].
    unfold sound in *. simpl_r. cbn [r_i r_j r_n r_buf r_strict r_checksum] in *.
    repeat split; auto; lia.
Qed.

Lemma ReadByte_kept (r : Reader) x r' x' c e :
  sound r -> ReadByte r x = Ok (r', x', c, e) ->
  sound r' /\ r_strict r' = r_strict r /\ r_checksum r' = r_checksum r.
Proof.
  intros Hs. unfold ReadByte.
  destruct (negb (r_seq r =? x_seq x)).
  { intros H. apply Ok_inj4 in H. destruct H as (<- & _). auto. }
  destruct (x_err x). { intros H. apply Ok_inj4 in H. destruct H as (<- & _). auto. }
  destruct (r_err r). { intros H. apply Ok_inj4 in H. destruct H as (<- & _). auto. }
  destruct (advance (budget r) r x) as [[[r1 x1] [err|]]| |] eqn:E; cbn [bind];
    try discriminate; apply (advance_kept _ _ _ _ _ _ Hs) in E;
    destruct E as (Hs1 & Hst1 & Hc1 & He1).
  - intros H. apply Ok_inj4 in H. destruct H as (<- & _). auto.
  - intros H. apply Ok_inj4 in H. destruct H as (<- & _).
    specialize (He1 eq_refl).
    destruct r1 as [rr rd rs rc rq ri rj rn rl re rb].
    unfold sound in *. simpl_r. cbn [r_i r_j r_n r_buf r_strict r_checksum] in *.
    repeat split; auto; lia.
Qed.

(** The readers a client can get to: a new reader, and what [Next],
    [Reset], [Read] and [ReadByte] make of one. *)
Inductive reached : Reader -> Prop :=
| reached_New reader dropper strict checksum :
    reached (NewReader reader dropper strict checksum)
| reached_Next r r' x e :
    reached r -> Reader_Next r = Ok (r', x, e) -> reached r'
| reached_Reset r r' reader dropper strict checksum e :
    reached r -> Reader_Reset r reader dropper strict checksum = (r', e) ->
    reached r'
| reached_Read r r' x x' lenp p e :
    reached r -> 0 <= lenp -> Read r x lenp = Ok (r', x', p, e) -> reached r'
| reached_ReadByte r r' x x' c e :
    reached r -> ReadByte r x = Ok (r', x', c, e) -> reached r'.

Lemma reached_sound (r : Reader) : reached r -> sound r.
Proof.
  induction 1 as [reader dropper strict checksum
                 |r r' x e _ IH H
                 |r r' reader dropper strict checksum e _ IH H
                 |r r' x x' lenp p e _ IH Hlenp H
                 |r r' x x' c e _ IH H].
  - unfold sound, NewReader. simpl_r. rewrite len_zeros by zlia. zlia.
  - apply Reader_Next_kept in H; [apply H|exact IH].
  - unfold Reader_Reset in H. injection H as <- _.
    destruct IH as (_ & _ & Hlen). unfold sound. simpl_r. zlia.
  - apply Read_kept in H; [apply H|exact IH|exact Hlenp].
  - apply ReadByte_kept in H; [apply H|exact IH].
Qed.


(** X2: over a source that does not fail itself, as the bytes in memory
    are, an error that [Next] returns is recorded on the reader, and no
    session comes with it; the next [Next] returns the same error and
    moves nothing but the sequence number, and so does every [Next]
    after it. *)
Theorem Next_error_sticks (r r1 : Reader) (x : option singleReader) (e : error) :
  reached r -> Reader_Next r = Ok (r1, x, Some e) ->
  x = None /\ r_err r1 = Some e
  /\ Reader_Next r1 = Ok (r_set_seq r1 (int (r_seq r1 + 1)), None, Some e)
  /\ r_err (r_set_seq r1 (int (r_seq r1 + 1))) = Some e.
Proof.
  intros Hr H.
  destruct (Reader_Next_kept r r1 x (Some e) (reached_sound r Hr) H)
    as (_ & _ & _ & He & Hx).
  split; [exact Hx|]. split; [exact He|].
  unfold Reader_Next. destruct r1 as [rr rd rs rc rq ri rj rn rl re rb].
  simpl_r. cbn [r_err] in He. subst re. split; reflexivity.
Qed.

(** X3: [ReadByte] does what [Read] does with a buffer of one byte:
    the same reader and session after the call, the same error, and
    the byte that [Read] puts in the buffer. *)
Theorem ReadByte_as_Read (r : Reader) (x : singleReader) :
  reached r ->
  match Read r x 1 with
  | Ok (r', x', p, e) => ReadByte r x = Ok (r', x', hd Byte.x00 p, e)
  | Panic msg => ReadByte r x = Panic msg
  | Timeout => ReadByte r x = Timeout
  end.
Proof.
  intros Hr. pose proof (reached_sound r Hr) as Hs.
  unfold Read, ReadByte.
  destruct (negb (r_seq r =? x_seq x)); [reflexivity|].
  destruct (x_err x); [reflexivity|].
  destruct (r_err r); [reflexivity|].
  destruct (advance (budget r) r x) as [[[r1 x1] [err|]]| |] eqn:E; cbn [bind];
    try reflexivity.
  apply (advance_kept _ _ _ _ _ _ Hs) in E.
  destruct E as ((Hij & Hjn & Hlen) & _ & _ & He). specialize (He eq_refl).
  rewrite Z.min_l by lia.
  rewrite slice_one by lia. reflexivity.
Qed.


(** ** Moving on before the end of a journal *)

(** [nextChunk(true)] on a Middle or Last chunk. *)
Lemma nextChunk_loop_orphan (fuel : nat) (r : Reader) (c l ty : Z) :
  r_j r + headerSize <= r_n r ->
  le_combine (slice (r_buf r) (r_j r + 0) (r_j r + 4)) = c ->
  le_combine (slice (r_buf r) (r_j r + 4) (r_j r + 6)) = l ->
  byte.unsigned (index (r_buf r) (r_j r + 6)) = ty ->
  ty = middleChunkType \/ ty = lastChunkType ->
  r_j r + headerSize + l <= r_n r ->
  crc (slice (r_buf r) (r_j r + headerSize - 1) (r_j r + headerSize + l)) = c ->
  nextChunk_loop fuel r true
  = ret (corrupt (r_set_i (r_set_j r (r_j r + headerSize + l)) (r_j r + headerSize + l))
           (r_j r + headerSize + l - (r_j r + headerSize) + headerSize)
           "orphan chunk" true).
Proof.
  intros Hfit Hc Hl Hty Hrange Hin Hcrc.
  rewrite nextChunk_loop_fuel by exact Hfit.
  destruct r as [rr rd rs rc rq ri rj rn rl re rb].
  cbn [r_j r_n r_buf] in *. cbn [nextChunk_loop]. simpl_r.
  rewrite Hc, Hl, Hty, Hcrc, Z.eqb_refl.
  apply Z.leb_le in Hfit. rewrite Hfit.
  assert (E0 : (ty =? 0) = false)
    by (apply Z.eqb_neq; unfold middleChunkType, lastChunkType in *; lia).
  rewrite E0, andb_false_r.
  assert (E1 : (ty <? fullChunkType) || (ty >? lastChunkType) = false).
  { apply orb_false_iff. rewrite Z.gtb_ltb, !Z.ltb_ge.
    unfold fullChunkType, middleChunkType, lastChunkType in *. lia. }
  rewrite E1.
  assert (E2 : (rj + headerSize + l >? rn) = false)
    by (rewrite Z.gtb_ltb; apply Z.ltb_ge; lia).
  rewrite E2. cbn [negb]. rewrite andb_false_r.
  assert (E3 : negb (ty =? fullChunkType) && negb (ty =? firstChunkType) = true).
  { destruct Hrange as [-> | ->]; reflexivity. }
  cbn [andb]. rewrite E3. reflexivity.
Qed.

Lemma RS_orphan (r : Reader) (pos ty : Z) (p U : list byte) :
  RS r pos (chunk ty p ++ U) ->
  0 <= pos -> pos + headerSize + len p <= blockSize ->
  ty = middleChunkType \/ ty = lastChunkType ->
  exists r',
    (forall fuel, nextChunk_loop (S fuel) r true = Ok (r', Some errSkip))
    /\ RS r' (pos + headerSize + len p) U /\ r_i r' = r_j r'
    /\ same r r'
    /\ r_dropper r'
       = add_drops (r_dropper r)
           [mkErrCorrupted (len p + headerSize) "orphan chunk"].
Proof.
  intros HRS Hpos Hfit Hty. pose proof (len_nonneg p) as Hp.
  destruct (RS_ready r pos (chunk ty p) U HRS Hpos)
    as (r2 & Hready & Hsame & Hdrop & Hrun);
    [rewrite len_chunk; lia|rewrite len_chunk; lia|].
  destruct Hready as (Hlen & Herr & _ & Hj & Hn & HX & Hlast & HU).
  rewrite len_chunk in *.
  destruct (chunk_parts ty p) as (P1 & P2 & P3 & P4 & P5).
  assert (S : forall a b, 0 <= a <= b -> b <= headerSize + len p ->
            slice (r_buf r2) (pos + a) (pos + b) = slice (chunk ty p) a b).
  { intros a b Ha Hb. rewrite <- HX. symmetry. apply slice_slice; lia. }
  assert (Hidx : index (r_buf r2) (pos + 6) = byte.of_Z ty).
  { pose proof (slice_one (r_buf r2) (pos + 6) ltac:(zlia)) as H1.
    replace (pos + 6 + 1) with (pos + 7) in H1 by lia.
    rewrite (S 6 7) in H1 by zlia. rewrite P3 in H1. congruence. }
  assert (Hstep : nextChunk_loop 0 r2 true
            = ret (corrupt (r_set_i (r_set_j r2 (r_j r2 + headerSize + len p))
                              (r_j r2 + headerSize + len p))
                     (r_j r2 + headerSize + len p - (r_j r2 + headerSize) + headerSize)
                     "orphan chunk" true)).
  { apply (nextChunk_loop_orphan 0 r2 (crc (byte.of_Z ty :: p)) (len p) ty).
    - zlia.
    - rewrite Hj, (S 0 4), P1, le_combine_split by zlia.
      apply Z.mod_small. apply crc_range.
    - rewrite Hj, (S 4 6), P2, le_combine_split by zlia.
      apply Z.mod_small. change (2 ^ (Z.of_nat 2 * 8)) with 65536. zlia.
    - rewrite Hj, Hidx, byte.unsigned_of_Z. unfold byte.wrap.
      apply Z.mod_small. unfold middleChunkType, lastChunkType in *. lia.
    - exact Hty.
    - zlia.
    - rewrite Hj.
      replace (pos + headerSize - 1) with (pos + 6) by zlia.
      replace (pos + headerSize + len p) with (pos + (headerSize + len p)) by lia.
      rewrite (S 6 (headerSize + len p)), P4 by zlia. reflexivity. }
  destruct r2 as [rr rd rs rc rq ri rj rn rl re rb].
  cbn [r_r r_err r_j r_n r_buf r_dropper] in *. subst rj.
  unfold ret, corrupt, Drop in Hstep. simpl_r in Hstep.
  rewrite andb_false_r in Hstep.
  replace (pos + headerSize + len p - (pos + headerSize) + headerSize)
    with (len p + headerSize) in Hstep by lia.
  destruct Hsame as (Hq & Hst & Hck). cbn [r_seq r_strict r_checksum] in Hq, Hst, Hck.
  destruct rd as [log|]; simpl_r in Hstep; cbn [fst snd] in Hstep.
  all: eexists; split; [intros fuel; rewrite Hrun; exact Hstep|].
  all: unfold RS, same; simpl_r; rewrite <- Hdrop; cbn [add_drops].
  all: split; [|split; [reflexivity|split; [auto|reflexivity]]].
  all: split; [exact Hlen|]; split; [exact Herr|]; left.
  all: repeat split; try zlia; try assumption.
  all: rewrite HU; do 2 f_equal; lia.
Qed.

(** [Next] inside a journal drops the chunks that are left of it, one
    orphan after the other. *)
Lemma skip_rest pos mid js0 U e ds :
  Seg pos mid js0 U e ds -> mid = true ->
  forall q js r fuel, js0 = q :: js -> RS r pos U -> len U < Z.of_nat fuel ->
  exists r1 pos1 U1 fuel1 os,
    Next_loop fuel r = Next_loop fuel1 r1
    /\ RS r1 pos1 U1 /\ Seg pos1 false js U1 e ds
    /\ len U1 < Z.of_nat fuel1 /\ len U1 <= len U
    /\ same r r1 /\ r_dropper r1 = add_drops (r_dropper r) os.
Proof.
  induction 1 as [pos
                 |pos mid js0 bs e ds Hpos _ IH
                 |pos mid p js0 bs e ds Hpos Hfit Hrest _
                 |pos mid p q0 js0 bs e ds Hpos Hfit Hrest IH
                 |pos js0 bs e ds Hpos Hfit _ _];
    intros Hmid q js r fuel Hjs HRS Hfuel; try discriminate.
  - apply RS_pad in HRS; [|exact Hpos].
    rewrite len_app, len_zeros in Hfuel by zlia.
    destruct (IH Hmid q js r fuel Hjs HRS ltac:(zlia))
      as (r1 & pos1 & U1 & fuel1 & os & H1 & H2 & H3 & H4 & H5 & H6).
    exists r1, pos1, U1, fuel1, os. repeat (split; [assumption|]).
    split; [|exact H6]. rewrite len_app, len_zeros by zlia. zlia.
  - subst mid. injection Hjs as -> ->. cbn [negb chunkTypeOf] in HRS, Hfuel.
    destruct (RS_orphan r pos lastChunkType q bs HRS Hpos Hfit ltac:(now right))
      as (r' & Hrun & HRS' & Hij & Hs & Hd).
    rewrite len_app, len_chunk in Hfuel. pose proof (len_nonneg q).
    pose proof (len_nonneg bs).
    destruct fuel as [|fuel]; [zlia|].
    exists r', (pos + headerSize + len q), bs, fuel,
      [mkErrCorrupted (len q + headerSize) "orphan chunk"].
    split; [cbn [Next_loop]; unfold nextChunk; rewrite Hrun; reflexivity|].
    split; [exact HRS'|]. split; [exact Hrest|]. split; [zlia|].
    split; [cbn [negb chunkTypeOf]; rewrite len_app, len_chunk; zlia|]. split; assumption.
  - subst mid. injection Hjs as <- ->. cbn [negb chunkTypeOf] in HRS, Hfuel.
    destruct (RS_orphan r pos middleChunkType p bs HRS Hpos Hfit ltac:(now left))
      as (r' & Hrun & HRS' & Hij & Hs & Hd).
    rewrite len_app, len_chunk in Hfuel. pose proof (len_nonneg p).
    pose proof (len_nonneg bs).
    destruct fuel as [|fuel]; [zlia|].
    destruct (IH eq_refl q0 js r' fuel eq_refl HRS' ltac:(zlia))
      as (r1 & pos1 & U1 & fuel1 & os & H1 & H2 & H3 & H4 & H5 & H6 & H7).
    exists r1, pos1, U1, fuel1,
      (mkErrCorrupted (len p + headerSize) "orphan chunk" :: os).
    split; [cbn [Next_loop]; unfold nextChunk; rewrite Hrun; exact H1|].
    split; [exact H2|]. split; [exact H3|]. split; [exact H4|].
    split; [cbn [negb chunkTypeOf]; rewrite len_app, len_chunk; zlia|].
    split; [eapply same_trans; eassumption|].
    rewrite H7, Hd, add_drops_app. reflexivity.
Qed.

(** [Next] from inside a journal, read to any point, or from before
    the first one. *)
Lemma Next_InChunk (r : Reader) pos U q js e ds :
  InChunk r pos U q js e ds -> (ds <> [] -> r_strict r = false) ->
  match js with
  | [] => exists r', Reader_Next r = Ok (r', None, Some EOF)
  | q2 :: js' =>
      exists r' pos' U' ds2,
        Reader_Next r
        = Ok (r', Some (mkSingleReader (int (r_seq r + 1)) None), None)
        /\ InChunk r' pos' U' q2 js' e ds2
        /\ r_j r' - r_i r' + len U' + headerSize <= len U
        /\ (ds2 <> [] -> r_strict r' = false)
        /\ r_seq r' = int (r_seq r + 1)
  end.
Proof.
  intros (HRS & Hij & q' & Hq & Hseg) Hstrict. unfold Reader_Next.
  destruct r as [rr rd rs rc rq ri rj rn rl re rb].
  pose proof HRS as (_ & Herr & _). cbn [r_err] in Herr. subst re.
  simpl_r. cbn [r_strict r_last r_seq] in *.
  set (r1 := mkReader rr rd rs rc (int (rq + 1)) rj rj rn rl None rb).
  change (r_set_i (r_set_seq _ _) rj) with r1.
  assert (HRS1 : RS r1 pos U) by exact HRS.
  assert (Hb : len U < Z.of_nat (budget r1))
    by (pose proof (budget_bound r1 pos U HRS1);
        pose proof (RS_bound r1 pos U HRS1); cbn [r_i r_j r1] in *; lia).
  assert (Hfin : forall r2 pos2 U2 fuel2,
            RS r2 pos2 U2 -> Seg pos2 false js U2 e ds ->
            len U2 < Z.of_nat fuel2 -> len U2 <= len U -> same r1 r2 ->
            match js with
            | [] => exists r', Next_loop fuel2 r2 = Ok (r', None, Some EOF)
            | q2 :: js' =>
                exists r' pos' U' ds2,
                  Next_loop fuel2 r2
                  = Ok (r', Some (mkSingleReader (int (rq + 1)) None), None)
                  /\ InChunk r' pos' U' q2 js' e ds2
                  /\ r_j r' - r_i r' + len U' + headerSize <= len U
                  /\ (ds2 <> [] -> r_strict r' = false)
                  /\ r_seq r' = int (rq + 1)
            end).
  { intros r2 pos2 U2 fuel2 HRS2 Hseg2 Hf2 Hle (Hq2 & Hst2 & Hc2).
    cbn [r1 r_seq r_strict] in Hq2, Hst2.
    pose proof (Next_loop_ok _ _ _ _ _ _ Hseg2 eq_refl r2 fuel2 HRS2
                  ltac:(rewrite Hst2; exact Hstrict) Hf2) as Hnext.
    destruct js as [|q2 js'].
    - destruct Hnext as (r' & Hrun & _). exists r'. exact Hrun.
    - destruct Hnext as (r' & pos' & U' & ds1 & ds2 & Hrun & Hin & Hm & Hds & Hs' & _).
      exists r', pos', U', ds2. rewrite Hq2 in Hrun.
      split; [exact Hrun|]. split; [exact Hin|]. split; [lia|].
      destruct Hs' as (Hq' & Hst' & _). split; [|congruence].
      intros Hne. rewrite Hst', Hst2. apply Hstrict. subst ds.
      destruct ds1; [exact Hne|discriminate]. }
  destruct rl.
  - destruct Hseg as [_ Hseg].
    exact (Hfin r1 pos U (budget r1) HRS1 Hseg Hb (Z.le_refl _) (same_refl r1)).
  - destruct (skip_rest _ _ _ _ _ _ Hseg eq_refl q' js r1 (budget r1) eq_refl HRS1 Hb)
      as (r2 & pos2 & U2 & fuel2 & os & Hrun & HRS2 & Hseg2 & Hf2 & Hle & Hs2 & _).
    rewrite Hrun. exact (Hfin r2 pos2 U2 fuel2 HRS2 Hseg2 Hf2 Hle Hs2).
Qed.

(** A call of [Read] inside a journal takes bytes off what is left of
    it. *)
Lemma Read_InChunk (r : Reader) (x : singleReader) (lenp : Z) pos U q js e ds :
  InChunk r pos U q js e ds -> x_seq x = r_seq r -> x_err x = None ->
  0 <= lenp ->
  exists r' pos' U' p q' err,
    Read r x lenp = Ok (r', x, p, err)
    /\ q = p ++ q' /\ InChunk r' pos' U' q' js e ds /\ same r r'.
Proof.
  intros Hin Hseq Hx Hlenp. unfold Read.
  rewrite Hseq, Z.eqb_refl, Hx. cbn [negb].
  pose proof Hin as (HRS & Hij & _).
  pose proof HRS as (_ & Herr & _). rewrite Herr.
  destruct (advance_ok (budget r) r x pos U q js e ds Hin Hx)
    as (r1 & pos1 & U1 & Hrun & Hin1 & Hl1 & Hm1 & Hs1 & Hd1).
  { pose proof (budget_bound r pos U HRS ltac:(lia)). lia. }
  rewrite Hrun. cbn [bind].
  destruct (Z.eqb_spec (r_i r1) (r_j r1)) as [Heq|Hne].
  - exists r1, pos1, U1, [], q, (Some EOF). cbn [bind app]. auto.
  - cbn [bind].
    destruct Hin1 as (HRS1 & Hij1 & q' & Hq & Hseg1).
    set (n := Z.min lenp (r_j r1 - r_i r1)).
    assert (Hn : 0 <= n <= r_j r1 - r_i r1) by (unfold n; lia).
    exists (r_set_i r1 (r_i r1 + n)), pos1, U1,
      (slice (r_buf r1) (r_i r1) (r_i r1 + n)),
      (slice (r_buf r1) (r_i r1 + n) (r_j r1) ++ q'), None.
    split; [reflexivity|]. split.
    { rewrite Hq, app_assoc. f_equal. apply slice_split; lia. }
    split.
    + split; [now apply RS_set_i|].
      destruct r1 as [rr rd rs rc rq ri rj rn rl re rb].
      cbn [r_i r_j r_buf r_last r_set_i] in *.
      split; [lia|]. exists q'. split; [reflexivity|exact Hseg1].
    + eapply same_trans; [exact Hs1|]. destruct r1; repeat split.
Qed.

(** A client that calls [Read] on a session with buffers of the given
    sizes, whatever comes of it. *)
Fixpoint Reads (r : Reader) (x : singleReader) (sizes : list Z)
    : res (Reader * singleReader) :=
  match sizes with
  | [] => Ok (r, x)
  | lenp :: sizes' =>
      a <- Read r x lenp ;;
      match a with
      | (r, x, _, _) => Reads r x sizes'
      end
  end.

(** A client that moves from journal to journal, reading from each
    with the buffers of [plan] before it calls [Next] again. *)
Fixpoint skim (journals : Reader) (plan : list (list Z)) : res Reader :=
  match plan with
  | [] => Ok journals
  | sizes :: plan' =>
      a <- Reader_Next journals ;;
      match a with
      | (journals, Some j, None) =>
          b <- Reads journals j sizes ;;
          skim (fst b) plan'
      | (journals, _, _) => Ok journals
      end
  end.

Lemma Reads_InChunk (sizes : list Z) : forall r x pos U q js e ds,
  InChunk r pos U q js e ds -> x_seq x = r_seq r -> x_err x = None ->
  Forall (fun z => 0 <= z) sizes ->
  exists r' pos' U' q',
    Reads r x sizes = Ok (r', x)
    /\ InChunk r' pos' U' q' js e ds /\ same r r'.
Proof.
  induction sizes as [|lenp sizes IH]; intros r x pos U q js e ds Hin Hseq Hx Hsz.
  - exists r, pos, U, q. split; [reflexivity|]. split; [exact Hin|apply same_refl].
  - inversion Hsz as [|? ? Hlenp Hsz']; subst.
    destruct (Read_InChunk r x lenp pos U q js e ds Hin Hseq Hx Hlenp)
      as (r1 & pos1 & U1 & p & q1 & err & Hrun & _ & Hin1 & Hs1).
    cbn [Reads]. rewrite Hrun. cbn [bind].
    destruct (IH r1 x pos1 U1 q1 js e ds Hin1) as (r' & pos' & U' & q' & H1 & H2 & H3);
      [destruct Hs1 as (-> & _); exact Hseq|exact Hx|exact Hsz'|].
    exists r', pos', U', q'. split; [exact H1|]. split; [exact H2|].
    eapply same_trans; eassumption.
Qed.

Lemma skim_ok (plan : list (list Z)) : forall r pos U q js e ds,
  InChunk r pos U q js e ds -> (ds <> [] -> r_strict r = false) ->
  Forall (Forall (fun z => 0 <= z)) plan ->
  (List.length plan <= List.length js)%nat ->
  exists r' pos' U' q' ds',
    skim r plan = Ok r'
    /\ InChunk r' pos' U' q' (skipn (List.length plan) js) e ds'
    /\ (ds' <> [] -> r_strict r' = false).
Proof.
  induction plan as [|sizes plan IH]; intros r pos U q js e ds Hin Hstrict Hplan Hlen.
  - exists r, pos, U, q, ds. split; [reflexivity|]. split; assumption.
  - inversion Hplan as [|? ? Hsz Hplan']; subst.
    destruct js as [|q2 js']; [cbn in Hlen; lia|].
    pose proof (Next_InChunk r pos U q (q2 :: js') e ds Hin Hstrict) as Hnext.
    destruct Hnext as (r1 & pos1 & U1 & ds2 & Hrun & Hin1 & _ & Hst1 & Hq1).
    cbn [skim]. rewrite Hrun. cbn [bind].
    destruct (Reads_InChunk sizes r1 (mkSingleReader (int (r_seq r + 1)) None)
                pos1 U1 q2 js' e ds2 Hin1)
      as (r2 & pos2 & U2 & q2' & Hreads & Hin2 & Hs2);
      [symmetry; exact Hq1|reflexivity|exact Hsz|].
    rewrite Hreads. cbn [bind fst].
    destruct (IH r2 pos2 U2 q2' js' e ds2 Hin2) as (r' & pos' & U' & q' & ds' & H1 & H2 & H3).
    + intros Hne. destruct Hs2 as (_ & -> & _). exact (Hst1 Hne).
    + exact Hplan'.
    + cbn [List.length] in Hlen. lia.
    + exists r', pos', U', q', ds'. cbn [List.length skipn]. auto.
Qed.

(** [read]'s loop from inside a journal: the journals after it. *)
Lemma read_loop_InChunk (lenp : nat -> Z) (r : Reader) pos U q js e ds ss :
  (forall k, 0 < lenp k) ->
  InChunk r pos U q js e ds -> (ds <> [] -> r_strict r = false) ->
  exists r', read_loop (budget r) r lenp ss = Ok (ss ++ js, None, r').
Proof.
  intros Hlenp Hin Hstrict.
  pose proof Hin as (HRS & Hij & _).
  pose proof (RS_bound r pos U HRS) as (Hj & HU).
  pose proof HRS as (Hlen & _).
  assert (Hb : len U <= Z.of_nat (List.length (r_buf r) + List.length (r_r r))).
  { unfold len in *. lia. }
  unfold budget. cbn [read_loop].
  pose proof (Next_InChunk r pos U q js e ds Hin Hstrict) as Hnext.
  destruct js as [|q2 js'].
  - destruct Hnext as (r' & Hrun). rewrite Hrun. cbn [bind].
    exists r'. now rewrite app_nil_r.
  - destruct Hnext as (r1 & pos1 & U1 & ds2 & Hrun & Hin1 & Hm1 & Hst1 & Hq1).
    rewrite Hrun. cbn [bind]. unfold ReadAll.
    pose proof Hin1 as (HRS1 & Hij1 & _).
    destruct (ReadAll_loop_ok (budget r1) lenp r1
                (mkSingleReader (int (r_seq r + 1)) None)
                pos1 U1 q2 js' e ds2 [] Hlenp Hin1)
      as (r2 & pos2 & U2 & Hrun2 & HRS2 & Hseg2 & Hm2 & Hs2 & Hd2).
    { symmetry. exact Hq1. }
    { reflexivity. }
    { apply (budget_bound r1 pos1 U1 HRS1). lia. }
    rewrite Hrun2. cbn [bind app].
    destruct (read_loop_ok lenp js' r2 pos2 U2 e ds2 (ss ++ [q2])
                (List.length (r_buf r) + List.length (r_r r)) Hlenp Hseg2 HRS2)
      as (r3 & Hrun3 & _).
    { intros Hne. destruct Hs2 as (_ & -> & _). exact (Hst1 Hne). }
    { zlia. }
    exists r3. rewrite Hrun3, <- app_assoc. reflexivity.
Qed.

(** X5: [Next] may be called before a journal is read to its end.  A
    client that moves over the first journals, reading from each as
    many bytes as it likes, then reads the journals that are left and
    gets every one of them whole.  It holds for a strict reader too:
    the chunks passed over are skipped as orphans, never as
    corruption. *)
Theorem Next_before_the_end (js : list (list byte)) (plan : list (list Z))
    (dropper : option (list ErrCorrupted)) (strict checksum : bool)
    (lenp : nat -> Z) :
  Forall (Forall (fun z => 0 <= z)) plan ->
  (List.length plan <= List.length js)%nat ->
  (forall k, 0 < lenp k) ->
  exists out r r',
    write js = Ok (out, None)
    /\ skim (NewReader out dropper strict checksum) plan = Ok r
    /\ read_loop (budget r) r lenp []
       = Ok (skipn (List.length plan) js, None, r').
Proof.
  intros Hplan Hlen Hlenp.
  destruct (write_Seg js) as (out & e & Hw & Hseg).
  set (r0 := NewReader out dropper strict checksum).
  assert (Hin : InChunk r0 0 out [] js e []).
  { split.
    - split; [apply len_zeros; zlia|]. split; [reflexivity|]. right.
      cbn [r0 r_r r_j r_n NewReader]. repeat split; try zlia.
    - cbn [r0 r_i r_j r_last NewReader]. split; [lia|]. exists [].
      rewrite slice_nil by lia. split; [reflexivity|]. split; [reflexivity|exact Hseg]. }
  destruct (skim_ok plan r0 0 out [] js e [] Hin ltac:(intros H; now contradiction H)
              Hplan Hlen)
    as (r & pos & U & q & ds' & Hskim & Hin' & Hst').
  destruct (read_loop_InChunk lenp r pos U q _ e ds' [] Hlenp Hin' Hst') as (r' & Hrun).
  exists out, r, r'. split; [exact Hw|]. split; [exact Hskim|exact Hrun].
Qed.

(** ** Journals written in pieces, with flushes *)

(** A client that writes the pieces of a journal one after the other
    to its session. *)
Fixpoint Writes (w : Writer) (x : singleWriter) (pieces : list (list byte))
    : res (Writer * option error) :=
  match pieces with
  | [] => Ok (w, None)
  | p :: pieces' =>
      a <- Write w x p ;;
      match a with
      | (w, _, Some err) => Ok (w, Some err)
      | (w, _, None) => Writes w x pieces'
      end
  end.

(** The example [write] with a journal given in pieces and, where the
    flag is set, a [Flush] after it; the writer is left open. *)
Fixpoint scribe (journals : Writer) (jss : list (list (list byte) * bool))
    : res (Writer * option error) :=
  match jss with
  | [] => Ok (journals, None)
  | (pieces, flush) :: jss' =>
      a <- Writer_Next journals ;;
      match a with
      | (journals, _, Some err) => Ok (journals, Some err)
      | (journals, None, None) => Panic "nil pointer dereference"
      | (journals, Some j, None) =>
          b <- Writes journals j pieces ;;
          match b with
          | (journals, Some err) => Ok (journals, Some err)
          | (journals, None) =>
              if (flush : bool) then
                c <- Writer_Flush journals ;;
                match c with
                | (journals, Some err) => Ok (journals, Some err)
                | (journals, None) => scribe journals jss'
                end
              else scribe journals jss'
          end
      end
  end.

(** The journals a [scribe] is given, each in one piece. *)
Definition whole (jss : list (list (list byte) * bool)) : list (list byte) :=
  map (fun j => List.concat (fst j)) jss.

(** The payload of the chunk at hand. *)
Definition payload (w : Writer) : list byte :=
  slice (w_buf w) (w_i w + headerSize) (w_j w).

Lemma Spill_Seg_more i first q p Y i' first' q' :
  Spill i first q p Y i' first' q' -> 0 <= i ->
  forall rest js bs e ds,
  Seg i' (negb first') ((q' ++ rest) :: js) bs e ds ->
  Seg i (negb first) ((q ++ p ++ rest) :: js) (Y ++ bs) e ds.
Proof.
  induction 1 as [i first q
                 |i first q p Y i' first' q' Hp Hroom _ IH
                 |i first q p Y i' first' q' Hp Hfull _ IH];
    intros Hi rest js bs e ds Hrest.
  - exact Hrest.
  - specialize (IH Hi rest js bs e ds Hrest).
    rewrite <- app_assoc in IH. rewrite (app_assoc (firstn _ p)), firstn_skipn in IH.
    exact IH.
  - specialize (IH (Z.le_refl 0) rest js bs e ds Hrest).
    rewrite app_assoc, firstn_skipn in IH. rewrite <- app_assoc.
    rewrite <- (negb_involutive first) at 2.
    pose proof (len_nonneg q).
    apply Seg_part; [exact Hi|zlia|].
    rewrite Hfull.
    change (Y ++ bs) with (zeros (blockSize - blockSize) ++ Y ++ bs).
    apply Seg_pad; [zlia|exact IH].
Qed.

Lemma Writes_ok (pieces : list (list byte)) : forall (w : Writer) (y : singleWriter),
  wf w -> w_pending w = true -> y_seq y = w_seq w ->
  exists w2 Y,
    Writes w y pieces = Ok (w2, None)
    /\ wf w2 /\ w_pending w2 = true /\ w_seq w2 = w_seq w
    /\ (forall js bs e ds,
          Seg (w_j w2) false js bs e ds ->
          Seg (w_i w) (negb (w_first w)) ((payload w ++ List.concat pieces) :: js)
            (Y ++ chunk (chunkTypeOf true (w_first w2)) (payload w2) ++ bs) e ds)
    /\ w_w w2 ++ slice (w_buf w2) (w_written w2) (w_i w2)
       = w_w w ++ slice (w_buf w) (w_written w) (w_i w) ++ Y.
Proof.
  induction pieces as [|p pieces IH]; intros w y Hwf Hp Hy.
  - exists w, []. cbn [Writes List.concat]. split; [reflexivity|].
    split; [exact Hwf|]. split; [exact Hp|]. split; [reflexivity|]. split.
    + intros js bs e ds Hseg. rewrite app_nil_r. cbn [app].
      destruct Hwf as (Hlen & _ & Hpos). rewrite Hp in Hpos.
      assert (Hq : len (payload w) = w_j w - (w_i w + headerSize))
        by (unfold payload; rewrite len_slice; zlia).
      rewrite <- (negb_involutive (w_first w)) at 2.
      apply Seg_final; [lia|rewrite Hq; lia|].
      rewrite Hq.
      replace (w_i w + headerSize + (w_j w - (w_i w + headerSize))) with (w_j w) by lia.
      exact Hseg.
    + now rewrite !app_nil_r.
  - cbn [Writes List.concat]. unfold Write. rewrite Hy, Z.eqb_refl. cbn [negb].
    pose proof Hwf as (Hlen & Herr & Hpos). rewrite Herr. rewrite Hp in Hpos.
    destruct (Write_loop_ok (List.length p) p w Hwf Hp (Nat.le_refl _))
      as (w1 & Y1 & Hrun & Hwf1 & Hp1 & Hs1 & _ & Hspill & Hout1 & _).
    rewrite Hrun. cbn [bind].
    destruct (IH w1 y Hwf1 Hp1 ltac:(congruence))
      as (w2 & Y2 & Hrun2 & Hwf2 & Hp2 & Hs2 & Hk & Hout2).
    exists w2, (Y1 ++ Y2). split; [exact Hrun2|]. split; [exact Hwf2|].
    split; [exact Hp2|]. split; [congruence|]. split.
    + intros js bs e ds Hseg. rewrite <- !app_assoc.
      apply (Spill_Seg_more _ _ _ _ _ _ _ _ Hspill); [lia|].
      exact (Hk js bs e ds Hseg).
    + rewrite Hout2, app_assoc, Hout1, <- !app_assoc. reflexivity.
Qed.

Lemma Writer_Flush_ok (w : Writer) :
  wf w ->
  exists w3,
    Writer_Flush w = Ok (w3, None)
    /\ wf w3 /\ w_j w3 = w_j w
    /\ w_w w3 = w_w w ++ pending_bytes w /\ pending_bytes w3 = [].
Proof.
  intros Hwf. unfold Writer_Flush. cbn zeta.
  destruct (writePending_ok _ (wf_set_seq w (int (w_seq w + 1)) Hwf))
    as (w' & Hrun & Hout & Hwf' & Hp' & Hwr' & Hj' & _).
  rewrite Hrun. cbn [bind].
  pose proof Hwf' as (Hlen' & Herr' & _). rewrite Herr'.
  assert (Hres : (if w_f w' then Ok (w_set_err w' None, w_err (w_set_err w' None))
                  else Ok (w', None)) = Ok (w', None)).
  { rewrite (set_err_None w' Herr'). rewrite Herr'. destruct (w_f w'); reflexivity. }
  rewrite Hres. exists w'. split; [reflexivity|]. split; [exact Hwf'|].
  split; [rewrite Hj'; destruct w; reflexivity|]. split.
  - rewrite Hout. destruct w; reflexivity.
  - unfold pending_bytes. rewrite Hp', Hwr', Hj'. apply slice_nil. lia.
Qed.

Lemma scribe_ok (jss : list (list (list byte) * bool)) : forall w : Writer,
  wf w ->
  exists w' Y,
    scribe w jss = Ok (w', None) /\ wf w'
    /\ w_w w' ++ pending_bytes w' = w_w w ++ pending_bytes w ++ Y
    /\ Seg (w_j w) false (whole jss) Y (w_j w') [].
Proof.
  induction jss as [|[pieces flush] jss IH]; intros w Hwf.
  - exists w, []. split; [reflexivity|]. split; [exact Hwf|].
    split; [now rewrite app_nil_r|apply Seg_end].
  - cbn [scribe whole map fst].
    destruct (Writer_Next_ok w Hwf)
      as (w1 & y & Hnext & Hy & _ & _ & Hwf1 & Hp1 & Hf1 & Hj1 & Hcase).
    rewrite Hnext. cbn [bind].
    destruct (Writes_ok pieces w1 y Hwf1 Hp1 Hy)
      as (w2 & Y2 & Hrun & Hwf2 & Hp2 & _ & Hk & Hout2).
    rewrite Hrun. cbn [bind].
    assert (Hrest : exists w' Y,
              (if flush
               then c <- Writer_Flush w2 ;;
                    match c with
                    | (journals, Some err) => Ok (journals, Some err)
                    | (journals, None) => scribe journals jss
                    end
               else scribe w2 jss) = Ok (w', None)
              /\ wf w'
              /\ w_w w' ++ pending_bytes w' = w_w w2 ++ pending_bytes w2 ++ Y
              /\ Seg (w_j w2) false (whole jss) Y (w_j w') []).
    { destruct flush; [|exact (IH w2 Hwf2)].
      destruct (Writer_Flush_ok w2 Hwf2) as (w3 & Hfl & Hwf3 & Hj3 & Hw3 & Hpb3).
      rewrite Hfl. cbn [bind].
      destruct (IH w3 Hwf3) as (w' & Y & H1 & H2 & H3 & H4).
      exists w', Y. split; [exact H1|]. split; [exact H2|]. split.
      - rewrite H3, Hpb3, Hw3. cbn [app]. now rewrite <- app_assoc.
      - now rewrite <- Hj3. }
    destruct Hrest as (w' & Y & Hrun' & Hwf' & Hout & Hseg).
    rewrite Hrun'.
    specialize (Hk (whole jss) Y (w_j w') [] Hseg).
    unfold payload in Hk at 1. rewrite Hj1, slice_nil in Hk by lia.
    rewrite Hf1 in Hk. cbn [negb app] in Hk.
    unfold pending_bytes in Hout at 2. rewrite Hp2 in Hout.
    rewrite <- !app_assoc in Hout. rewrite app_assoc, Hout2 in Hout.
    fold (payload w2) in Hout.
    destruct Hwf as (Hlen & Herr & Hpos).
    destruct Hcase as [(Hroom & Hi1 & _ & Hsame)|(Hpad & Hi1 & Hwr1 & Hsink)].
    + exists w', (Y2 ++ chunk (chunkTypeOf true (w_first w2)) (payload w2) ++ Y).
      split; [reflexivity|]. split; [exact Hwf'|]. split.
      * rewrite Hout. rewrite <- !app_assoc. rewrite app_assoc, Hsame.
        rewrite <- !app_assoc. reflexivity.
      * rewrite <- Hi1. exact Hk.
    + exists w', (zeros (blockSize - w_j w) ++ Y2
                  ++ chunk (chunkTypeOf true (w_first w2)) (payload w2) ++ Y).
      split; [reflexivity|]. split; [exact Hwf'|]. split.
      * rewrite Hout, Hsink, Hwr1, Hi1, slice_nil by zlia.
        cbn [app]. rewrite <- !app_assoc. reflexivity.
      * apply Seg_pad.
        -- destruct (w_pending w); zlia.
        -- rewrite <- Hi1. exact Hk.
Qed.

(** X6: however the journals are cut into pieces for [Write], and
    wherever a [Flush] follows a journal, the writer does not fail,
    and the bytes it has sent once it is closed, or flushed, are read
    back as the journals, each of them whole. *)
Theorem pieces_round_trip (jss : list (list (list byte) * bool)) (f : bool)
    (dropper : option (list ErrCorrupted)) (strict checksum : bool)
    (lenp : nat -> Z) :
  (forall k, 0 < lenp k) ->
  exists w closed flushed r',
    scribe (NewWriter [] f) jss = Ok (w, None)
    /\ Writer_Close w = Ok (closed, None)
    /\ Writer_Flush w = Ok (flushed, None)
    /\ w_w flushed = w_w closed
    /\ read (w_w closed) dropper strict checksum lenp = Ok (whole jss, None, r').
Proof.
  intros Hlenp.
  destruct (scribe_ok jss (NewWriter [] f) (wf_NewWriter f))
    as (w & Y & Hrun & Hwf & Hout & Hseg).
  destruct (Writer_Flush_ok w Hwf) as (w3 & Hfl & _ & _ & Hw3 & _).
  assert (Hclose : exists wc, Writer_Close w = Ok (wc, None)
                              /\ w_w wc = w_w w ++ pending_bytes w).
  { unfold Writer_Close. cbn zeta.
    destruct (writePending_ok _ (wf_set_seq w (int (w_seq w + 1)) Hwf))
      as (w' & Hrun' & Hout' & Hwf' & _).
    rewrite Hrun'. cbn [bind]. destruct Hwf' as (_ & Herr' & _). rewrite Herr'.
    eexists. split; [reflexivity|]. simpl_w. rewrite Hout'. destruct w; reflexivity. }
  destruct Hclose as (wc & Hcl & Hwc).
  assert (HY : w_w wc = Y).
  { rewrite Hwc, Hout. unfold pending_bytes, NewWriter. simpl_w.
    rewrite slice_nil by lia. reflexivity. }
  rewrite <- HY in Hseg.
  destruct (read_Seg (whole jss) (w_w wc) _ [] dropper strict checksum lenp Hlenp Hseg)
    as (r' & Hr & _); [intros H; now contradiction H|].
  exists w, wc, w3, r'. split; [exact Hrun|]. split; [exact Hcl|].
  split; [exact Hfl|]. split; [congruence|exact Hr].
Qed.

(** ** A writer given a new sink, and a writer with an error *)

Lemma Inv_new (f : bool) : Inv 0 (mkClient (NewWriter [] f) [] []).
Proof.
  destruct (fresh_writer 0 f (zeros blockSize) ltac:(apply len_zeros; zlia))
    as (Hwf & Ht).
  unfold Inv, NewWriter. cbn [c_w c_sessions c_sinks]. simpl_w.
  split; [lia|]. split; [reflexivity|]. split; [apply len_zeros; zlia|].
  split; [exists 0; apply Packed_end|]. split; [constructor|].
  split; [intros _; split; assumption|constructor].
Qed.

(** [Reset] leaves a writer as new, but for the sequence number and
    the bytes left over in the buffer. *)
Lemma Writer_Reset_fresh (k : Z) (c : client) (f : bool) :
  Inv k c ->
  exists w1 e q b,
    Writer_Reset (c_w c) [] f = Ok (w1, e)
    /\ w1 = mkWriter [] q f 0 0 0 false false None b
    /\ len b = blockSize.
Proof.
  intros (Hk & Hseq & Hlen & Hpk & Hsinks & Hok & Hhs).
  unfold Writer_Reset. cbn zeta.
  destruct (w_err (c_w c)) as [err|] eqn:Herr.
  - assert (Herr1 : w_err (w_set_seq (c_w c) (int (w_seq (c_w c) + 1))) = Some err)
      by (destruct (c_w c); exact Herr).
    rewrite Herr1. cbn [bind].
    do 4 eexists. split; [reflexivity|]. split; [reflexivity|].
    destruct (c_w c); exact Hlen.
  - destruct (Hok eq_refl) as (Hwf & Ht).
    destruct (moved_on k (c_w c) Hseq Herr Hwf Ht)
      as (w' & Hrun & Hwf' & _).
    assert (Herr1 : w_err (w_set_seq (c_w c) (int (w_seq (c_w c) + 1))) = None)
      by (destruct (c_w c); exact Herr).
    rewrite Herr1, Hrun. cbn [bind].
    do 4 eexists. split; [reflexivity|]. split; [reflexivity|]. apply Hwf'.
Qed.

(** X7: a writer of any history, given an empty sink by [Reset], writes
    journals as a new writer does: the bytes it sends to the new sink
    are read back as the journals. *)
Theorem Reset_writes_anew (os : list call) (f f' : bool) (js : list (list byte))
    (dropper : option (list ErrCorrupted)) (strict checksum : bool)
    (lenp : nat -> Z) :
  len os < 2 ^ 64 -> (forall k, 0 < lenp k) ->
  exists c w1 e w2 r',
    calls (mkClient (NewWriter [] f) [] []) os = Ok c
    /\ Writer_Reset (c_w c) [] f' = Ok (w1, e)
    /\ write_loop w1 js = Ok (w2, None)
    /\ read (w_w w2) dropper strict checksum lenp = Ok (js, None, r').
Proof.
  intros Hos Hlenp.
  destruct (calls_ok os 0 _ (Inv_new f) ltac:(lia)) as (c & k & Hrun & HInv).
  destruct (Writer_Reset_fresh k c f' HInv) as (w1 & e & q & b & Hreset & Hw1 & Hb).
  destruct (fresh_writer q f' b Hb) as (Hwf1 & _). rewrite <- Hw1 in Hwf1.
  destruct (write_loop_ok js w1 Hwf1) as (w2 & Y & e2 & Hwrite & Hout & Hseg).
  assert (HY : w_w w2 = Y).
  { rewrite Hout, Hw1. unfold pending_bytes. simpl_w.
    rewrite slice_nil by lia. reflexivity. }
  assert (Hj : w_j w1 = 0) by (rewrite Hw1; reflexivity).
  rewrite Hj, <- HY in Hseg.
  destruct (read_Seg js (w_w w2) e2 [] dropper strict checksum lenp Hlenp Hseg)
    as (r' & Hr & _); [intros H; now contradiction H|].
  exists c, w1, e, w2, r'. auto.
Qed.

(** What a call that is not a [Reset] does to a writer with an error:
    nothing but to the sequence number. *)
Lemma call_step_err (c : client) (o : call) (e : error) :
  w_err (c_w c) = Some e -> (forall f, o <> CallReset f) ->
  exists c',
    call_step c o = Ok c'
    /\ w_w (c_w c') = w_w (c_w c) /\ w_err (c_w c') = Some e
    /\ c_sessions c' = c_sessions c /\ c_sinks c' = c_sinks c.
Proof.
  intros Herr Ho. destruct c as [w hs sinks]. cbn [c_w c_sessions c_sinks] in *.
  assert (Herr1 : w_err (w_set_seq w (int (w_seq w + 1))) = Some e)
    by (destruct w; exact Herr).
  assert (Hw1 : w_w (w_set_seq w (int (w_seq w + 1))) = w_w w)
    by (destruct w; reflexivity).
  destruct o as [|h p| | |f]; cbn [call_step c_w c_sessions c_sinks].
  - unfold Writer_Next. cbn zeta. rewrite Herr1. cbn [bind].
    eexists. split; [reflexivity|]. cbn [c_w c_sessions c_sinks]. auto.
  - destruct (nth_error hs h) as [y|]; [|eexists; split; [reflexivity|auto]].
    unfold Write. rewrite Herr.
    destruct (negb (w_seq w =? y_seq y)); cbn [bind fst];
      (eexists; split; [reflexivity|]; cbn [c_w c_sessions c_sinks]; auto).
  - unfold Writer_Flush. cbn zeta.
    rewrite writePending_err by congruence. cbn [bind]. rewrite Herr1. cbn [fst].
    eexists. split; [reflexivity|]. cbn [c_w c_sessions c_sinks]. auto.
  - unfold Writer_Close. cbn zeta.
    rewrite writePending_err by congruence. cbn [bind]. rewrite Herr1. cbn [fst].
    eexists. split; [reflexivity|]. cbn [c_w c_sessions c_sinks]. auto.
  - exfalso. exact (Ho f eq_refl).
Qed.

(** X8: once a writer has an error, as it has after [Close], no call
    but [Reset] sends a byte to the sink or hands out a session, and
    the error stays. *)
Theorem closed_writer_is_done (os : list call) : forall (c : client) (e : error),
  w_err (c_w c) = Some e -> Forall (fun o => forall f, o <> CallReset f) os ->
  exists c',
    calls c os = Ok c'
    /\ w_w (c_w c') = w_w (c_w c) /\ w_err (c_w c') = Some e
    /\ c_sessions c' = c_sessions c /\ c_sinks c' = c_sinks c.
Proof.
  induction os as [|o os IH]; intros c e Herr Hos.
  - exists c. cbn [calls]. auto.
  - inversion Hos as [|? ? Ho Hos']; subst.
    destruct (call_step_err c o e Herr Ho) as (c1 & Hstep & Hw1 & He1 & Hs1 & Hk1).
    destruct (IH c1 e He1 Hos') as (c' & Hrun & Hw' & He' & Hs' & Hk').
    exists c'. cbn [calls]. rewrite Hstep. cbn [bind].
    split; [exact Hrun|]. repeat split; congruence.
Qed.

(** ** A block that fails the checksum *)

(** [nextChunk] on a chunk whose checksum is not the one stored. *)
Lemma nextChunk_loop_badsum (r : Reader) (first : bool) (c l ty : Z) :
  r_j r + headerSize <= r_n r ->
  le_combine (slice (r_buf r) (r_j r + 0) (r_j r + 4)) = c ->
  le_combine (slice (r_buf r) (r_j r + 4) (r_j r + 6)) = l ->
  byte.unsigned (index (r_buf r) (r_j r + 6)) = ty ->
  fullChunkType <= ty <= lastChunkType ->
  r_j r + headerSize + l <= r_n r ->
  crc (slice (r_buf r) (r_j r + headerSize - 1) (r_j r + headerSize + l)) <> c ->
  r_checksum r = true ->
  nextChunk_loop 0 r first
  = ret (corrupt (r_set_j (r_set_i r (r_n r)) (r_n r)) (r_n r - r_j r)
           "checksum mismatch" false).
Proof.
  intros Hfit Hc Hl Hty Hrange Hin Hcrc Hck.
  destruct r as [rr rd rs rc rq ri rj rn rl re rb].
  cbn [r_j r_n r_buf r_checksum] in *. subst rc. cbn [nextChunk_loop]. simpl_r.
  rewrite Hc, Hl, Hty.
  apply Z.leb_le in Hfit. rewrite Hfit.
  assert (E0 : (ty =? 0) = false)
    by (apply Z.eqb_neq; unfold fullChunkType in *; lia).
  rewrite E0, andb_false_r.
  assert (E1 : (ty <? fullChunkType) || (ty >? lastChunkType) = false).
  { apply orb_false_iff. rewrite Z.gtb_ltb, !Z.ltb_ge. lia. }
  rewrite E1.
  assert (E2 : (rj + headerSize + l >? rn) = false)
    by (rewrite Z.gtb_ltb; apply Z.ltb_ge; lia).
  rewrite E2.
  assert (E3 : (c =? crc (slice rb (rj + headerSize - 1) (rj + headerSize + l))) = false)
    by (apply Z.eqb_neq; congruence).
  rewrite E3. reflexivity.
Qed.

(** A chunk with the checksum [c] in its header, whatever the
    checksum of its payload is. *)
Definition chunk_with (c chunkType : Z) (p : list byte) : list byte :=
  le_split 4 c ++ le_split 2 (len p) ++ [byte.of_Z chunkType] ++ p.

Lemma len_chunk_with (c ty : Z) (p : list byte) :
  len (chunk_with c ty p) = headerSize + len p.
Proof.
  unfold chunk_with. rewrite !len_app, !len_le_split, len_cons, len_nil.
  unfold headerSize. lia.
Qed.

(** The reader with a block in its buffer that starts with such a
    chunk, when [nextChunk] checks the sums. *)
Lemma Ready_badsum (r : Reader) (c ty : Z) (p rest U : list byte) (first : bool) :
  Ready r 0 (chunk_with c ty p ++ rest) U ->
  len (chunk_with c ty p ++ rest) = blockSize ->
  0 <= c < 2 ^ 32 -> c <> crc (byte.of_Z ty :: p) ->
  fullChunkType <= ty <= lastChunkType -> r_checksum r = true ->
  nextChunk_loop 0 r first
  = ret (corrupt (r_set_j (r_set_i r blockSize) blockSize) blockSize
           "checksum mismatch" false)
  /\ r_n r = blockSize /\ U = r_r r.
Proof.
  intros (Hlen & Herr & _ & Hj & Hn & HX & Hlast & HU) HG Hc Hne Hty Hck.
  rewrite HG in *. pose proof (len_nonneg p) as Hp. pose proof (len_nonneg rest) as Hr.
  rewrite len_app, len_chunk_with in HG.
  assert (En : r_n r = blockSize) by lia.
  assert (S : forall a b, 0 <= a <= b -> b <= headerSize + len p ->
            slice (r_buf r) (0 + a) (0 + b) = slice (chunk_with c ty p) a b).
  { intros a b Ha Hb.
    rewrite <- (slice_app_l (chunk_with c ty p) rest a b)
      by (rewrite ?len_chunk_with; lia).
    rewrite <- HX. symmetry. apply slice_slice; lia. }
  set (c4 := le_split 4 c). set (l2 := le_split 2 (len p)).
  assert (L4 : len c4 = 4) by apply len_le_split.
  assert (L2 : len l2 = 2) by apply len_le_split.
  assert (L6 : len (c4 ++ l2) = 6) by (rewrite len_app; lia).
  assert (P1 : slice (chunk_with c ty p) 0 4 = c4)
    by (unfold chunk_with; now apply slice_app_head).
  assert (P2 : slice (chunk_with c ty p) 4 6 = l2).
  { unfold chunk_with. rewrite (slice_app_at (le_split 4 c)) by exact L4.
    now apply slice_app_head. }
  assert (P3 : slice (chunk_with c ty p) 6 7 = [byte.of_Z ty]).
  { unfold chunk_with. fold c4 l2. rewrite app_assoc.
    rewrite (slice_app_at (c4 ++ l2)) by exact L6.
    now apply (slice_app_head [byte.of_Z ty]). }
  assert (P4 : slice (chunk_with c ty p) 6 (headerSize + len p) = byte.of_Z ty :: p).
  { unfold chunk_with. fold c4 l2. rewrite app_assoc.
    rewrite (slice_app_at (c4 ++ l2)) by exact L6.
    apply slice_all. cbn [app]. rewrite len_cons. zlia. }
  assert (Hidx : index (r_buf r) (0 + 6) = byte.of_Z ty).
  { pose proof (slice_one (r_buf r) (0 + 6) ltac:(zlia)) as H1.
    replace (0 + 6 + 1) with (0 + 7) in H1 by lia.
    rewrite (S 6 7) in H1 by zlia. rewrite P3 in H1. congruence. }
  split; [|split; [exact En|]].
  - rewrite (nextChunk_loop_badsum r first c (len p) ty).
    + rewrite En, Hj. replace (blockSize - 0) with blockSize by lia. reflexivity.
    + zlia.
    + rewrite Hj, (S 0 4), P1 by zlia. unfold c4. rewrite le_combine_split.
      apply Z.mod_small. exact Hc.
    + rewrite Hj, (S 4 6), P2 by zlia. unfold l2. rewrite le_combine_split.
      apply Z.mod_small. change (2 ^ (Z.of_nat 2 * 8)) with 65536. zlia.
    + rewrite Hj, Hidx, byte.unsigned_of_Z. unfold byte.wrap.
      apply Z.mod_small. unfold fullChunkType, lastChunkType in *. lia.
    + exact Hty.
    + zlia.
    + rewrite Hj.
      replace (0 + headerSize - 1) with (0 + 6) by zlia.
      replace (0 + headerSize + len p) with (0 + (headerSize + len p)) by lia.
      rewrite (S 6 (headerSize + len p)), P4 by zlia. congruence.
    + exact Hck.
  - rewrite HU, En, slice_nil by lia. reflexivity.
Qed.

Lemma Drop_dropper (r : Reader) (d : ErrCorrupted) :
  r_dropper (Drop r d) = add_drops (r_dropper r) [d].
Proof. unfold Drop. destruct r as [rr [log|] rs rc rq ri rj rn rl re rb]; reflexivity. Qed.

Lemma Drop_fields (r : Reader) (d : ErrCorrupted) :
  r_r (Drop r d) = r_r r /\ r_strict (Drop r d) = r_strict r
  /\ r_checksum (Drop r d) = r_checksum r /\ r_seq (Drop r d) = r_seq r
  /\ r_i (Drop r d) = r_i r /\ r_j (Drop r d) = r_j r /\ r_n (Drop r d) = r_n r
  /\ r_last (Drop r d) = r_last r /\ r_err (Drop r d) = r_err r
  /\ r_buf (Drop r d) = r_buf r.
Proof.
  unfold Drop. destruct r as [rr [log|] rs rc rq ri rj rn rl re rb];
    repeat split.
Qed.

(** What [Next] finds in a block that fails the checksum: a strict
    reader records the corruption; another one drops the block and
    stands before the next. *)
Lemma Next_loop_badsum (r : Reader) (c ty : Z) (p rest out : list byte) (fuel : nat) :
  RS r 0 ((chunk_with c ty p ++ rest) ++ out) ->
  len (chunk_with c ty p ++ rest) = blockSize ->
  0 <= c < 2 ^ 32 -> c <> crc (byte.of_Z ty :: p) ->
  fullChunkType <= ty <= lastChunkType -> r_checksum r = true ->
  let d := mkErrCorrupted blockSize "checksum mismatch" in
  exists r3,
    r_dropper r3 = add_drops (r_dropper r) [d] /\ same r r3
    /\ if r_strict r
       then Next_loop (S fuel) r = Ok (r3, None, Some (NewErrCorrupted d))
       else Next_loop (S fuel) r = Next_loop fuel r3 /\ RS r3 0 out.
Proof.
  intros HRS HG Hc Hne Hty Hck d.
  pose proof (len_nonneg p) as Hp. pose proof (len_nonneg rest) as Hr.
  pose proof HG as HG'. rewrite len_app, len_chunk_with in HG'.
  destruct (RS_ready r 0 (chunk_with c ty p ++ rest) out HRS (Z.le_refl 0))
    as (r2 & Hready & Hsame & Hdrop & Hrun); [zlia|zlia|].
  destruct Hsame as (Hq2 & Hst2 & Hc2).
  destruct (Ready_badsum r2 c ty p rest out true Hready HG Hc Hne Hty)
    as (Hstep & Hn2 & Hout); [congruence|].
  destruct Hready as (Hlen2 & Herr2 & _).
  cbn [Next_loop]. unfold nextChunk. rewrite Hrun, Hstep. unfold ret, corrupt.
  fold d.
  set (r2' := r_set_j (r_set_i r2 blockSize) blockSize).
  destruct (Drop_fields r2' d) as (F1 & F2 & F3 & F4 & F5 & F6 & F7 & F8 & F9 & F10).
  pose proof (Drop_dropper r2' d) as FD.
  assert (G1 : r_r r2' = r_r r2 /\ r_strict r2' = r_strict r2
               /\ r_checksum r2' = r_checksum r2 /\ r_seq r2' = r_seq r2
               /\ r_dropper r2' = r_dropper r2 /\ r_err r2' = r_err r2
               /\ r_buf r2' = r_buf r2 /\ r_n r2' = r_n r2
               /\ r_j r2' = blockSize).
  { unfold r2'. destruct r2; repeat split. }
  destruct G1 as (G1 & G2 & G3 & G4 & G5 & G6 & G7 & G8 & G9).
  rewrite F2, G2, Hst2. cbn [negb]. rewrite andb_true_r.
  destruct (r_strict r) eqn:Hstrict; cbn [fst snd bind is_errSkip].
  - exists (r_set_err (Drop r2' d) (Some (NewErrCorrupted d))).
    split; [|split; [|reflexivity]].
    + replace (r_dropper (r_set_err (Drop r2' d) (Some (NewErrCorrupted d))))
        with (r_dropper (Drop r2' d)) by (destruct (Drop r2' d); reflexivity).
      congruence.
    + unfold same.
      replace (r_seq (r_set_err (Drop r2' d) (Some (NewErrCorrupted d))))
        with (r_seq (Drop r2' d)) by (destruct (Drop r2' d); reflexivity).
      replace (r_strict (r_set_err (Drop r2' d) (Some (NewErrCorrupted d))))
        with (r_strict (Drop r2' d)) by (destruct (Drop r2' d); reflexivity).
      replace (r_checksum (r_set_err (Drop r2' d) (Some (NewErrCorrupted d))))
        with (r_checksum (Drop r2' d)) by (destruct (Drop r2' d); reflexivity).
      repeat split; congruence.
  - exists (Drop r2' d). split; [congruence|]. split; [repeat split; congruence|].
    split; [reflexivity|].
    split; [congruence|]. split; [congruence|]. right.
    rewrite F1, F6, F7, G1, G8, G9, Hn2. repeat split; try zlia. exact Hout.
Qed.

(** Reading on from a reader that has read nothing yet, before such a
    block and the bytes of the journals [js]. *)
Lemma read_loop_badsum (r : Reader) (c ty : Z) (p rest out : list byte)
    (js : list (list byte)) (e : Z) (lenp : nat -> Z) (fuel : nat) :
  len (r_buf r) = blockSize -> r_err r = None -> r_j r = 0 -> r_n r = 0 ->
  r_r r = (chunk_with c ty p ++ rest) ++ out -> r_checksum r = true ->
  len (chunk_with c ty p ++ rest) = blockSize ->
  0 <= c < 2 ^ 32 -> c <> crc (byte.of_Z ty :: p) ->
  fullChunkType <= ty <= lastChunkType ->
  (forall k, 0 < lenp k) -> Seg 0 false js out e [] ->
  fuel = (List.length (r_buf r) + List.length (r_r r))%nat ->
  let d := mkErrCorrupted blockSize "checksum mismatch" in
  exists r',
    r_dropper r' = add_drops (r_dropper r) [d]
    /\ read_loop (S fuel) r lenp []
       = if r_strict r then Ok ([], Some (NewErrCorrupted d), r')
         else Ok (js, None, r').
Proof.
  intros Hb He Hj Hn Hr Hck HG Hc Hne Hty Hlenp Hseg Hfuel d.
  destruct r as [rr rd rs rc rq ri rj rn rl re rb].
  cbn [r_buf r_err r_j r_n r_r r_checksum r_strict r_dropper] in *.
  subst re rj rn rc.
  set (U0 := (chunk_with c ty p ++ rest) ++ out) in *.
  assert (HlU : len rr = blockSize + len out)
    by (rewrite Hr; unfold U0; rewrite len_app, HG; reflexivity).
  pose proof (len_nonneg out) as Hlo.
  set (r1 := mkReader rr rd rs true (int (rq + 1)) 0 0 0 rl None rb).
  assert (HRS : RS r1 0 U0).
  { split; [exact Hb|]. split; [reflexivity|]. right.
    unfold r1. simpl_r. repeat split; try zlia. symmetry. exact Hr. }
  assert (Hstep : Reader_Next (mkReader rr rd rs true rq ri 0 0 rl None rb)
                  = Next_loop (S fuel) r1).
  { unfold Reader_Next. simpl_r.
    change (r_set_i (r_set_seq _ _) 0) with r1.
    unfold budget, r1. simpl_r. rewrite Hfuel. reflexivity. }
  cbn [read_loop]. rewrite Hstep.
  destruct (Next_loop_badsum r1 c ty p rest out fuel HRS HG Hc Hne Hty eq_refl)
    as (r3 & Hd3 & Hs3 & Hrun).
  fold d in Hd3, Hrun. unfold r1 in Hd3, Hrun at 1. cbn [r_strict r_dropper] in Hd3, Hrun.
  fold r1 in Hrun.
  destruct rs.
  - exists r3. split; [exact Hd3|]. rewrite Hrun. reflexivity.
  - destruct Hrun as (Hrun & HRS3). rewrite Hrun.
    destruct Hs3 as (Hq3 & Hst3 & _). unfold r1 in Hq3, Hst3.
    cbn [r_seq r_strict] in Hq3, Hst3.
    assert (Hfl : len out < Z.of_nat fuel) by (unfold len in *; zlia).
    pose proof (Next_loop_ok _ _ _ _ _ _ Hseg eq_refl r3 _ HRS3
                  ltac:(intros H; now contradiction H) Hfl) as Hnext.
    destruct js as [|q js'].
    + destruct Hnext as (r' & Hrun' & _ & Hd').
      rewrite Hrun'. cbn [bind]. exists r'. split; [|reflexivity].
      rewrite Hd', Hd3, add_drops_nil. reflexivity.
    + destruct Hnext as (r' & pos' & U' & ds1 & ds2 & Hrun' & Hin & Hm & Hds12 & Hs' & Hd').
      rewrite Hrun'. cbn [bind]. unfold ReadAll.
      destruct ds1; [|discriminate]. cbn [app] in Hds12. subst ds2.
      pose proof Hin as (HRS' & Hij' & _).
      destruct (ReadAll_loop_ok (budget r') lenp r' (mkSingleReader (r_seq r3) None)
                  pos' U' q js' e [] [] Hlenp Hin)
        as (r2 & pos2 & U2 & Hrun2 & HRS2 & Hseg2 & Hm2 & Hs2 & Hd2).
      { destruct Hs' as (-> & _). reflexivity. }
      { reflexivity. }
      { apply (budget_bound r' pos' U' HRS'). lia. }
      rewrite Hrun2. cbn [bind app].
      destruct (read_loop_ok lenp js' r2 pos2 U2 e [] [q] fuel Hlenp Hseg2 HRS2)
        as (r4 & Hrun4 & Hd4).
      { intros H; now contradiction H. }
      { unfold len in *. zlia. }
      exists r4. split; [|exact Hrun4].
      rewrite Hd4, Hd2, Hd', Hd3, !add_drops_nil. reflexivity.
Qed.

(** X9: a block of 32768 bytes that begins with a chunk whose stored
    checksum is not that of its type and payload, before the bytes
    written for the journals [js].  A reader that checks the sums and
    is strict returns the corruption, "checksum mismatch", for the
    whole block, and no journal; one that is not strict drops the
    block, whatever follows the chunk in it, tells the dropper, and
    returns [js]. *)
Theorem damaged_block (c ty : Z) (p rest : list byte) (js : list (list byte))
    (dropper : option (list ErrCorrupted)) (lenp : nat -> Z) :
  0 <= c < 2 ^ 32 -> c <> crc (byte.of_Z ty :: p) ->
  fullChunkType <= ty <= lastChunkType ->
  len (chunk_with c ty p ++ rest) = blockSize ->
  (forall k, 0 < lenp k) ->
  let d := mkErrCorrupted blockSize "checksum mismatch" in
  exists out r1 r2,
    write js = Ok (out, None)
    /\ read ((chunk_with c ty p ++ rest) ++ out) dropper true true lenp
       = Ok ([], Some (NewErrCorrupted d), r1)
    /\ r_dropper r1 = add_drops dropper [d]
    /\ read ((chunk_with c ty p ++ rest) ++ out) dropper false true lenp
       = Ok (js, None, r2)
    /\ r_dropper r2 = add_drops dropper [d].
Proof.
  intros Hc Hne Hty HG Hlenp d.
  destruct (write_Seg js) as (out & e & Hw & Hseg).
  set (U0 := (chunk_with c ty p ++ rest) ++ out).
  assert (Hgen : forall strict, exists r',
            r_dropper r' = add_drops dropper [d]
            /\ read U0 dropper strict true lenp
               = if strict then Ok ([], Some (NewErrCorrupted d), r')
                 else Ok (js, None, r')).
  { intros strict. unfold read.
    set (r := NewReader U0 dropper strict true).
    assert (Hb : len (r_buf r) = blockSize) by (apply len_zeros; zlia).
    destruct (read_loop_badsum r c ty p rest out js e lenp
                (List.length (r_buf r) + List.length (r_r r))
                Hb eq_refl eq_refl eq_refl eq_refl eq_refl HG Hc Hne Hty Hlenp
                Hseg eq_refl) as (r' & Hd & Hrun).
    exists r'. split; [exact Hd|]. exact Hrun. }
  destruct (Hgen true) as (r1 & Hd1 & Hr1).
  destruct (Hgen false) as (r2 & Hd2 & Hr2).
  exists out, r1, r2. split; [exact Hw|]. split; [exact Hr1|].
  split; [exact Hd1|]. split; [exact Hr2|exact Hd2].
Qed.

End Framing.

(** ** A reader that does not check the sums *)

Section Unchecked.

(** Two checksum functions, of which nothing is known. *)
Variables crc crc' : list byte -> Z.

Lemma corrupt_checksum (r : Reader) (n : Z) (reason : string) (skip : bool) :
  r_checksum (fst (corrupt r n reason skip)) = r_checksum r.
Proof.
  unfold corrupt, Drop.
  destruct r as [rr [log|] [|] rc rq ri rj rn rl re rb], skip; reflexivity.
Qed.

Lemma ret_corrupt_checksum (r r' : Reader) (n : Z) (reason : string) (skip : bool)
    (e : option error) :
  ret (corrupt r n reason skip) = Ok (r', e) -> r_checksum r' = r_checksum r.
Proof.
  unfold ret. intros H. rewrite <- (corrupt_checksum r n reason skip). congruence.
Qed.

Lemma nextChunk_loop_unchecked (fuel : nat) : forall (r : Reader) (first : bool),
  r_checksum r = false ->
  nextChunk_loop crc fuel r first = nextChunk_loop crc' fuel r first
  /\ forall r' e, nextChunk_loop crc' fuel r first = Ok (r', e) -> r_checksum r' = false.
Proof.
  induction fuel as [|fuel IH]; intros r first Hc;
    destruct r as [rr rd rs rc rq ri rj rn rl re rb];
    cbn [r_checksum] in Hc; subst rc;
    cbn [nextChunk_loop]; unfold ReadFull; simpl_r; cbn [andb];
    repeat match goal with
           | |- context [if ?c then _ else _] => destruct c
           end;
    try (split; [reflexivity|]; intros r' e H;
         first [ apply ret_corrupt_checksum in H; exact H
               | injection H as <- _; reflexivity
               | discriminate H ]).
  apply IH. reflexivity.
Qed.

Lemma Next_loop_unchecked (fuel : nat) : forall (r : Reader),
  r_checksum r = false ->
  Next_loop crc fuel r = Next_loop crc' fuel r
  /\ forall r' x e, Next_loop crc' fuel r = Ok (r', x, e) -> r_checksum r' = false.
Proof.
  induction fuel as [|fuel IH]; intros r Hc; cbn [Next_loop].
  - split; [reflexivity|]. intros r' x e H. discriminate H.
  - unfold nextChunk.
    destruct (nextChunk_loop_unchecked 1 r true Hc) as (-> & Hk).
    destruct (nextChunk_loop crc' 1 r true) as [[r1 [err|]]| |]; cbn [bind].
    + specialize (Hk r1 (Some err) eq_refl).
      destruct (is_errSkip err); [now apply IH|].
      split; [reflexivity|]. intros r' x e H. injection H as <- _ _. exact Hk.
    + specialize (Hk r1 None eq_refl).
      split; [reflexivity|]. intros r' x e H. injection H as <- _ _. exact Hk.
    + split; [reflexivity|]. intros r' x e H. discriminate H.
    + split; [reflexivity|]. intros r' x e H. discriminate H.
Qed.

Lemma Reader_Next_unchecked (r : Reader) :
  r_checksum r = false ->
  Reader_Next crc r = Reader_Next crc' r
  /\ forall r' x e, Reader_Next crc' r = Ok (r', x, e) -> r_checksum r' = false.
Proof.
  intros Hc. destruct r as [rr rd rs rc rq ri rj rn rl re rb].
  cbn [r_checksum] in Hc. subst rc. unfold Reader_Next. simpl_r.
  destruct re as [err|].
  - split; [reflexivity|]. intros r' x e H. injection H as <- _ _. reflexivity.
  - apply Next_loop_unchecked. reflexivity.
Qed.

Lemma advance_unchecked (fuel : nat) : forall (r : Reader) (x : singleReader),
  r_checksum r = false ->
  advance crc fuel r x = advance crc' fuel r x
  /\ forall r' x' e, advance crc' fuel r x = Ok (r', x', e) -> r_checksum r' = false.
Proof.
  assert (Hstay : forall (r : Reader) (x : singleReader) (e0 : option error),
            r_checksum r = false ->
            @Ok (Reader * singleReader * option error) (r, x, e0) = Ok (r, x, e0)
            /\ forall r' x' e, Ok (r, x, e0) = Ok (r', x', e) -> r_checksum r' = false).
  { intros r x e0 Hc. split; [reflexivity|].
    intros r' x' e H. injection H as <- _ _. exact Hc. }
  induction fuel as [|fuel IH]; intros r x Hc; cbn [advance].
  - destruct (r_i r =? r_j r); [|now apply Hstay].
    destruct (r_last r); [now apply Hstay|].
    split; [reflexivity|]. intros r' x' e H. discriminate H.
  - destruct (r_i r =? r_j r); [|now apply Hstay].
    destruct (r_last r); [now apply Hstay|].
    unfold nextChunk.
    destruct (nextChunk_loop_unchecked 1 r false Hc) as (-> & Hk).
    destruct (nextChunk_loop crc' 1 r false) as [[r1 [err|]]| |]; cbn [bind].
    + apply Hstay. exact (Hk r1 (Some err) eq_refl).
    + apply IH. exact (Hk r1 None eq_refl).
    + split; [reflexivity|]. intros r' x' e H. discriminate H.
    + split; [reflexivity|]. intros r' x' e H. discriminate H.
Qed.

Lemma Read_unchecked (r : Reader) (x : singleReader) (lenp : Z) :
  r_checksum r = false ->
  Read crc r x lenp = Read crc' r x lenp
  /\ forall r' x' p e, Read crc' r x lenp = Ok (r', x', p, e) -> r_checksum r' = false.
Proof.
  intros Hc. unfold Read.
  destruct (negb (r_seq r =? x_seq x));
    [split; [reflexivity|]; intros r' x' p e H; injection H as <- _ _ _; exact Hc|].
  destruct (x_err x) as [xe|];
    [split; [reflexivity|]; intros r' x' p e H; injection H as <- _ _ _; exact Hc|].
  destruct (r_err r) as [re|];
    [split; [reflexivity|]; intros r' x' p e H; injection H as <- _ _ _; exact Hc|].
  destruct (advance_unchecked (budget r) r x Hc) as (-> & Hk).
  destruct (advance crc' (budget r) r x) as [[[r1 x1] [err|]]| |]; cbn [bind].
  - specialize (Hk r1 x1 (Some err) eq_refl).
    split; [reflexivity|]. intros r' x' p e H. injection H as <- _ _ _. exact Hk.
  - specialize (Hk r1 x1 None eq_refl).
    split; [reflexivity|]. intros r' x' p e H. injection H as <- _ _ _.
    destruct r1; exact Hk.
  - split; [reflexivity|]. intros r' x' p e H. discriminate H.
  - split; [reflexivity|]. intros r' x' p e H. discriminate H.
Qed.

Lemma ReadAll_loop_unchecked (fuel : nat) :
  forall (r : Reader) (x : singleReader) (lenp : nat -> Z) (acc : list byte),
  r_checksum r = false ->
  ReadAll_loop crc fuel r x lenp acc = ReadAll_loop crc' fuel r x lenp acc
  /\ forall r' s e, ReadAll_loop crc' fuel r x lenp acc = Ok (r', s, e) ->
       r_checksum r' = false.
Proof.
  induction fuel as [|fuel IH]; intros r x lenp acc Hc; cbn [ReadAll_loop].
  - split; [reflexivity|]. intros r' s e H. discriminate H.
  - destruct (Read_unchecked r x (lenp 0%nat) Hc) as (-> & Hk).
    destruct (Read crc' r x (lenp 0%nat)) as [[[[r1 x1] p] [err|]]| |]; cbn [bind].
    + specialize (Hk r1 x1 p (Some err) eq_refl).
      split; [reflexivity|]. intros r' s e H.
      destruct err; injection H as <- _ _; exact Hk.
    + specialize (Hk r1 x1 p None eq_refl). now apply IH.
    + split; [reflexivity|]. intros r' s e H. discriminate H.
    + split; [reflexivity|]. intros r' s e H. discriminate H.
Qed.

Lemma read_loop_unchecked (fuel : nat) :
  forall (r : Reader) (lenp : nat -> Z) (ss : list (list byte)),
  r_checksum r = false ->
  read_loop crc fuel r lenp ss = read_loop crc' fuel r lenp ss.
Proof.
  induction fuel as [|fuel IH]; intros r lenp ss Hc; cbn [read_loop]; [reflexivity|].
  destruct (Reader_Next_unchecked r Hc) as (-> & Hk).
  destruct (Reader_Next crc' r) as [[[r1 x] e]| |]; cbn [bind];
    [|reflexivity|reflexivity].
  specialize (Hk r1 x e eq_refl).
  destruct e as [err|]; [destruct x; reflexivity|].
  destruct x as [j|]; [|reflexivity].
  unfold ReadAll.
  destruct (ReadAll_loop_unchecked (budget r1) r1 j lenp [] Hk) as (-> & Hk').
  destruct (ReadAll_loop crc' (budget r1) r1 j lenp []) as [[[r2 s] e]| |];
    cbn [bind]; [|reflexivity|reflexivity].
  specialize (Hk' r2 s e eq_refl).
  destruct e; [reflexivity|]. now apply IH.
Qed.

(** X14: a reader made with [checksum] false never calls the checksum
    function.  Whatever the bytes of the source are, reading them all
    gives the journals, the error and the reader that it gives with
    any other function in the place of the checksum.  So the journals
    that a writer wrote with another checksum function, whose sums the
    reader's own function would not give, are read back whole. *)
Theorem unchecked_ignores_sums (U : list byte) (js : list (list byte))
    (dropper : option (list ErrCorrupted)) (strict : bool) (lenp : nat -> Z) :
  read crc U dropper strict false lenp = read crc' U dropper strict false lenp
  /\ ((forall b, 0 <= crc' b < 2 ^ 32) -> (forall k, 0 < lenp k) ->
      exists out r',
        write crc' js = Ok (out, None)
        /\ read crc out dropper strict false lenp = Ok (js, None, r')
        /\ r_dropper r' = dropper).
Proof.
  assert (Hsame : forall V, read crc V dropper strict false lenp
                            = read crc' V dropper strict false lenp).
  { intros V. unfold read. now apply read_loop_unchecked. }
  split; [apply Hsame|].
  intros Hrange Hlenp.
  destruct (write_Seg crc' js) as (out & e & Hw & Hseg).
  destruct (read_Seg crc' Hrange js out e [] dropper strict false lenp Hlenp Hseg)
    as (r' & Hr & Hd); [intros H; now contradiction H|].
  exists out, r'. split; [exact Hw|]. split; [rewrite Hsame; exact Hr|].
  now rewrite add_drops_nil in Hd.
Qed.

End Unchecked.

(** A stand-in checksum, to run the definitions on concrete inputs. *)
Definition sampleCRC (b : list byte) : Z :=
  uint32 (fold_left (fun h c => uint32 (h * 131 + byte.unsigned c + 1)) b 7).

Lemma sampleCRC_range (b : list byte) : 0 <= sampleCRC b < 2 ^ 32.
Proof. unfold sampleCRC. unfold uint32 at 1. apply Z.mod_pos_bound. lia. Qed.

(** ** Running the definitions *)

(** Equality of states and of results is decidable: what a call
    returns on a concrete input is settled by evaluation, buffers of
    32768 bytes included. *)
Definition ErrCorrupted_eq_dec (a b : ErrCorrupted) : {a = b} + {a <> b}.
Proof. decide equality; [apply string_dec|apply Z.eq_dec]. Defined.

Definition error_eq_dec (a b : error) : {a = b} + {a <> b}.
Proof. decide equality; [apply string_dec|apply ErrCorrupted_eq_dec]. Defined.

Definition option_eq_dec {A : Type} (dec : forall a b : A, {a = b} + {a <> b})
    (a b : option A) : {a = b} + {a <> b}.
Proof. decide equality. Defined.

Definition prod_eq_dec {A B : Type} (da : forall a b : A, {a = b} + {a <> b})
    (db : forall a b : B, {a = b} + {a <> b}) (a b : A * B) : {a = b} + {a <> b}.
Proof. decide equality. Defined.

Definition res_eq_dec {A : Type} (dec : forall a b : A, {a = b} + {a <> b})
    (a b : res A) : {a = b} + {a <> b}.
Proof. decide equality. apply string_dec. Defined.

Definition Reader_eq_dec (a b : Reader) : {a = b} + {a <> b}.
Proof.
  decide equality;
    first [ apply (list_eq_dec Byte.byte_eq_dec)
          | apply (option_eq_dec error_eq_dec)
          | apply (option_eq_dec (list_eq_dec ErrCorrupted_eq_dec))
          | apply bool_dec
          | apply Z.eq_dec ].
Defined.

Definition singleReader_eq_dec (a b : singleReader) : {a = b} + {a <> b}.
Proof. decide equality; [apply (option_eq_dec error_eq_dec)|apply Z.eq_dec]. Defined.

Definition Writer_eq_dec (a b : Writer) : {a = b} + {a <> b}.
Proof.
  decide equality;
    first [ apply (list_eq_dec Byte.byte_eq_dec)
          | apply (option_eq_dec error_eq_dec)
          | apply bool_dec
          | apply Z.eq_dec ].
Defined.

Definition singleWriter_eq_dec (a b : singleWriter) : {a = b} + {a <> b}.
Proof. decide equality; apply Z.eq_dec. Defined.

Definition agree {A : Type} (dec : forall a b : A, {a = b} + {a <> b}) (a b : A) : bool :=
  if dec a b then true else false.

Lemma agree_eq {A : Type} (dec : forall a b : A, {a = b} + {a <> b}) (a b : A) :
  agree dec a b = true -> a = b.
Proof. unfold agree. destruct (dec a b); congruence. Qed.

(** The results of [Next], [Read] and [nextChunk], and of the calls of
    the writer. *)
Definition Next_dec :=
  res_eq_dec (prod_eq_dec (prod_eq_dec Reader_eq_dec (option_eq_dec singleReader_eq_dec))
                (option_eq_dec error_eq_dec)).
Definition Read_dec :=
  res_eq_dec (prod_eq_dec
                (prod_eq_dec (prod_eq_dec Reader_eq_dec singleReader_eq_dec)
                   (list_eq_dec Byte.byte_eq_dec))
                (option_eq_dec error_eq_dec)).
Definition Writer_Next_dec :=
  res_eq_dec (prod_eq_dec (prod_eq_dec Writer_eq_dec (option_eq_dec singleWriter_eq_dec))
                (option_eq_dec error_eq_dec)).
Definition Write_dec :=
  res_eq_dec (prod_eq_dec (prod_eq_dec Writer_eq_dec Z.eq_dec)
                (option_eq_dec error_eq_dec)).
Definition Flush_dec :=
  res_eq_dec (prod_eq_dec Writer_eq_dec (option_eq_dec error_eq_dec)).

Ltac run dec := apply (agree_eq dec); vm_compute; reflexivity.

(** A journal cut short: a First chunk and nothing after it. *)
Definition cutShort : list byte := chunk sampleCRC firstChunkType [Byte.x61].

(** The reader over [cutShort], once the payload of the First chunk is
    read: nothing is left of the final block, 8 bytes long. *)
Definition atCut (strict : bool) : Reader :=
  mkReader [] (Some []) strict true 1 8 8 8 false None
    (store (zeros blockSize) 0 cutShort).

Lemma atCut_reached (strict : bool) :
  match Reader_Next sampleCRC (NewReader cutShort (Some []) strict true) with
  | Ok (r, Some x, None) =>
      match Read sampleCRC r x 512 with
      | Ok (r', _, p, e) =>
          p = [Byte.x61] /\ e = None
          /\ (r_r r', r_dropper r', r_strict r', r_checksum r', r_seq r')
             = ([], Some [], strict, true, 1)
          /\ (r_i r', r_j r', r_n r', r_last r', r_err r') = (8, 8, 8, false, None)
          /\ same_bytes (r_buf r') (r_buf (atCut strict)) = true
      | _ => False
      end
  | _ => False
  end.
Proof. destruct strict; vm_compute; repeat split; reflexivity. Qed.






(** The space [ReadAll] hands to its calls of [Read]: a byte at
    first, one more every time. *)
Definition growing (k : nat) : Z := Z.of_nat (S k).

(** Three journals, the first of them empty, written and read back by
    a strict reader that checks the sums. *)
Lemma round_trip_witness :
  (forall k, 0 < growing k)
  /\ exists out r',
       write sampleCRC [[]; [Byte.x61]; [Byte.x62; Byte.x63]] = Ok (out, None)
       /\ read sampleCRC out (Some []) true true growing
          = Ok ([[]; [Byte.x61]; [Byte.x62; Byte.x63]], None, r')
       /\ r_dropper r' = Some [].
Proof.
  assert (H : forall k, 0 < growing k) by (intros k; unfold growing; lia).
  split; [exact H|].
  exact (round_trip sampleCRC sampleCRC_range
           [[]; [Byte.x61]; [Byte.x62; Byte.x63]] (Some []) true true growing H).
Defined.

(** A block of zeros between the journal [a] and the journal [b]. *)
Lemma zero_block_skipped_witness :
  (forall k, 0 < growing k)
  /\ exists out1 out2 r',
       write sampleCRC [[Byte.x61]] = Ok (out1, None)
       /\ write sampleCRC [[Byte.x62]] = Ok (out2, None)
       /\ read sampleCRC
            (out1 ++ zeros ((- len out1) mod blockSize) ++ zeros blockSize ++ out2)
            (Some []) false true growing
          = Ok ([[Byte.x61]] ++ [[Byte.x62]], None, r')
       /\ r_dropper r'
          = add_drops (Some [])
              (tail_drop (len out1 mod blockSize)
               ++ [mkErrCorrupted blockSize "zero header"]).
Proof.
  assert (H : forall k, 0 < growing k) by (intros k; unfold growing; lia).
  split; [exact H|].
  exact (zero_block_skipped sampleCRC sampleCRC_range
           [[Byte.x61]] [[Byte.x62]] (Some []) true growing H).
Defined.

(** Two journals with a [Flush] between them, a write to the session
    the [Flush] made stale, and a [Close]. *)
Lemma chunks_stay_in_blocks_witness :
  let os := [CallNext; CallWrite 0 [Byte.x61]; CallFlush; CallWrite 0 [Byte.x62];
             CallNext; CallWrite 1 [Byte.x63]; CallClose] in
  len os < 2 ^ 64
  /\ exists c,
       calls sampleCRC (mkClient (NewWriter [] false) [] []) os = Ok c
       /\ (exists e, Packed sampleCRC 0 (w_w (c_w c)) e)
       /\ Forall (fun s => exists e, Packed sampleCRC 0 s e) (c_sinks c).
Proof.
  cbv zeta.
  assert (H : len [CallNext; CallWrite 0 [Byte.x61]; CallFlush; CallWrite 0 [Byte.x62];
                   CallNext; CallWrite 1 [Byte.x63]; CallClose] < 2 ^ 64)
    by reflexivity.
  split; [exact H|].
  exact (chunks_stay_in_blocks sampleCRC false _ H).
Defined.

(** Two journals of one byte each. *)
Definition twoJournals : list byte :=
  chunk sampleCRC fullChunkType [Byte.x61] ++ chunk sampleCRC fullChunkType [Byte.x62].

(** The reader over [twoJournals] after [i] calls of [Next], for [i]
    one or two. *)
Definition afterNexts (i : Z) : Reader :=
  mkReader [] (Some []) true true i (8 * i - 1) (8 * i) 16 true None
    (store (zeros blockSize) 0 twoJournals).

(** A new writer after [Next], after a byte is written to the session
    that [Next] gave, and after the [Flush] that follows. *)
Definition afterWriterNext : Writer :=
  mkWriter [] 1 false 0 7 0 true true None (zeros blockSize).
Definition afterWrite : Writer :=
  mkWriter [] 1 false 0 8 0 true true None (store (zeros blockSize) 7 [Byte.x61]).
Definition afterFlush : Writer :=
  mkWriter (chunk sampleCRC fullChunkType [Byte.x61]) 2 false 0 8 8 true false None
    (store (zeros blockSize) 0 (chunk sampleCRC fullChunkType [Byte.x61])).

(** A reader session made stale by the [Next] after it, and a writer
    session made stale by a [Flush]: both refuse, and the parents stay
    as they were. *)
Lemma stale_session_fails_witness :
  let x := mkSingleReader 1 None in
  let y := mkSingleWriter 1 in
  0 < 1 < 2 ^ 64
  /\ (Reader_Next sampleCRC (NewReader twoJournals (Some []) true true)
      = Ok (afterNexts 1, Some x, None)
      /\ Reader_Next sampleCRC (afterNexts 1)
         = Ok (afterNexts 2, Some (mkSingleReader 2 None), None)
      /\ Read sampleCRC (afterNexts 2) x 512
         = Ok (afterNexts 2, x, [], Some (New "leveldb/journal: stale reader"))
      /\ ReadByte sampleCRC (afterNexts 2) x
         = Ok (afterNexts 2, x, Byte.x00, Some (New "leveldb/journal: stale reader")))
  /\ (Writer_Next sampleCRC (NewWriter [] false) = Ok (afterWriterNext, Some y, None)
      /\ Write sampleCRC afterWriterNext y [Byte.x61] = Ok (afterWrite, 1, None)
      /\ Writer_Flush sampleCRC afterWrite = Ok (afterFlush, None)
      /\ Write sampleCRC afterFlush y [Byte.x62]
         = Ok (afterFlush, 0, Some (New "leveldb/journal: stale writer")))
  /\ (forall msg e, New msg <> NewErrCorrupted e).
Proof.
  cbv zeta.
  assert (H : 0 < 1 < 2 ^ 64) by (split; reflexivity).
  assert (R1 : Reader_Next sampleCRC (NewReader twoJournals (Some []) true true)
               = Ok (afterNexts 1, Some (mkSingleReader 1 None), None))
    by run Next_dec.
  assert (R2 : Reader_Next sampleCRC (afterNexts 1)
               = Ok (afterNexts 2, Some (mkSingleReader 2 None), None))
    by run Next_dec.
  assert (W1 : Writer_Next sampleCRC (NewWriter [] false)
               = Ok (afterWriterNext, Some (mkSingleWriter 1), None))
    by run Writer_Next_dec.
  assert (W2 : Write sampleCRC afterWriterNext (mkSingleWriter 1) [Byte.x61]
               = Ok (afterWrite, 1, None)) by run Write_dec.
  assert (W3 : Writer_Flush sampleCRC afterWrite = Ok (afterFlush, None))
    by run Flush_dec.
  destruct (stale_session_fails sampleCRC 1 H) as (Hr & Hw & Hne).
  destruct (Hr (NewReader twoJournals (Some []) true true) (afterNexts 1)
              (mkSingleReader 1 None) (afterNexts 2) (mkSingleReader 1 None) 512 R1
              (rlater_Next sampleCRC 0 _ _ _ _ _ (rlater_refl sampleCRC _) R2) eq_refl)
    as (Hr1 & Hr2).
  pose proof (Hw (NewWriter [] false) afterWriterNext (mkSingleWriter 1) afterFlush
                [Byte.x62] W1
                (wlater_Flush sampleCRC 0 _ _ _ _
                   (wlater_Write sampleCRC 0 _ _ _ _ _ _ _
                      (wlater_refl sampleCRC _) W2) W3)) as Hw1.
  split; [exact H|].
  split; [split; [exact R1|]; split; [exact R2|]; split; [exact Hr1|exact Hr2]|].
  split; [split; [exact W1|]; split; [exact W2|]; split; [exact W3|exact Hw1]|].
  exact Hne.
Defined.

(** ** Readers and writers at work *)

(** The reader over [cutShort] after [Next], with the payload of the
    First chunk before it. *)
Definition afterNext (strict : bool) : Reader := r_set_i (atCut strict) 7.


(** The reader of an empty source after its first [Next], which found
    the end. *)
Definition atEnd : Reader :=
  mkReader [] None false true 1 0 0 0 true (Some EOF) (zeros blockSize).

Lemma Next_error_sticks_witness :
  reached sampleCRC (NewReader [] None false true)
  /\ Reader_Next sampleCRC (NewReader [] None false true) = Ok (atEnd, None, Some EOF)
  /\ @None singleReader = None
  /\ r_err atEnd = Some EOF
  /\ Reader_Next sampleCRC atEnd
     = Ok (r_set_seq atEnd (int (r_seq atEnd + 1)), None, Some EOF)
  /\ r_err (r_set_seq atEnd (int (r_seq atEnd + 1))) = Some EOF.
Proof.
  assert (H : reached sampleCRC (NewReader [] None false true)) by apply reached_New.
  assert (E : Reader_Next sampleCRC (NewReader [] None false true)
              = Ok (atEnd, None, Some EOF)) by reflexivity.
  split; [exact H|]. split; [exact E|].
  exact (Next_error_sticks sampleCRC (NewReader [] None false true) atEnd None EOF H E).
Defined.

(** [Read] with a buffer of one byte and [ReadByte], on the session
    that [Next] gave over [cutShort]: both take the byte [0x61] and
    leave the same reader. *)
Lemma ReadByte_as_Read_witness :
  let x := mkSingleReader 1 None in
  Reader_Next sampleCRC (NewReader cutShort (Some []) true true)
  = Ok (afterNext true, Some x, None)
  /\ reached sampleCRC (afterNext true)
  /\ Read sampleCRC (afterNext true) x 1 = Ok (atCut true, x, [Byte.x61], None)
  /\ ReadByte sampleCRC (afterNext true) x = Ok (atCut true, x, Byte.x61, None).
Proof.
  cbv zeta.
  assert (E1 : Reader_Next sampleCRC (NewReader cutShort (Some []) true true)
               = Ok (afterNext true, Some (mkSingleReader 1 None), None))
    by run Next_dec.
  assert (E2 : Read sampleCRC (afterNext true) (mkSingleReader 1 None) 1
               = Ok (atCut true, mkSingleReader 1 None, [Byte.x61], None))
    by run Read_dec.
  assert (H : reached sampleCRC (afterNext true)).
  { apply (reached_Next sampleCRC (NewReader cutShort (Some []) true true)
             (afterNext true) (Some (mkSingleReader 1 None)) None).
    - apply reached_New.
    - exact E1. }
  pose proof (ReadByte_as_Read sampleCRC (afterNext true) (mkSingleReader 1 None) H) as T.
  rewrite E2 in T.
  split; [exact E1|]. split; [exact H|]. split; [exact E2|exact T].
Defined.


(** Three journals; of the first one byte is read, of the second
    nothing, before [Next] is called again. *)
Lemma Next_before_the_end_witness :
  let js := [[Byte.x61; Byte.x62]; [Byte.x63]; [Byte.x64]] in
  let plan := [[1]; []] in
  Forall (Forall (fun z => 0 <= z)) plan
  /\ (List.length plan <= List.length js)%nat
  /\ (forall k, 0 < growing k)
  /\ exists out r r',
       write sampleCRC js = Ok (out, None)
       /\ skim sampleCRC (NewReader out (Some []) true true) plan = Ok r
       /\ read_loop sampleCRC (budget r) r growing []
          = Ok (skipn (List.length plan) js, None, r').
Proof.
  cbv zeta.
  assert (P : Forall (Forall (fun z => 0 <= z)) [[1]; []])
    by (repeat constructor; lia).
  assert (L : (List.length [[1]; []]
               <= List.length [[Byte.x61; Byte.x62]; [Byte.x63]; [Byte.x64]])%nat)
    by (cbn [List.length]; lia).
  assert (G : forall k, 0 < growing k) by (intros k; unfold growing; lia).
  split; [exact P|]. split; [exact L|]. split; [exact G|].
  exact (Next_before_the_end sampleCRC sampleCRC_range
           [[Byte.x61; Byte.x62]; [Byte.x63]; [Byte.x64]] [[1]; []]
           (Some []) true true growing P L G).
Defined.

(** Two journals written in pieces, with a [Flush] after the first. *)
Lemma pieces_round_trip_witness :
  let jss := [([[Byte.x61]; []; [Byte.x62; Byte.x63]], true); ([[Byte.x64]], false)] in
  (forall k, 0 < growing k)
  /\ exists w closed flushed r',
       scribe sampleCRC (NewWriter [] false) jss = Ok (w, None)
       /\ Writer_Close sampleCRC w = Ok (closed, None)
       /\ Writer_Flush sampleCRC w = Ok (flushed, None)
       /\ w_w flushed = w_w closed
       /\ read sampleCRC (w_w closed) (Some []) true true growing
          = Ok (whole jss, None, r').
Proof.
  cbv zeta.
  assert (G : forall k, 0 < growing k) by (intros k; unfold growing; lia).
  split; [exact G|].
  exact (pieces_round_trip sampleCRC sampleCRC_range
           [([[Byte.x61]; []; [Byte.x62; Byte.x63]], true); ([[Byte.x64]], false)]
           false (Some []) true true growing G).
Defined.

(** A writer left in the middle of a journal, then reset. *)
Lemma Reset_writes_anew_witness :
  let os := [CallNext; CallWrite 0 [Byte.x61]; CallFlush; CallNext;
             CallWrite 1 [Byte.x62]] in
  len os < 2 ^ 64
  /\ (forall k, 0 < growing k)
  /\ exists c w1 e w2 r',
       calls sampleCRC (mkClient (NewWriter [] false) [] []) os = Ok c
       /\ Writer_Reset sampleCRC (c_w c) [] true = Ok (w1, e)
       /\ write_loop sampleCRC w1 [[Byte.x63]; [Byte.x64]] = Ok (w2, None)
       /\ read sampleCRC (w_w w2) (Some []) true true growing
          = Ok ([[Byte.x63]; [Byte.x64]], None, r').
Proof.
  cbv zeta.
  assert (H : len [CallNext; CallWrite 0 [Byte.x61]; CallFlush; CallNext;
                   CallWrite 1 [Byte.x62]] < 2 ^ 64) by reflexivity.
  assert (G : forall k, 0 < growing k) by (intros k; unfold growing; lia).
  split; [exact H|]. split; [exact G|].
  exact (Reset_writes_anew sampleCRC sampleCRC_range _ false true
           [[Byte.x63]; [Byte.x64]] (Some []) true true growing H G).
Defined.

(** A closed writer, and calls made on it after. *)
Lemma closed_writer_is_done_witness :
  let c := mkClient
             (w_set_err (NewWriter [Byte.x61] false)
                (Some (New "leveldb/journal: closed Writer")))
             [] [] in
  let os := [CallNext; CallWrite 0 [Byte.x62]; CallFlush; CallClose] in
  w_err (c_w c) = Some (New "leveldb/journal: closed Writer")
  /\ Forall (fun o => forall f, o <> CallReset f) os
  /\ exists c',
       calls sampleCRC c os = Ok c'
       /\ w_w (c_w c') = w_w (c_w c)
       /\ w_err (c_w c') = Some (New "leveldb/journal: closed Writer")
       /\ c_sessions c' = c_sessions c /\ c_sinks c' = c_sinks c.
Proof.
  cbv zeta.
  assert (H : w_err (c_w (mkClient
                 (w_set_err (NewWriter [Byte.x61] false)
                    (Some (New "leveldb/journal: closed Writer"))) [] []))
              = Some (New "leveldb/journal: closed Writer")) by reflexivity.
  assert (F : Forall (fun o => forall f, o <> CallReset f)
                [CallNext; CallWrite 0 [Byte.x62]; CallFlush; CallClose])
    by (repeat constructor; intros f; discriminate).
  split; [exact H|]. split; [exact F|].
  exact (closed_writer_is_done sampleCRC _ _ _ H F).
Defined.

(** A block that holds one chunk with a wrong sum and zeros after it,
    before a journal. *)
Lemma damaged_block_witness :
  let G := chunk_with 0 fullChunkType [Byte.x61] ++ zeros (blockSize - 8) in
  let d := mkErrCorrupted blockSize "checksum mismatch" in
  0 <= 0 < 2 ^ 32
  /\ 0 <> sampleCRC (byte.of_Z fullChunkType :: [Byte.x61])
  /\ fullChunkType <= fullChunkType <= lastChunkType
  /\ len G = blockSize
  /\ (forall k, 0 < growing k)
  /\ exists out r1 r2,
       write sampleCRC [[Byte.x62]] = Ok (out, None)
       /\ read sampleCRC (G ++ out) (Some []) true true growing
          = Ok ([], Some (NewErrCorrupted d), r1)
       /\ r_dropper r1 = add_drops (Some []) [d]
       /\ read sampleCRC (G ++ out) (Some []) false true growing
          = Ok ([[Byte.x62]], None, r2)
       /\ r_dropper r2 = add_drops (Some []) [d].
Proof.
  cbv zeta.
  assert (H1 : 0 <= 0 < 2 ^ 32) by (split; [reflexivity|reflexivity]).
  assert (H2 : 0 <> sampleCRC (byte.of_Z fullChunkType :: [Byte.x61]))
    by (vm_compute; discriminate).
  assert (H3 : fullChunkType <= fullChunkType <= lastChunkType)
    by (split; vm_compute; discriminate).
  assert (H4 : len (chunk_with 0 fullChunkType [Byte.x61] ++ zeros (blockSize - 8))
               = blockSize) by (vm_compute; reflexivity).
  assert (G : forall k, 0 < growing k) by (intros k; unfold growing; lia).
  split; [exact H1|]. split; [exact H2|]. split; [exact H3|]. split; [exact H4|].
  split; [exact G|].
  exact (damaged_block sampleCRC sampleCRC_range 0 fullChunkType [Byte.x61]
           (zeros (blockSize - 8)) [[Byte.x62]] (Some []) growing H1 H2 H3 H4 G).
Defined.

(** A writer whose checksum is always zero, and a strict reader that
    has the stand-in checksum and does not verify it. *)
Definition noCRC (b : list byte) : Z := 0.

Lemma unchecked_ignores_sums_witness :
  (forall b, 0 <= noCRC b < 2 ^ 32)
  /\ (forall k, 0 < growing k)
  /\ exists out r',
       write noCRC [[Byte.x61]; []; [Byte.x62; Byte.x63]] = Ok (out, None)
       /\ read sampleCRC out (Some []) true false growing
          = Ok ([[Byte.x61]; []; [Byte.x62; Byte.x63]], None, r')
       /\ r_dropper r' = Some [].
Proof.
  assert (H : forall b, 0 <= noCRC b < 2 ^ 32)
    by (intros b; unfold noCRC; split; [reflexivity|reflexivity]).
  assert (G : forall k, 0 < growing k) by (intros k; unfold growing; lia).
  split; [exact H|]. split; [exact G|].
  exact (proj2 (unchecked_ignores_sums sampleCRC noCRC []
                  [[Byte.x61]; []; [Byte.x62; Byte.x63]] (Some []) true growing) H G).
Defined.

End Journal.
